(** * Astronum captcha: event loop, ship kinematics and number generator

    A shallow embedding of [submissions/astronum/captcha/captcha.js].

    - [Generator]: [generateSpecialArray], the rejection-sampling loop that
      draws the numbers shown on the asteroids.
    - [Ship]: the closure state of [Ship] ([posX], [posY], [scale],
      [angle]) with [update], [move], [reset], [rotateLeft], [rotateRight],
      [getFront], and the drag handler [onDrag] of [Captcha].
    - [EventLoop]: the closure state of [EventLoop] with [add], [remove],
      [run], the handlers of the document events and the functions the loop
      exposes.
    - [Approx], [Examples]: a concrete [Math] object and concrete inputs.
    - [Geometry], [Number], [CaptchaEquation], [Captcha]: [rectIntersects],
      the closure state of [Number] and of [CaptchaEquation], and
      [refreshNumbers].
    - [GeneratorFacts], [ShipFacts], [EventLoopFacts] and the modules after
      them: what is proved.

    JavaScript numbers are modelled by exact rationals ([Q]) where the code
    computes with fractions, and by [Z] where every value the code stores is
    an integer (the generated numbers, the resume countdown).  [Math.cos],
    [Math.sin], [Math.atan2], [Math.sqrt] and [Math.PI] are parameters of
    the model; [NaN] appears only as the result of [Math.sqrt]. *)

From Stdlib Require Import ZArith QArith Qround Qabs Qminmax List Bool Lia Lqa
  Arith FinFun.
From Stdlib Require String Ascii DecimalString DecimalZ DecimalPos.
Import ListNotations.

Local Open Scope Z_scope.

(* ================================================================== *)
(** ** generateSpecialArray *)
(* ================================================================== *)

Module Generator.

(** [Math.random()] is a source of draws; the state threaded through the
    generator is the number of draws consumed so far. *)
Definition Rng := nat -> Q.

(** [Math.random()] returns a value in the half-open unit interval. *)
Definition unit_interval (rng : Rng) : Prop :=
  forall n, (0 <= rng n)%Q /\ (rng n < 1)%Q.

(** [Math.floor(Math.random() * (max - min + 1)) + min] *)
Definition getRandomInt (min max : Z) (r : Q) : Z :=
  Qfloor (r * inject_Z (max - min + 1)) + min.

(** [for (let i = 0; i < arrayLength; i++) arr.push(getRandomInt(1, maxSum - 1))];
    [n] counts the iterations still to run. *)
Fixpoint fillArray (rng : Rng) (pos n : nat) (maxSum : Z) (arr : list Z)
  : list Z * nat :=
  match n with
  | O => (arr, pos)
  | S n' =>
      fillArray rng (S pos) n' maxSum
        (arr ++ [getRandomInt 1 (maxSum - 1) (rng pos)])
  end.

(** [arr[i]] for an index inside the array. *)
Definition at_ (arr : list Z) (i : nat) : Z := nth i arr 0.

(** Innermost loop of the bound check, from index [k] for [n] iterations:
    [ok] becomes [false] and the loop breaks at the first triple whose sum
    reaches [maxSum]. *)
Fixpoint sumLoopK (arr : list Z) (maxSum : Z) (i j k n : nat) : bool :=
  match n with
  | O => true
  | S n' =>
      if at_ arr i + at_ arr j + at_ arr k >=? maxSum then false
      else sumLoopK arr maxSum i j (S k) n'
  end.

(** [for (let j = i + 1; (j < arr.length) && ok; j++)] *)
Fixpoint sumLoopJ (arr : list Z) (maxSum : Z) (i j n : nat) (ok : bool) : bool :=
  match n with
  | O => ok
  | S n' =>
      if ok then
        sumLoopJ arr maxSum i (S j) n'
          (sumLoopK arr maxSum i j (S j) (length arr - S j))
      else ok
  end.

(** [for (let i = 0; (i < arr.length) && ok; i++)] *)
Fixpoint sumLoopI (arr : list Z) (maxSum : Z) (i n : nat) (ok : bool) : bool :=
  match n with
  | O => ok
  | S n' =>
      if ok then
        sumLoopI arr maxSum (S i) n'
          (sumLoopJ arr maxSum i (S i) (length arr - S i) ok)
      else ok
  end.

(** The value of [ok] after the three nested loops. *)
Definition sumCheck (arr : list Z) (maxSum : Z) : bool :=
  sumLoopI arr maxSum 0 (length arr) true.

(** [(a + b === c) || (a + c === b) || (b + c === a)] *)
Definition solves (a b c : Z) : bool :=
  (a + b =? c) || (a + c =? b) || (b + c =? a).

(** The counting loops: [count] is threaded through. *)
Fixpoint countLoopK (arr : list Z) (i j k n : nat) (count : nat) : nat :=
  match n with
  | O => count
  | S n' =>
      countLoopK arr i j (S k) n'
        (if solves (at_ arr i) (at_ arr j) (at_ arr k) then S count else count)
  end.

Fixpoint countLoopJ (arr : list Z) (i j n : nat) (count : nat) : nat :=
  match n with
  | O => count
  | S n' =>
      countLoopJ arr i (S j) n'
        (countLoopK arr i j (S j) (length arr - S j) count)
  end.

Fixpoint countLoopI (arr : list Z) (i n : nat) (count : nat) : nat :=
  match n with
  | O => count
  | S n' =>
      countLoopI arr (S i) n'
        (countLoopJ arr i (S i) (length arr - S i) count)
  end.

Definition countSolving (arr : list Z) : nat :=
  countLoopI arr 0 (length arr) 0.

(** [while (true) { ... }]: [fuel] bounds the number of candidate arrays
    tried; [None] means the fuel ran out before a candidate was accepted. *)
Fixpoint generateSpecialArray (fuel : nat) (rng : Rng) (pos : nat)
    (arrayLength : nat) (maxSum : Z) : option (list Z) :=
  match fuel with
  | O => None
  | S fuel' =>
      let '(arr, pos') := fillArray rng pos arrayLength maxSum [] in
      if negb (sumCheck arr maxSum) then
        generateSpecialArray fuel' rng pos' arrayLength maxSum
      else if Nat.eqb (countSolving arr) 1 then Some arr
      else generateSpecialArray fuel' rng pos' arrayLength maxSum
  end.

(** *** Specification-side notions *)

(** Positions [i < j < k] of a 3-element subset of a sequence of length [n]. *)
Definition is_triple (n i j k : nat) : Prop := (i < j < k)%nat /\ (k < n)%nat.

(** The subset at positions [i], [j], [k] satisfies [a + b = c] for some
    choice of which element is the sum. *)
Definition sum_relation (arr : list Z) (i j k : nat) : Prop :=
  at_ arr i + at_ arr j = at_ arr k \/
  at_ arr i + at_ arr k = at_ arr j \/
  at_ arr j + at_ arr k = at_ arr i.

(** All position triples, in the order the loops visit them. *)
Definition triples (n : nat) : list (nat * nat * nat) :=
  flat_map (fun i =>
    flat_map (fun j =>
      map (fun k => (i, j, k)) (seq (S j) (n - S j)))
      (seq (S i) (n - S i)))
    (seq 0 n).

Definition solvesAt (arr : list Z) (t : nat * nat * nat) : bool :=
  let '(i, j, k) := t in solves (at_ arr i) (at_ arr j) (at_ arr k).

Definition belowAt (arr : list Z) (maxSum : Z) (t : nat * nat * nat) : bool :=
  let '(i, j, k) := t in negb (at_ arr i + at_ arr j + at_ arr k >=? maxSum).

(** The draws that produce the numbers of the README example. *)
Definition exampleRng : Rng :=
  fun n => nth n [51#99; 26#99; 0#99; 14#99; 17#99; 15#99]%Q (0#1)%Q.

(** A source whose first six draws are rejected by the bound check. *)
Definition retryRng : Rng :=
  fun n => nth n [98#99; 98#99; 98#99; 98#99; 98#99; 98#99;
                  51#99; 26#99; 0#99; 14#99; 17#99; 15#99]%Q (0#1)%Q.

End Generator.

(* ================================================================== *)
(** ** Numbers, points and the Math object *)
(* ================================================================== *)

Local Open Scope Q_scope.

(** [a < b] on numbers, as a boolean. *)
Definition Qltb (a b : Q) : bool := negb (Qle_bool b a).

(** [Math.trunc]: the integer part, rounding towards zero. *)
Definition Qtrunc (a : Q) : Z := Z.quot (Qnum a) (Zpos (Qden a)).

(** The remainder operator [a % n]: the result takes the sign of [a]. *)
Definition Qrem (a n : Q) : Q := a - n * inject_Z (Qtrunc (a / n)).

(** [class Point] *)
Record Point : Type := mkPoint { x : Q; y : Q }.

(** The part of the [Math] object the ship and the drag handler use.
    [Math_sqrt] returns [None] for [NaN]. *)
Record JSMath : Type := mkMath {
  Math_PI : Q;
  Math_cos : Q -> Q;
  Math_sin : Q -> Q;
  Math_atan2 : Q -> Q -> Q;
  Math_sqrt : Q -> option Q
}.

(** The layout properties read from the canvas element. *)
Record Canvas : Type := mkCanvas {
  offsetWidth : Q;
  offsetHeight : Q;
  offsetLeft : Q;
  offsetTop : Q
}.

(* ================================================================== *)
(** ** Ship *)
(* ================================================================== *)

Module Ship.

(** The mutable variables of the closure. *)
Record State : Type := mkState {
  posX : Q;
  posY : Q;
  scale : Q;
  angle : Q
}.

Section WithEnvironment.

Variable M : JSMath.
Variable canvas : Canvas.
(** The layout box of the ship element [el]. *)
Variable el_offsetWidth el_offsetHeight : Q.
(** The constructor arguments [x] and [y]. *)
Variable x0 y0 : Q.

Definition TURN_ANGLE : Q := 2.
Definition THRUST_DISTANCE : Q := 1.

Definition width : Q :=
  Qmin (offsetWidth canvas) (offsetHeight canvas) * 0.10.
Definition height : Q :=
  Qmin (offsetWidth canvas) (offsetHeight canvas) * 0.14.

(** The state the constructor leaves behind. *)
Definition init : State :=
  {| posX := x0 - (height / 2);
     posY := y0 - (width / 2);
     scale := 1;
     angle := 90 |}.

(** The value of [collide] in [update]. *)
Definition collide (p : Point) : bool :=
  Qle_bool (x p) 0
  || Qle_bool (offsetWidth canvas) (x p + height)
  || Qle_bool (y p) 0
  || Qle_bool (offsetHeight canvas) (y p + height).

(** The heading after [angle += degDelta] and the two-branch clamp. *)
Definition clampAngle (a : Q) : Q :=
  if Qltb 360 a then Qrem a 360
  else if Qltb a 0 then a + 360
  else a.

Definition update (xDelta yDelta degDelta : Q) (s : State) : State :=
  let p := mkPoint (posX s + xDelta) (posY s + yDelta) in
  if collide p then s
  else
    {| posX := posX s + xDelta;
       posY := posY s + yDelta;
       scale := scale s;
       angle := clampAngle (angle s + degDelta) |}.

Definition move (distance : Q) (s : State) : State :=
  let rad := angle s * Math_PI M / 180 in
  update (Math_cos M rad * distance) (Math_sin M rad * distance) 0 s.

Definition reset (s : State) : State :=
  update 0 0 0
    {| posX := x0 - (width / 2);
       posY := y0 - (height / 2);
       scale := 1;
       angle := 90 |}.

Definition forward (s : State) : State := move (- THRUST_DISTANCE) s.

(** The body of [backward] is commented out in the source. *)
Definition backward (s : State) : State := s.

Definition rotateLeft (s : State) : State := update 0 0 (- TURN_ANGLE) s.
Definition rotateRight (s : State) : State := update 0 0 TURN_ANGLE s.

Definition getOrient (s : State) : Q := angle s.

Definition getCenter (s : State) : Point :=
  mkPoint (posX s + (el_offsetHeight / 2)) (posY s + (el_offsetWidth / 2)).

Definition getFront (s : State) : Point :=
  let cx := posX s + (el_offsetHeight / 2) in
  let cy := posY s + (el_offsetWidth / 2) in
  let dx := posX s - cx in
  let dy := (posY s + (el_offsetWidth / 2)) - cy in
  let rad := angle s * Math_PI M / 180 in
  let cos := Math_cos M rad in
  let sin := Math_sin M rad in
  let xr := dx * cos - dy * sin in
  let yr := dx * sin + dy * cos in
  mkPoint (xr + cx) (yr + cy).

Definition getMinTurnAngle : Q := TURN_ANGLE.
Definition getMinThrustDistance : Q := THRUST_DISTANCE.

(** The operations the ship exposes that change its state. *)
Inductive Op : Type :=
| OpReset | OpForward | OpBackward | OpRotateLeft | OpRotateRight.

Definition apply (o : Op) (s : State) : State :=
  match o with
  | OpReset => reset s
  | OpForward => forward s
  | OpBackward => backward s
  | OpRotateLeft => rotateLeft s
  | OpRotateRight => rotateRight s
  end.

Definition applyAll (ops : list Op) (s : State) : State :=
  fold_left (fun acc o => apply o acc) ops s.

(** *** The drag handler of [Captcha] *)

(** Which ship method one call of [onDrag] invokes. *)
Inductive Call : Type :=
| NoCall | CallRotateRight | CallRotateLeft | CallForward.

(** [distance < ship.getMinThrustDistance()], false when [distance] is
    [NaN]. *)
Definition ltNumber (d : option Q) (b : Q) : bool :=
  match d with
  | None => false
  | Some v => Qltb v b
  end.

Definition onDrag (curPos : Point) (s : State) : Call * State :=
  let sourcePos := getFront s in
  let targetPos :=
    mkPoint (x curPos - offsetLeft canvas) (y curPos - offsetTop canvas) in
  let dx := x targetPos - x sourcePos in
  let dy := y targetPos - y sourcePos in
  let targetDeg := Math_atan2 M dy dx * 180 / Math_PI M in
  let targetDeg := Qrem targetDeg 360 in
  let targetDeg := if Qltb targetDeg 0 then targetDeg + 360 else targetDeg in
  let shipDeg := getOrient s in
  let delta := targetDeg - shipDeg in
  let delta := if Qltb 180 delta then delta - 360 else delta in
  let delta := if Qle_bool delta (-180) then delta + 360 else delta in
  if Qltb (Qabs delta) (180 - getMinTurnAngle) then
    if Qltb delta 0 then (CallRotateRight, rotateRight s)
    else (CallRotateLeft, rotateLeft s)
  else
    let distance := Math_sqrt M (dx + dy) in
    if ltNumber distance getMinThrustDistance then (NoCall, s)
    else (CallForward, forward s).

(** *** Specification-side notions *)

(** The tentative position crosses an arena boundary. *)
Definition crosses (s : State) (xDelta yDelta : Q) : Prop :=
  posX s + xDelta <= 0 \/
  offsetWidth canvas <= posX s + xDelta + height \/
  posY s + yDelta <= 0 \/
  offsetHeight canvas <= posY s + yDelta + height.

(** The Euclidean distance between two points is below [d] ([0 <= d]). *)
Definition euclid_below (p q : Point) (d : Q) : Prop :=
  (x p - x q) * (x p - x q) + (y p - y q) * (y p - y q) < d * d.

End WithEnvironment.

End Ship.

(* ================================================================== *)
(** ** EventLoop *)
(* ================================================================== *)

Module EventLoop.

Local Open Scope Z_scope.

Inductive EventTypes : Type := NONE | KEY | MOUSE | TOUCH.

Definition isKey (t : EventTypes) : bool :=
  match t with KEY => true | _ => false end.

Definition isPointer (t : EventTypes) : bool :=
  match t with MOUSE | TOUCH => true | _ => false end.

(** The [code] of a handler: [null] for a pointer listener, the key code for
    a key listener, the press position for an armed pointer handler. *)
Inductive Code : Type :=
| CodeNull
| CodeKey (k : Z)
| CodePos (p : Point).

(** [code == key] for a numeric [key]. *)
Definition codeIs (c : Code) (key : Z) : bool :=
  match c with
  | CodeKey k => k =? key
  | _ => false
  end.

(** [a == b] on identifiers that are a number or [null]. *)
Definition idEq (a b : option nat) : bool :=
  match a, b with
  | None, None => true
  | Some n, Some m => Nat.eqb n m
  | _, _ => false
  end.

(** [!listener.id]: [null] and [0] are falsy. *)
Definition unarmed (i : option nat) : bool :=
  match i with
  | None => true
  | Some O => true
  | Some (S _) => false
  end.

(** [getBoundingClientRect()] of the canvas. *)
Record Rect : Type := mkRect {
  rect_left : Q;
  rect_right : Q;
  rect_top : Q;
  rect_bottom : Q
}.

(** A mouse event carries client coordinates, a touch event its contacts. *)
Inductive PointerEvent : Type :=
| MouseEvent (clientX clientY : Q)
| TouchEvent (touches : list Point).

Definition getCoordinates (ev : PointerEvent) : option Point :=
  match ev with
  | MouseEvent cx cy => Some (mkPoint cx cy)
  | TouchEvent [p] => Some p
  | TouchEvent _ => None
  end.

Definition isWithin (p : option Point) (rect : Rect) : bool :=
  match p with
  | None => false
  | Some p =>
      Qle_bool (rect_left rect) (x p)
      && Qle_bool (x p) (rect_right rect)
      && Qle_bool (rect_top rect) (y p)
      && Qle_bool (y p) (rect_bottom rect)
  end.

Definition EVENT_INTERVAL : Z := 5.
Definition RESUME_INTERVAL : Z := 100.

Section WithCallbacks.

(** Callbacks are values of type [Fn]; [App] is the state they close over. *)
Variable Fn : Type.
Variable App : Type.

(** [class EventHandler] *)
Record EventHandler : Type := mkHandler {
  id : option nat;
  type : EventTypes;
  code : Code;
  fn : Fn;
  repeat : bool
}.

Definition setId (i : option nat) (h : EventHandler) : EventHandler :=
  mkHandler i (type h) (code h) (fn h) (repeat h).

(** The functions the event loop exposes; a callback reaches the loop only
    through them. *)
Inductive Cmd : Type :=
| AddKeyEvent (code : Z) (fn : Fn) (repeat : bool)
| AddMouseEvent (fn : Fn) (repeat : bool)
| AddTouchEvent (fn : Fn) (repeat : bool)
| AddTickEvent (fn : Fn)
| Pause
| Resume.

(** The arguments of a call: none for a tick listener, [(code, curPos)]
    for a handler. *)
Definition Args : Type := option (Code * option Point).

(** What a callback does when called: it changes the state it closes over
    and calls functions of the loop, in order. *)
Variable cb : Fn -> Args -> App -> App * list Cmd.

(** One entry per callback invocation. *)
Inductive Fired : Type :=
| FiredTick (f : Fn)
| FiredHandler (h : EventHandler) (pos : option Point).

(** The variables of the closure; [app] is the callbacks' own state and
    [log] records the invocations made so far. *)
Record State : Type := mkState {
  handlers : list EventHandler;
  keyListeners : list EventHandler;
  mouseListeners : list EventHandler;
  tickListeners : list Fn;
  nextId : nat;
  curPos : option Point;
  paused : bool;
  resumeTimeRemaining : Z;
  app : App;
  log : list Fired
}.

Definition init (a : App) : State :=
  mkState [] [] [] [] 0 None false 0 a [].

Definition setHandlers (hs : list EventHandler) (s : State) : State :=
  mkState hs (keyListeners s) (mouseListeners s) (tickListeners s)
    (nextId s) (curPos s) (paused s) (resumeTimeRemaining s) (app s) (log s).

Definition setKeyListeners (ls : list EventHandler) (s : State) : State :=
  mkState (handlers s) ls (mouseListeners s) (tickListeners s)
    (nextId s) (curPos s) (paused s) (resumeTimeRemaining s) (app s) (log s).

Definition setMouseListeners (ls : list EventHandler) (s : State) : State :=
  mkState (handlers s) (keyListeners s) ls (tickListeners s)
    (nextId s) (curPos s) (paused s) (resumeTimeRemaining s) (app s) (log s).

Definition setTickListeners (ls : list Fn) (s : State) : State :=
  mkState (handlers s) (keyListeners s) (mouseListeners s) ls
    (nextId s) (curPos s) (paused s) (resumeTimeRemaining s) (app s) (log s).

Definition setNextId (n : nat) (s : State) : State :=
  mkState (handlers s) (keyListeners s) (mouseListeners s) (tickListeners s)
    n (curPos s) (paused s) (resumeTimeRemaining s) (app s) (log s).

Definition setCurPos (p : option Point) (s : State) : State :=
  mkState (handlers s) (keyListeners s) (mouseListeners s) (tickListeners s)
    (nextId s) p (paused s) (resumeTimeRemaining s) (app s) (log s).

Definition setPause (b : bool) (t : Z) (s : State) : State :=
  mkState (handlers s) (keyListeners s) (mouseListeners s) (tickListeners s)
    (nextId s) (curPos s) b t (app s) (log s).

Definition setApp (a : App) (s : State) : State :=
  mkState (handlers s) (keyListeners s) (mouseListeners s) (tickListeners s)
    (nextId s) (curPos s) (paused s) (resumeTimeRemaining s) a (log s).

Definition record (e : Fired) (s : State) : State :=
  mkState (handlers s) (keyListeners s) (mouseListeners s) (tickListeners s)
    (nextId s) (curPos s) (paused s) (resumeTimeRemaining s) (app s)
    (log s ++ [e]).

(** [add]: returns the identifier given to the new handler. *)
Definition add (t : EventTypes) (c : Code) (f : Fn) (r : bool) (s : State)
  : nat * State :=
  let curId := (nextId s + 1)%nat in
  (curId,
   setHandlers (handlers s ++ [mkHandler (Some curId) t c f r])
     (setNextId (nextId s + 1)%nat s)).

(** [handlers.splice(idx, 1); break] at the first match. *)
Fixpoint spliceFirst (i : option nat) (hs : list EventHandler)
  : list EventHandler :=
  match hs with
  | [] => []
  | h :: rest => if idEq (id h) i then rest else h :: spliceFirst i rest
  end.

(** [listeners[idx].id = null; break] at the first match. *)
Fixpoint clearFirst (i : option nat) (ls : list EventHandler)
  : list EventHandler :=
  match ls with
  | [] => []
  | l :: rest =>
      if idEq (id l) i then setId None l :: rest else l :: clearFirst i rest
  end.

Definition remove (i : option nat) (s : State) : State :=
  setMouseListeners (clearFirst i (mouseListeners s))
    (setKeyListeners (clearFirst i (keyListeners s))
       (setHandlers (spliceFirst i (handlers s)) s)).

Definition addKeyEvent (c : Z) (f : Fn) (r : bool) (s : State) : State :=
  setKeyListeners (keyListeners s ++ [mkHandler None KEY (CodeKey c) f r]) s.

Definition addMouseEvent (f : Fn) (r : bool) (s : State) : State :=
  setMouseListeners (mouseListeners s ++ [mkHandler None MOUSE CodeNull f r]) s.

Definition addTouchEvent (f : Fn) (r : bool) (s : State) : State :=
  setMouseListeners (mouseListeners s ++ [mkHandler None TOUCH CodeNull f r]) s.

Definition addTickEvent (f : Fn) (s : State) : State :=
  setTickListeners (tickListeners s ++ [f]) s.

Definition pause (s : State) : State := setPause true 0 s.

Definition resume (s : State) : State := setPause false RESUME_INTERVAL s.

Definition exec (c : Cmd) (s : State) : State :=
  match c with
  | AddKeyEvent k f r => addKeyEvent k f r s
  | AddMouseEvent f r => addMouseEvent f r s
  | AddTouchEvent f r => addTouchEvent f r s
  | AddTickEvent f => addTickEvent f s
  | Pause => pause s
  | Resume => resume s
  end.

Definition execAll (cs : list Cmd) (s : State) : State :=
  fold_left (fun acc c => exec c acc) cs s.

(** Calling [f]: its effect on its own state, then on the loop. *)
Definition call (f : Fn) (args : Args) (s : State) : State :=
  let '(a, cmds) := cb f args (app s) in
  execAll cmds (setApp a s).

(** One iteration of [tickListeners.forEach]. *)
Definition fireTick (s : State) (f : Fn) : State :=
  call f None (record (FiredTick f) s).

(** One iteration of [newHandlers.forEach]. *)
Definition fireHandler (s : State) (h : EventHandler) : State :=
  let s1 :=
    call (fn h) (Some (code h, curPos s)) (record (FiredHandler h (curPos s)) s) in
  if negb (repeat h) then remove (id h) s1 else s1.

(** The part of [run] after the pause test. *)
Definition dispatch (s : State) : State :=
  let s1 := fold_left fireTick (tickListeners s) s in
  let newHandlers := handlers s1 in
  fold_left fireHandler newHandlers s1.

Definition run (s : State) : State :=
  if paused s || (0 <? resumeTimeRemaining s) then
    if 0 <? resumeTimeRemaining s then
      setPause (paused s) (resumeTimeRemaining s - EVENT_INTERVAL) s
    else s
  else dispatch s.

(** The loop over [keyListeners] in [onKeyDown]. *)
Fixpoint armKeyListeners (key : Z) (ls : list EventHandler) (s : State)
  : list EventHandler * State :=
  match ls with
  | [] => ([], s)
  | l :: rest =>
      if isKey (type l) && codeIs (code l) key && unarmed (id l) then
        let '(curId, s1) := add (type l) (code l) (fn l) (repeat l) s in
        let '(rest', s2) := armKeyListeners key rest s1 in
        (setId (Some curId) l :: rest', s2)
      else
        let '(rest', s2) := armKeyListeners key rest s in
        (l :: rest', s2)
  end.

Definition onKeyDown (key : Z) (s : State) : State :=
  let '(ls, s') := armKeyListeners key (keyListeners s) s in
  setKeyListeners ls s'.

(** The first handler of type [KEY] whose code is [key]. *)
Fixpoint findKeyHandler (key : Z) (hs : list EventHandler)
  : option EventHandler :=
  match hs with
  | [] => None
  | h :: rest =>
      if isKey (type h) && codeIs (code h) key then Some h
      else findKeyHandler key rest
  end.

Definition onKeyUp (key : Z) (s : State) : State :=
  match findKeyHandler key (handlers s) with
  | Some h => remove (id h) s
  | None => s
  end.

(** The loop over [mouseListeners] in [onTouchStart]. *)
Fixpoint armMouseListeners (pos : Point) (ls : list EventHandler) (s : State)
  : list EventHandler * State :=
  match ls with
  | [] => ([], s)
  | l :: rest =>
      if isPointer (type l) && unarmed (id l) then
        let '(curId, s1) := add (type l) (CodePos pos) (fn l) (repeat l) s in
        let '(rest', s2) := armMouseListeners pos rest s1 in
        (setId (Some curId) l :: rest', s2)
      else
        let '(rest', s2) := armMouseListeners pos rest s in
        (l :: rest', s2)
  end.

Definition onTouchStart (ev : PointerEvent) (boundaries : Rect) (s : State)
  : State :=
  match getCoordinates ev with
  | None => s
  | Some clientPos =>
      if isWithin (Some clientPos) boundaries then
        let s0 := setCurPos (Some clientPos) s in
        let '(ls, s') := armMouseListeners clientPos (mouseListeners s0) s0 in
        setMouseListeners ls s'
      else s
  end.

Definition onTouchMove (ev : PointerEvent) (boundaries : Rect) (s : State)
  : State :=
  match curPos s with
  | None => s
  | Some _ =>
      let clientPos := getCoordinates ev in
      if isWithin clientPos boundaries then setCurPos clientPos s else s
  end.

Definition onTouchEnd (s : State) : State :=
  let s0 := match curPos s with Some _ => setCurPos None s | None => s end in
  let newHandlers := handlers s0 in
  fold_left
    (fun acc h => if isPointer (type h) then remove (id h) acc else acc)
    newHandlers s0.

(** What can happen to the loop: the interval timer fires, the document
    delivers an input event, or the application calls an exposed function
    outside a callback. *)
Inductive HostEvent : Type :=
| KeyDown (key : Z)
| KeyUp (key : Z)
| TouchStart (ev : PointerEvent) (boundaries : Rect)
| TouchMove (ev : PointerEvent) (boundaries : Rect)
| TouchEnd.

Definition deliver (e : HostEvent) (s : State) : State :=
  match e with
  | KeyDown k => onKeyDown k s
  | KeyUp k => onKeyUp k s
  | TouchStart ev b => onTouchStart ev b s
  | TouchMove ev b => onTouchMove ev b s
  | TouchEnd => onTouchEnd s
  end.

Inductive Step : Type :=
| Tick
| Host (e : HostEvent)
| Api (c : Cmd).

Definition step (s : State) (st : Step) : State :=
  match st with
  | Tick => run s
  | Host e => deliver e s
  | Api c => exec c s
  end.

Definition steps (sts : list Step) (s : State) : State :=
  fold_left step sts s.

(** *** Specification-side notions *)

(** RUNNING: neither paused nor resuming. *)
Definition running (s : State) : Prop :=
  paused s = false /\ resumeTimeRemaining s <= 0.

(** Identifiers are those [add] has given out, each at most once. *)
Definition wf (s : State) : Prop :=
  NoDup (map id (handlers s)) /\
  Forall (fun h => exists n, id h = Some n /\ (1 <= n <= nextId s)%nat)
    (handlers s).

(** The registration with identifier [n] is in the handler set. *)
Definition registered (n : nat) (s : State) : Prop :=
  exists h, In h (handlers s) /\ id h = Some n.

(** How often the handler with identifier [n] has been invoked. *)
Fixpoint firedCount (n : nat) (l : list Fired) : nat :=
  match l with
  | [] => 0%nat
  | FiredHandler h _ :: rest =>
      if idEq (id h) (Some n) then S (firedCount n rest) else firedCount n rest
  | FiredTick _ :: rest => firedCount n rest
  end.

(** The callback of an invocation and the arguments it was called with. *)
Definition firedFn (e : Fired) : Fn :=
  match e with
  | FiredTick f => f
  | FiredHandler h _ => fn h
  end.

Definition firedArgs (e : Fired) : Args :=
  match e with
  | FiredTick _ => None
  | FiredHandler h pos => Some (code h, pos)
  end.

(** The state the callbacks close over after the invocations [l], made in
    order from [a]: each callback is applied to the state the one before it
    left. *)
Definition replay (l : list Fired) (a : App) : App :=
  fold_left (fun acc e => fst (cb (firedFn e) (firedArgs e) acc)) l a.

(** The number of timer ticks in a schedule. *)
Fixpoint ticksIn (sts : list Step) : nat :=
  match sts with
  | [] => 0%nat
  | Tick :: rest => S (ticksIn rest)
  | _ :: rest => ticksIn rest
  end.

(** A schedule in which the application does not call [pause] or [resume]. *)
Definition noPauseResume (sts : list Step) : Prop :=
  Forall (fun st => st <> Api Pause /\ st <> Api Resume) sts.

(** No invocation since the log read [L]; not paused; [r] left to wait. *)
Definition waiting (L : list Fired) (r : Z) (s : State) : Prop :=
  log s = L /\ paused s = false /\ resumeTimeRemaining s = r.

(** The identifier [n] has been given out, no handler carries it, and its
    handler has fired [c] times. *)
Definition retired (n c : nat) (s : State) : Prop :=
  (n <= nextId s)%nat /\ ~ registered n s /\ firedCount n (log s) = c.

(** A property of the state that the steps of the input handlers keep. *)
Record Stable (P : State -> Prop) : Prop := {
  st_add : forall t c f r s, P s -> P (snd (add t c f r s));
  st_remove : forall i s, P s -> P (remove i s);
  st_key : forall ls s, P s -> P (setKeyListeners ls s);
  st_mouse : forall ls s, P s -> P (setMouseListeners ls s);
  st_pos : forall p s, P s -> P (setCurPos p s)
}.

End WithCallbacks.

Arguments mkHandler {Fn}.
Arguments id {Fn}.
Arguments type {Fn}.
Arguments code {Fn}.
Arguments fn {Fn}.
Arguments repeat {Fn}.
Arguments AddKeyEvent {Fn}.
Arguments AddMouseEvent {Fn}.
Arguments AddTouchEvent {Fn}.
Arguments AddTickEvent {Fn}.
Arguments Pause {Fn}.
Arguments Resume {Fn}.
Arguments FiredTick {Fn}.
Arguments FiredHandler {Fn}.
Arguments handlers {Fn App}.
Arguments keyListeners {Fn App}.
Arguments mouseListeners {Fn App}.
Arguments tickListeners {Fn App}.
Arguments nextId {Fn App}.
Arguments curPos {Fn App}.
Arguments paused {Fn App}.
Arguments resumeTimeRemaining {Fn App}.
Arguments app {Fn App}.
Arguments log {Fn App}.
Arguments Tick {Fn}.
Arguments Host {Fn}.
Arguments Api {Fn}.
Arguments setId {Fn}.
Arguments mkState {Fn App}.
Arguments setHandlers {Fn App}.
Arguments setKeyListeners {Fn App}.
Arguments setMouseListeners {Fn App}.
Arguments setTickListeners {Fn App}.
Arguments setNextId {Fn App}.
Arguments setCurPos {Fn App}.
Arguments setPause {Fn App}.
Arguments setApp {Fn App}.
Arguments record {Fn App}.
Arguments spliceFirst {Fn}.
Arguments clearFirst {Fn}.
Arguments findKeyHandler {Fn}.
Arguments firedCount {Fn}.
Arguments firedFn {Fn}.
Arguments firedArgs {Fn}.
Arguments replay {Fn App}.
Arguments ticksIn {Fn}.
Arguments noPauseResume {Fn}.
Arguments init {Fn App}.
Arguments add {Fn App}.
Arguments remove {Fn App}.
Arguments addKeyEvent {Fn App}.
Arguments addMouseEvent {Fn App}.
Arguments addTouchEvent {Fn App}.
Arguments addTickEvent {Fn App}.
Arguments pause {Fn App}.
Arguments resume {Fn App}.
Arguments exec {Fn App}.
Arguments execAll {Fn App}.
Arguments call {Fn App}.
Arguments fireTick {Fn App}.
Arguments fireHandler {Fn App}.
Arguments dispatch {Fn App}.
Arguments run {Fn App}.
Arguments armKeyListeners {Fn App}.
Arguments armMouseListeners {Fn App}.
Arguments onKeyDown {Fn App}.
Arguments onKeyUp {Fn App}.
Arguments onTouchStart {Fn App}.
Arguments onTouchMove {Fn App}.
Arguments onTouchEnd {Fn App}.
Arguments deliver {Fn App}.
Arguments step {Fn App}.
Arguments steps {Fn App}.
Arguments running {Fn App}.
Arguments wf {Fn App}.
Arguments registered {Fn App}.
Arguments waiting {Fn App}.
Arguments retired {Fn App}.
Arguments Stable {Fn App}.
Arguments st_add {Fn App P}.
Arguments st_remove {Fn App P}.
Arguments st_key {Fn App P}.
Arguments st_mouse {Fn App P}.
Arguments st_pos {Fn App P}.

End EventLoop.

(* ================================================================== *)
(** ** A Math object and inputs for the examples *)
(* ================================================================== *)

(** Rational approximations of the functions of [Math], exact at the
    quarter turns. *)
Module Approx.

Definition PI : Q := 355 # 113.

(** Bhaskara's approximation of the sine on a half turn; exact at its ends
    and in the middle. *)
Definition sinHalfTurn (r : Q) : Q :=
  16 * r * (PI - r) / (5 * PI * PI - 4 * r * (PI - r)).

Definition sin (r : Q) : Q :=
  let t := Qrem r (2 * PI) in
  let t := if Qltb t 0 then t + 2 * PI else t in
  if Qle_bool t PI then sinHalfTurn t else - sinHalfTurn (t - PI).

Definition cos (r : Q) : Q := sin (r + PI / 2).

(** The arc tangent on [-1, 1]. *)
Definition atanUnit (z : Q) : Q :=
  PI / 4 * z + (273 # 1000) * z * (1 - Qabs z).

Definition atan2 (b a : Q) : Q :=
  if Qeq_bool a 0 then
    if Qltb 0 b then PI / 2 else if Qltb b 0 then - (PI / 2) else 0
  else if Qle_bool (Qabs b) (Qabs a) then
    if Qltb 0 a then atanUnit (b / a)
    else if Qle_bool 0 b then atanUnit (b / a) + PI
    else atanUnit (b / a) - PI
  else
    if Qltb 0 b then PI / 2 - atanUnit (a / b)
    else - (PI / 2) - atanUnit (a / b).

(** Four rounds of Heron's iteration; [NaN] below zero. *)
Definition sqrt (a : Q) : option Q :=
  if Qltb a 0 then None
  else if Qeq_bool a 0 then Some 0
  else
    let next r := Qred ((r + a / r) / 2) in
    Some (next (next (next (next ((a + 1) / 2))))).

Definition math : JSMath := mkMath PI cos sin atan2 sqrt.

End Approx.

Module Examples.

(** A 400 by 400 canvas at the origin of the viewport; the ship element is
    56 wide and 40 high, as [render] styles it. *)
Definition canvas400 : Canvas := mkCanvas 400 400 0 0.

(** The ship as constructed by [Captcha], at the centre of the canvas. *)
Definition start : Ship.State := Ship.init canvas400 200 200.

(** The pointer half a pixel ahead of the tip of the ship in [start]. *)
Definition aheadOfTip : Point := mkPoint 192 (375 # 2).

(** The ship after 23 right turns, heading 136. *)
Definition turned : Ship.State :=
  Ship.applyAll Approx.math canvas400 200 200
    (List.repeat Ship.OpRotateRight 23) start.

(** The pointer five pixels right of and five above the tip of [turned]. *)
Definition farAhead : Point :=
  let f := Ship.getFront Approx.math 56 40 turned in
  mkPoint (Qred (x f + 5)) (Qred (y f - 5)).

(** Callbacks are numbered; the state they close over counts the calls.
    Callback 9 pauses the loop, as [onSuccess] does. *)
Definition countingCb (f : nat) (_ : EventLoop.Args) (a : nat)
  : nat * list (EventLoop.Cmd nat) :=
  (S a, if Nat.eqb f 9 then [EventLoop.Pause] else []).

(** A loop with one tick listener and a one-shot listener for the up key. *)
Definition bound : EventLoop.State nat nat :=
  EventLoop.addKeyEvent 38 1%nat false
    (EventLoop.addTickEvent 7%nat (EventLoop.init 0%nat)).

(** The same loop with the up key held down. *)
Definition armed : EventLoop.State nat nat :=
  EventLoop.onKeyDown 38 bound.

(** The handler that the key press registered. *)
Definition upHandler : EventLoop.EventHandler nat :=
  EventLoop.mkHandler (Some 1%nat) EventLoop.KEY (EventLoop.CodeKey 38) 1%nat false.


(** Twenty timer ticks with a key press in between. *)
Definition twentyTicks : list (EventLoop.Step nat) :=
  List.repeat EventLoop.Tick 7
  ++ [EventLoop.Host (EventLoop.KeyDown 38)]
  ++ List.repeat EventLoop.Tick 13.

End Examples.

(* ================================================================== *)
(** ** isWithin and rectIntersects *)
(* ================================================================== *)

Module Geometry.
Import EventLoop.

(** [rectIntersects(rectA, rectB)] *)
Definition rectIntersects (rectA rectB : Rect) : bool :=
  negb (Qltb (rect_right rectA) (rect_left rectB)
        || Qltb (rect_right rectB) (rect_left rectA)
        || Qltb (rect_bottom rectA) (rect_top rectB)
        || Qltb (rect_bottom rectB) (rect_top rectA)).

(** A rectangle as [getBoundingClientRect] returns it: the left edge is not
    right of the right edge, the top edge not below the bottom edge. *)
Definition proper (r : Rect) : Prop :=
  rect_left r <= rect_right r /\ rect_top r <= rect_bottom r.

End Geometry.

(* ================================================================== *)
(** ** Number *)
(* ================================================================== *)

Module Number.

(** The variables of the closure once the constructor has run ([hide],
    [render], [reset]); [hidden] is [el.style.visibility == "hidden"]. *)
Record State : Type := mkState {
  value : Z;
  originX : Q;
  originY : Q;
  xPos : Q;
  yPos : Q;
  angle : Q;
  hidden : bool
}.

Section WithEnvironment.

Variable M : JSMath.
Variable canvas : Canvas.
(** The layout box of the number element [el]. *)
Variable el_offsetWidth el_offsetHeight : Q.

Definition BOUND_OFFSET : Q := 10.

Definition size : Q :=
  Qmin (offsetWidth canvas) (offsetHeight canvas) * 0.10.

(** The origin after the four adjustments of [render]. *)
Definition render (x0 y0 : Q) : Q * Q :=
  let originX := x0 in
  let originY := y0 in
  let originX := if Qeq_bool originX 0 then originX + BOUND_OFFSET else originX in
  let originX :=
    if Qle_bool (offsetWidth canvas) (originX + size)
    then offsetWidth canvas - size - BOUND_OFFSET else originX in
  let originY := if Qeq_bool originY 0 then originY + BOUND_OFFSET else originY in
  let originY :=
    if Qle_bool (offsetHeight canvas) (originY + size)
    then offsetHeight canvas - size - BOUND_OFFSET else originY in
  (originX, originY).

(** [reset]: back to the origin, heading [Math.random() * 360]; [r] is the
    draw. *)
Definition reset (r : Q) (s : State) : State :=
  mkState (value s) (originX s) (originY s) (originX s) (originY s)
    (r * 360) (hidden s).

(** The constructor: [hide(); render(); reset()]. *)
Definition create (x0 y0 : Q) (v : Z) (r : Q) : State :=
  let '(oX, oY) := render x0 y0 in
  reset r (mkState v oX oY oX oY 0 true).

Definition getValue (s : State) : Z := value s.

Definition set (newValue : Z) (s : State) : State :=
  mkState newValue (originX s) (originY s) (xPos s) (yPos s) (angle s)
    (hidden s).

Definition show (s : State) : State :=
  mkState (value s) (originX s) (originY s) (xPos s) (yPos s) (angle s) false.

Definition hide (s : State) : State :=
  mkState (value s) (originX s) (originY s) (xPos s) (yPos s) (angle s) true.

Definition visible (s : State) : bool := negb (hidden s).

(** One iteration of [points.forEach] in [move]. *)
Definition collideAt (collide : bool) (p : Point) : bool :=
  let collide := collide || Qle_bool (x p) 0 in
  let collide := collide || Qle_bool (offsetWidth canvas) (x p) in
  let collide := collide || Qle_bool (y p) 0 in
  collide || Qle_bool (offsetHeight canvas) (y p).

(** [move]; [r] is the draw used when the number bounces. *)
Definition move (r : Q) (s : State) : State :=
  if hidden s then s
  else
    let width := el_offsetWidth in
    let height := el_offsetHeight in
    let rad := angle s * Math_PI M / 180 in
    let xDelta := Math_cos M rad in
    let yDelta := Math_sin M rad in
    let points :=
      [ mkPoint (xPos s + xDelta) (yPos s + yDelta);
        mkPoint (xPos s + xDelta + width) (yPos s + yDelta);
        mkPoint (xPos s + xDelta + width) (yPos s + yDelta + height);
        mkPoint (xPos s + xDelta) (yPos s + yDelta + height) ] in
    let collide := fold_left collideAt points false in
    if collide then
      mkState (value s) (originX s) (originY s) (xPos s) (yPos s)
        (Qrem (angle s + r * 90) 360) (hidden s)
    else
      mkState (value s) (originX s) (originY s) (xPos s + xDelta)
        (yPos s + yDelta) (angle s) (hidden s).

(** The operations a number exposes that change its state; [OpMove] and
    [OpReset] carry the draw they may use. *)
Inductive Op : Type :=
| OpSet (newValue : Z)
| OpMove (r : Q)
| OpShow
| OpHide
| OpReset (r : Q).

Definition apply (o : Op) (s : State) : State :=
  match o with
  | OpSet v => set v s
  | OpMove r => move r s
  | OpShow => show s
  | OpHide => hide s
  | OpReset r => reset r s
  end.

Definition applyAll (ops : list Op) (s : State) : State :=
  fold_left (fun acc o => apply o acc) ops s.

(** *** Specification-side notions *)

(** Every draw of a sequence of operations lies in the unit interval. *)
Definition unitDraws (ops : list Op) : Prop :=
  Forall (fun o =>
    match o with
    | OpMove r | OpReset r => 0 <= r /\ r < 1
    | _ => True
    end) ops.

(** The box of the number lies strictly inside the canvas. *)
Definition boxInside (s : State) : Prop :=
  0 < xPos s /\ xPos s + el_offsetWidth < offsetWidth canvas /\
  0 < yPos s /\ yPos s + el_offsetHeight < offsetHeight canvas.

End WithEnvironment.

End Number.

(* ================================================================== *)
(** ** CaptchaEquation *)
(* ================================================================== *)

Module CaptchaEquation.

(** [a + b] on numbers that may be [NaN] ([None]). *)
Definition plus (a b : option Z) : option Z :=
  match a, b with
  | Some m, Some n => Some (m + n)%Z
  | _, _ => None
  end.

(** [a == b] on numbers that may be [NaN]. *)
Definition eqNumber (a b : option Z) : bool :=
  match a, b with
  | Some m, Some n => (m =? n)%Z
  | _, _ => false
  end.

(** [!input.value] *)
Definition empty (v : String.string) : bool := String.eqb v String.EmptyString.

(** The closure state: the value of each input, in document order. *)
Definition State : Type := list String.string.

Section WithStrings.

(** [value.toString()] and [parseInt(s, 10)] ([None] for [NaN]). *)
Variable toString : Z -> String.string.
Variable parseInt : String.string -> option Z.

Definition reset (inputs : State) : State :=
  map (fun _ => String.EmptyString) inputs.

(** The first empty input takes the value; the loop breaks there. *)
Fixpoint addInput (v : Z) (inputs : State) : State :=
  match inputs with
  | [] => []
  | input :: rest =>
      if empty input then toString v :: rest
      else input :: addInput v rest
  end.

(** [solved] and [failed] read [inputs[0]], [inputs[1]] and [inputs[2]];
    [None] when there is no third input ([sum] is [undefined] and reading
    its value throws). *)
Definition solved (inputs : State) : option bool :=
  match nth_error inputs 0, nth_error inputs 1, nth_error inputs 2 with
  | Some loperand, Some roperand, Some sum =>
      if empty sum then Some false
      else Some (eqNumber (plus (parseInt loperand) (parseInt roperand))
                   (parseInt sum))
  | _, _, _ => None
  end.

Definition failed (inputs : State) : option bool :=
  match nth_error inputs 0, nth_error inputs 1, nth_error inputs 2 with
  | Some loperand, Some roperand, Some sum =>
      if empty sum then Some false
      else Some (negb (eqNumber (plus (parseInt loperand) (parseInt roperand))
                         (parseInt sum)))
  | _, _, _ => None
  end.

(** Entering values one after the other into a reset equation. *)
Definition enter (values : list Z) (inputs : State) : State :=
  fold_left (fun st v => addInput v st) values (reset inputs).

(** *** Specification-side notions *)

(** What the code relies on: a printed integer is not the empty string and
    parses back to itself. *)
Definition printsAndParses : Prop :=
  forall v : Z, toString v <> String.EmptyString /\ parseInt (toString v) = Some v.

End WithStrings.

(** Decimal printing and parsing of integers. *)
Definition decimalToString (v : Z) : String.string :=
  DecimalString.NilZero.string_of_int (Z.to_int v).

Definition decimalParseInt (s : String.string) : option Z :=
  option_map Z.of_int (DecimalString.NilZero.int_of_string s).

End CaptchaEquation.

(* ================================================================== *)
(** ** Captcha: refreshNumbers *)
(* ================================================================== *)

Module Captcha.

Section WithCanvas.

Variable canvas : Canvas.

(** The coordinates one iteration of the loop in [refreshNumbers] derives
    from [step]. *)
Definition spawnPoint (perimeter step : Q) : Point :=
  let canvasWidth := offsetWidth canvas in
  let canvasHeight := offsetHeight canvas in
  if Qltb (Qrem step perimeter) canvasWidth then
    mkPoint (Qrem step perimeter) 0
  else if Qltb step (canvasWidth + canvasHeight) then
    mkPoint canvasWidth (step - canvasWidth)
  else if Qltb step ((canvasWidth * 2) + canvasHeight) then
    mkPoint (((canvasWidth * 2) + canvasHeight) - step) canvasHeight
  else
    mkPoint 0 (perimeter - step).

(** [for (let i = 0; i < values.length; i++)]: [values] is what is left of
    the array from index [i] on; [draws i] is the draw the [i]-th [Number]
    makes in its constructor. *)
Fixpoint placeNumbers (values : list Z) (perimeter stepSize step : Q)
    (draws : nat -> Q) (i : nat) : list Number.State :=
  match values with
  | [] => []
  | v :: rest =>
      let p := spawnPoint perimeter step in
      Number.create canvas (x p) (y p) v (draws i)
        :: placeNumbers rest perimeter stepSize (step + stepSize) draws (S i)
  end.

(** [refreshNumbers]: [rng] feeds the generator, [r0] is the draw for the
    first step and [draws] are the draws of the numbers' constructors.
    [None] when the generator runs out of fuel. *)
Definition refreshNumbers (fuel : nat) (rng : Generator.Rng) (pos : nat)
    (numNumbers : nat) (MAX_SUM : Z) (r0 : Q) (draws : nat -> Q)
  : option (list Number.State) :=
  match Generator.generateSpecialArray fuel rng pos numNumbers MAX_SUM with
  | None => None
  | Some values =>
      let canvasWidth := offsetWidth canvas in
      let canvasHeight := offsetHeight canvas in
      let perimeter := (canvasWidth * 2) + (canvasHeight * 2) in
      let stepSize := perimeter / inject_Z (Z.of_nat (length values)) in
      let step := r0 * canvasWidth in
      Some (placeNumbers values perimeter stepSize step draws 0)
  end.

(** *** Specification-side notions *)

(** A point on the border of the canvas. *)
Definition onBorder (p : Point) : Prop :=
  (y p == 0 /\ 0 <= x p /\ x p <= offsetWidth canvas) \/
  (x p == offsetWidth canvas /\ 0 <= y p /\ y p <= offsetHeight canvas) \/
  (y p == offsetHeight canvas /\ 0 <= x p /\ x p <= offsetWidth canvas) \/
  (x p == 0 /\ 0 <= y p /\ y p <= offsetHeight canvas).

(** A number as it should be after [refreshNumbers]: hidden, at its origin,
    strictly inside the canvas. *)
Definition placed (n : Number.State) : Prop :=
  Number.hidden n = true /\
  Number.xPos n = Number.originX n /\ Number.yPos n = Number.originY n /\
  0 < Number.xPos n /\ Number.xPos n + Number.size canvas < offsetWidth canvas /\
  0 < Number.yPos n /\ Number.yPos n + Number.size canvas < offsetHeight canvas.

End WithCanvas.

End Captcha.

(* ================================================================== *)
(** ** More notions for the facts *)
(* ================================================================== *)

Module ShipNotions.

(** The footprint the boundary test of [update] uses lies strictly inside
    the canvas. *)
Definition inside (canvas : Canvas) (s : Ship.State) : Prop :=
  0 < Ship.posX s /\
  Ship.posX s + Ship.height canvas < offsetWidth canvas /\
  0 < Ship.posY s /\
  Ship.posY s + Ship.height canvas < offsetHeight canvas.

End ShipNotions.

Module EventLoopNotions.
Import EventLoop.

(** Paused with nothing left to wait for, and no invocation since the log
    read [L]. *)
Definition halted {Fn App : Type} (L : list (Fired Fn)) (s : State Fn App)
  : Prop :=
  log s = L /\ paused s = true /\ resumeTimeRemaining s = 0%Z.

(** A schedule in which the application does not call [resume]. *)
Definition noResume {Fn : Type} (sts : list (Step Fn)) : Prop :=
  Forall (fun st => st <> Api Resume) sts.

(** The identifiers a list of listeners is armed with. *)
Definition armedIds {Fn : Type} (ls : list (EventHandler Fn)) : list nat :=
  flat_map (fun l => match id l with Some n => [n] | None => [] end) ls.

(** The bookkeeping between listeners and handlers: handlers carry
    different identifiers between 1 and [nx], no two listeners are armed
    with the same identifier, and a listener is armed with an identifier
    exactly when a handler carries it. *)
Definition linkedLists {Fn : Type} (ls hs : list (EventHandler Fn)) (nx : nat)
  : Prop :=
  NoDup (map id hs) /\
  (forall h, In h hs -> exists n, id h = Some n /\ (1 <= n <= nx)%nat) /\
  NoDup (armedIds ls) /\
  (forall n, In n (armedIds ls) <-> In (Some n) (map id hs)).

Definition linked {Fn App : Type} (s : State Fn App) : Prop :=
  linkedLists (keyListeners s ++ mouseListeners s) (handlers s) (nextId s).

End EventLoopNotions.

Module GeneratorNotions.
Import Generator.

(** The array drawn in round [k] (rounds count from 0): every round uses
    [arrayLength] draws. *)
Definition candidate (rng : Rng) (pos arrayLength : nat) (maxSum : Z) (k : nat)
  : list Z :=
  fst (fillArray rng (pos + k * arrayLength) arrayLength maxSum []).

(** The two tests a candidate has to pass. *)
Definition accepted (arr : list Z) (maxSum : Z) : bool :=
  sumCheck arr maxSum && Nat.eqb (countSolving arr) 1.

(** Three different positions of an array of length [n]. *)
Definition distinct3 (n p q r : nat) : Prop :=
  (p < n)%nat /\ (q < n)%nat /\ (r < n)%nat /\ p <> q /\ p <> r /\ q <> r.

End GeneratorNotions.

(* ================================================================== *)
(** ** More inputs for the examples *)
(* ================================================================== *)

Module MoreExamples.
Import Examples.

Definition rectA : EventLoop.Rect := EventLoop.mkRect 0 10 0 10.
Definition rectB : EventLoop.Rect := EventLoop.mkRect 5 15 5 15.

(** What is done to a number: shown, moved twice, reset, hidden. *)
Definition numberOps : list Number.Op :=
  [Number.OpShow; Number.OpMove (1 # 2); Number.OpMove (3 # 4);
   Number.OpReset (1 # 3); Number.OpHide].

(** A number that is shown and moved once. *)
Definition shownOps : list Number.Op :=
  [Number.OpShow; Number.OpMove (1 # 2)].

(** The numbers [refreshNumbers] creates from the draws of the README
    example. *)
Definition exampleNumbers : list Number.State :=
  match Captcha.refreshNumbers canvas400 1 Generator.exampleRng 0 6 100
          (1 # 2) (fun _ => 1 # 4) with
  | Some nums => nums
  | None => []
  end.

(** An equation with three empty inputs, and one with the README solution
    entered. *)
Definition threeInputs : CaptchaEquation.State :=
  [String.EmptyString; String.EmptyString; String.EmptyString].

Definition solvedInputs : CaptchaEquation.State :=
  CaptchaEquation.enter CaptchaEquation.decimalToString [1; 15; 16]%Z threeInputs.

(** A press inside a 400 by 400 canvas at the origin of the viewport. *)
Definition canvasRect : EventLoop.Rect := EventLoop.mkRect 0 400 0 400.

(** The steps that register a tick listener, a one-shot listener for the up
    key, a repeating listener for the left key and a drag listener, then
    press both keys and the mouse. *)
Definition pressAll : list (EventLoop.Step nat) :=
  [EventLoop.Api (EventLoop.AddTickEvent 7%nat);
   EventLoop.Api (EventLoop.AddKeyEvent 38 1%nat false);
   EventLoop.Api (EventLoop.AddKeyEvent 37 2%nat true);
   EventLoop.Api (EventLoop.AddMouseEvent 3%nat true);
   EventLoop.Host (EventLoop.KeyDown 38);
   EventLoop.Host (EventLoop.KeyDown 37);
   EventLoop.Host (EventLoop.TouchStart (EventLoop.MouseEvent 5 5) canvasRect)].

Definition pressed : EventLoop.State nat nat :=
  EventLoop.steps countingCb pressAll (EventLoop.init 0%nat).

(** The handler the left key registered. *)
Definition leftHandler : EventLoop.EventHandler nat :=
  EventLoop.mkHandler (Some 2%nat) EventLoop.KEY (EventLoop.CodeKey 37) 2%nat true.

(** Ticks, a key press and a second [pause], but no [resume]. *)
Definition quietSteps : list (EventLoop.Step nat) :=
  [EventLoop.Tick; EventLoop.Host (EventLoop.KeyDown 38);
   EventLoop.Api EventLoop.Pause; EventLoop.Tick; EventLoop.Tick].

(** The pointer on the tip of the ship in [start]. *)
Definition onTip : Point := mkPoint 192 188.

End MoreExamples.

(* ================================================================== *)
(** ** Facts about the generator *)
(* ================================================================== *)

Module GeneratorFacts.
Import Generator.

Local Open Scope Z_scope.

Lemma getRandomInt_range (min max : Z) (r : Q) :
  (0 <= r)%Q -> (r < 1)%Q -> min <= max ->
  min <= getRandomInt min max r <= max.
Proof.
  intros H0 H1 Hmm. unfold getRandomInt.
  set (k := max - min + 1).
  assert (Hk : (0 < inject_Z k)%Q).
  { change 0%Q with (inject_Z 0). rewrite <- Zlt_Qlt. unfold k. lia. }
  assert (Hlo : (0 <= r * inject_Z k)%Q) by nra.
  assert (Hhi : (r * inject_Z k < inject_Z k)%Q) by nra.
  pose proof (Qfloor_resp_le _ _ Hlo) as Hf0.
  change (Qfloor 0) with 0 in Hf0.
  pose proof (Qfloor_le (r * inject_Z k)) as Hf1.
  assert (Hlt : (inject_Z (Qfloor (r * inject_Z k)) < inject_Z k)%Q) by lra.
  rewrite <- Zlt_Qlt in Hlt. unfold k in *. lia.
Qed.

Lemma fillArray_spec (rng : Rng) (maxSum : Z) :
  forall n pos arr,
    fillArray rng pos n maxSum arr =
    (arr ++ map (fun i => getRandomInt 1 (maxSum - 1) (rng i)) (seq pos n),
     (pos + n)%nat).
Proof.
  induction n as [|n IH]; intros pos arr; simpl.
  - rewrite app_nil_r, Nat.add_0_r. reflexivity.
  - rewrite IH, <- app_assoc. simpl. f_equal. lia.
Qed.

(** The bound check agrees with a test of every position triple. *)
Lemma sumLoopK_forallb arr maxSum i j :
  forall n k,
    sumLoopK arr maxSum i j k n =
    forallb (belowAt arr maxSum) (map (fun k => (i, j, k)) (seq k n)).
Proof.
  induction n as [|n IH]; intros k; simpl; [reflexivity|].
  destruct (at_ arr i + at_ arr j + at_ arr k >=? maxSum); simpl; auto.
Qed.

Lemma sumLoopJ_false arr maxSum i : forall n j, sumLoopJ arr maxSum i j n false = false.
Proof. destruct n; reflexivity. Qed.

Lemma sumLoopI_false arr maxSum : forall n i, sumLoopI arr maxSum i n false = false.
Proof. destruct n; reflexivity. Qed.

Lemma sumLoopJ_forallb arr maxSum i :
  forall n j,
    sumLoopJ arr maxSum i j n true =
    forallb (belowAt arr maxSum)
      (flat_map (fun j => map (fun k => (i, j, k)) (seq (S j) (length arr - S j)))
         (seq j n)).
Proof.
  induction n as [|n IH]; intros j; simpl; [reflexivity|].
  rewrite forallb_app, <- sumLoopK_forallb.
  destruct (sumLoopK arr maxSum i j (S j) (length arr - S j)); simpl.
  - apply IH.
  - apply sumLoopJ_false.
Qed.

Lemma sumLoopI_forallb arr maxSum :
  forall n i,
    sumLoopI arr maxSum i n true =
    forallb (belowAt arr maxSum)
      (flat_map (fun i =>
         flat_map (fun j => map (fun k => (i, j, k)) (seq (S j) (length arr - S j)))
           (seq (S i) (length arr - S i)))
         (seq i n)).
Proof.
  induction n as [|n IH]; intros i; simpl; [reflexivity|].
  rewrite forallb_app, <- sumLoopJ_forallb.
  destruct (sumLoopJ arr maxSum i (S i) (length arr - S i) true); simpl.
  - apply IH.
  - apply sumLoopI_false.
Qed.

Lemma sumCheck_forallb arr maxSum :
  sumCheck arr maxSum = forallb (belowAt arr maxSum) (triples (length arr)).
Proof. apply sumLoopI_forallb. Qed.

(** The counting loops agree with filtering the position triples. *)
Lemma countLoopK_filter arr i j :
  forall n k count,
    countLoopK arr i j k n count =
    (count + length (filter (solvesAt arr) (map (fun k => (i, j, k)) (seq k n))))%nat.
Proof.
  induction n as [|n IH]; intros k count; simpl; [lia|].
  rewrite IH. destruct (solves (at_ arr i) (at_ arr j) (at_ arr k)); simpl; lia.
Qed.

Lemma countLoopJ_filter arr i :
  forall n j count,
    countLoopJ arr i j n count =
    (count + length (filter (solvesAt arr)
       (flat_map (fun j => map (fun k => (i, j, k)) (seq (S j) (length arr - S j)))
          (seq j n))))%nat.
Proof.
  induction n as [|n IH]; intros j count; simpl; [lia|].
  rewrite IH, countLoopK_filter, filter_app, length_app. lia.
Qed.

Lemma countLoopI_filter arr :
  forall n i count,
    countLoopI arr i n count =
    (count + length (filter (solvesAt arr)
       (flat_map (fun i =>
          flat_map (fun j => map (fun k => (i, j, k)) (seq (S j) (length arr - S j)))
            (seq (S i) (length arr - S i)))
          (seq i n))))%nat.
Proof.
  induction n as [|n IH]; intros i count; simpl; [lia|].
  rewrite IH, countLoopJ_filter, filter_app, length_app. lia.
Qed.

Lemma countSolving_filter arr :
  countSolving arr = length (filter (solvesAt arr) (triples (length arr))).
Proof. unfold countSolving. rewrite countLoopI_filter. reflexivity. Qed.

Lemma in_triples n i j k : In (i, j, k) (triples n) <-> is_triple n i j k.
Proof.
  unfold triples, is_triple. rewrite in_flat_map. split.
  - intros (i' & Hi & H). rewrite in_flat_map in H.
    destruct H as (j' & Hj & H). rewrite in_map_iff in H.
    destruct H as (k' & E & Hk). inversion E; subst.
    rewrite in_seq in Hi, Hj, Hk. lia.
  - intros [[Hij Hjk] Hkn]. exists i. split; [apply in_seq; lia|].
    rewrite in_flat_map. exists j. split; [apply in_seq; lia|].
    rewrite in_map_iff. exists k. split; [reflexivity|apply in_seq; lia].
Qed.

Lemma NoDup_flat_map {A B} (f : A -> list B) (l : list A) :
  NoDup l ->
  (forall a, In a l -> NoDup (f a)) ->
  (forall a a' b, In a l -> In a' l -> In b (f a) -> In b (f a') -> a = a') ->
  NoDup (flat_map f l).
Proof.
  induction l as [|a l IH]; intros Hnd Hf Hdis; simpl; [constructor|].
  inversion Hnd as [|? ? Hnotin Hnd']; subst.
  apply NoDup_app.
  - apply Hf. left. reflexivity.
  - apply IH; auto.
    + intros a' Ha'. apply Hf. right. exact Ha'.
    + intros a1 a2 b H1 H2. apply Hdis; right; assumption.
  - intros b Hb Hb'. rewrite in_flat_map in Hb'. destruct Hb' as (a' & Ha' & Hb').
    assert (a = a') by (eapply Hdis; eauto; [left; reflexivity | right; exact Ha']).
    subst. contradiction.
Qed.

Lemma NoDup_triples n : NoDup (triples n).
Proof.
  unfold triples. apply NoDup_flat_map.
  - apply seq_NoDup.
  - intros i _. apply NoDup_flat_map.
    + apply seq_NoDup.
    + intros j _. apply Injective_map_NoDup; [|apply seq_NoDup].
      intros k k' E. inversion E. reflexivity.
    + intros j j' t _ _ H1 H2. rewrite in_map_iff in H1, H2.
      destruct H1 as (k & E1 & _), H2 as (k' & E2 & _). subst t.
      inversion E2. reflexivity.
  - intros i i' t _ _ H1 H2. rewrite in_flat_map in H1, H2.
    destruct H1 as (j & _ & H1), H2 as (j' & _ & H2).
    rewrite in_map_iff in H1, H2.
    destruct H1 as (k & E1 & _), H2 as (k' & E2 & _). subst t.
    inversion E2. reflexivity.
Qed.

(** A duplicate-free list with exactly one element passing a test. *)
Lemma filter_length_one {A} (f : A -> bool) (l : list A) :
  NoDup l -> length (filter f l) = 1%nat ->
  exists a, In a l /\ f a = true /\ forall b, In b l -> f b = true -> b = a.
Proof.
  intros Hnd Hlen.
  destruct (filter f l) as [|a [|a' rest]] eqn:E; try discriminate.
  assert (Ha : In a (filter f l)) by (rewrite E; left; reflexivity).
  apply filter_In in Ha. destruct Ha as [Hin Hfa].
  exists a. repeat split; auto.
  intros b Hb Hfb.
  assert (Hb' : In b (filter f l)) by (apply filter_In; auto).
  rewrite E in Hb'. destruct Hb' as [<-|[]]. reflexivity.
Qed.

Lemma solves_iff arr i j k :
  solvesAt arr (i, j, k) = true <-> sum_relation arr i j k.
Proof.
  unfold solvesAt, solves, sum_relation.
  rewrite !orb_true_iff, !Z.eqb_eq. tauto.
Qed.

(** What an accepted candidate looks like. *)
Lemma generate_inv rng arrayLength maxSum :
  forall fuel pos arr,
    generateSpecialArray fuel rng pos arrayLength maxSum = Some arr ->
    exists p, arr = map (fun i => getRandomInt 1 (maxSum - 1) (rng i)) (seq p arrayLength)
              /\ sumCheck arr maxSum = true /\ countSolving arr = 1%nat.
Proof.
  induction fuel as [|fuel IH]; intros pos arr H; simpl in H; [discriminate|].
  rewrite fillArray_spec in H. simpl in H.
  destruct (sumCheck _ maxSum) eqn:Hs; simpl in H.
  - destruct (Nat.eqb _ 1) eqn:Hc.
    + inversion H; subst. exists pos. repeat split; auto.
      apply Nat.eqb_eq. exact Hc.
    + eapply IH; eauto.
  - eapply IH; eauto.
Qed.

(** More fuel does not change an answer already given. *)
Lemma generate_fuel_mono rng arrayLength maxSum :
  forall fuel pos arr,
    generateSpecialArray fuel rng pos arrayLength maxSum = Some arr ->
    generateSpecialArray (S fuel) rng pos arrayLength maxSum = Some arr.
Proof.
  induction fuel as [|fuel IH]; intros pos arr H; [discriminate|].
  change (generateSpecialArray (S (S fuel)) rng pos arrayLength maxSum)
    with (let '(a, pos') := fillArray rng pos arrayLength maxSum [] in
          if negb (sumCheck a maxSum) then
            generateSpecialArray (S fuel) rng pos' arrayLength maxSum
          else if Nat.eqb (countSolving a) 1 then Some a
          else generateSpecialArray (S fuel) rng pos' arrayLength maxSum).
  simpl in H.
  destruct (fillArray rng pos arrayLength maxSum []) as [a pos'].
  destruct (negb (sumCheck a maxSum)); [apply IH; exact H|].
  destruct (Nat.eqb (countSolving a) 1); [exact H|apply IH; exact H].
Qed.

Lemma exampleRng_unit : unit_interval exampleRng.
Proof.
  intros n. unfold exampleRng.
  do 6 (destruct n as [|n]; [split; [unfold Qle|unfold Qlt]; simpl; lia|]).
  destruct n; split; [unfold Qle| unfold Qlt| unfold Qle| unfold Qlt]; simpl; lia.
Qed.

(** C9: for [arrayLength >= 3] and [maxSum > 3 * arrayLength], an array the
    generator returns has exactly [arrayLength] elements, each an integer
    between [1] and [maxSum - 1]. *)
Theorem generate_length_range (fuel : nat) (rng : Rng) (pos arrayLength : nat)
    (maxSum : Z) (arr : list Z) :
  unit_interval rng ->
  (3 <= arrayLength)%nat ->
  3 * Z.of_nat arrayLength < maxSum ->
  generateSpecialArray fuel rng pos arrayLength maxSum = Some arr ->
  length arr = arrayLength /\ Forall (fun v => 1 <= v <= maxSum - 1) arr.
Proof.
  intros Hrng HN HM H.
  apply generate_inv in H. destruct H as (p & -> & _ & _).
  split.
  - rewrite length_map, length_seq. reflexivity.
  - apply Forall_forall. intros v Hv. rewrite in_map_iff in Hv.
    destruct Hv as (i & <- & _).
    destruct (Hrng i) as [H0 H1].
    apply getRandomInt_range; auto. lia.
Qed.

Lemma generate_length_range_example :
  generateSpecialArray 1 exampleRng 0 6 100 = Some [52; 27; 1; 15; 18; 16] /\
  length [52; 27; 1; 15; 18; 16] = 6%nat /\
  Forall (fun v => 1 <= v <= 100 - 1) [52; 27; 1; 15; 18; 16].
Proof.
  split; [reflexivity|].
  apply (generate_length_range 1 exampleRng 0 6 100).
  - exact exampleRng_unit.
  - lia.
  - lia.
  - reflexivity.
Defined.

(** C2: in an array the generator returns, the elements at any three
    distinct positions sum to less than [maxSum]. *)
Theorem generate_sum_below (fuel : nat) (rng : Rng) (pos arrayLength : nat)
    (maxSum : Z) (arr : list Z) :
  generateSpecialArray fuel rng pos arrayLength maxSum = Some arr ->
  forall i j k, is_triple (length arr) i j k ->
    at_ arr i + at_ arr j + at_ arr k < maxSum.
Proof.
  intros H i j k Ht.
  apply generate_inv in H. destruct H as (_ & _ & Hs & _).
  rewrite sumCheck_forallb, forallb_forall in Hs.
  apply in_triples in Ht. specialize (Hs _ Ht).
  unfold belowAt in Hs. apply negb_true_iff in Hs.
  rewrite Z.geb_leb in Hs. apply Z.leb_gt in Hs. exact Hs.
Qed.

Lemma generate_sum_below_example :
  at_ [52; 27; 1; 15; 18; 16] 0 + at_ [52; 27; 1; 15; 18; 16] 1
    + at_ [52; 27; 1; 15; 18; 16] 3 < 100.
Proof.
  apply (generate_sum_below 1 exampleRng 0 6 100 [52; 27; 1; 15; 18; 16]).
  - reflexivity.
  - unfold is_triple. simpl. lia.
Defined.

(** C1: in an array the generator returns, exactly one choice of three
    positions holds elements of which two sum to the third. *)
Theorem generate_unique_solution (fuel : nat) (rng : Rng) (pos arrayLength : nat)
    (maxSum : Z) (arr : list Z) :
  generateSpecialArray fuel rng pos arrayLength maxSum = Some arr ->
  exists i j k,
    is_triple (length arr) i j k /\ sum_relation arr i j k /\
    forall i' j' k',
      is_triple (length arr) i' j' k' -> sum_relation arr i' j' k' ->
      (i', j', k') = (i, j, k).
Proof.
  intros H. apply generate_inv in H. destruct H as (_ & _ & _ & Hc).
  rewrite countSolving_filter in Hc.
  destruct (filter_length_one _ _ (NoDup_triples (length arr)) Hc)
    as ([[i j] k] & Hin & Hsol & Huniq).
  exists i, j, k. split; [apply in_triples; exact Hin|].
  split; [apply solves_iff; exact Hsol|].
  intros i' j' k' Ht Hr. apply Huniq.
  - apply in_triples. exact Ht.
  - apply solves_iff. exact Hr.
Qed.

Lemma generate_unique_solution_example :
  exists i j k,
    is_triple 6 i j k /\ sum_relation [52; 27; 1; 15; 18; 16] i j k /\
    forall i' j' k',
      is_triple 6 i' j' k' -> sum_relation [52; 27; 1; 15; 18; 16] i' j' k' ->
      (i', j', k') = (i, j, k).
Proof.
  apply (generate_unique_solution 1 exampleRng 0 6 100 [52; 27; 1; 15; 18; 16]).
  reflexivity.
Defined.

(** The loop stops at the first candidate that passes both tests. *)
Lemma generate_accepts (fuel : nat) (rng : Rng) (pos arrayLength : nat)
    (maxSum : Z) :
  let arr := fst (fillArray rng pos arrayLength maxSum []) in
  sumCheck arr maxSum = true -> countSolving arr = 1%nat ->
  generateSpecialArray (S fuel) rng pos arrayLength maxSum = Some arr.
Proof.
  simpl. destruct (fillArray rng pos arrayLength maxSum []) as [a p]. simpl.
  intros -> ->. reflexivity.
Qed.

(** A rejected candidate costs one round: the second round of [retryRng]
    returns the README example. *)
Example generate_retry :
  generateSpecialArray 1 retryRng 0 6 100 = None /\
  generateSpecialArray 2 retryRng 0 6 100 = Some [52; 27; 1; 15; 18; 16].
Proof. split; reflexivity. Qed.

End GeneratorFacts.

(* ================================================================== *)
(** ** Facts about numbers *)
(* ================================================================== *)

Lemma Qltb_lt (a b : Q) : Qltb a b = true <-> a < b.
Proof.
  unfold Qltb. rewrite negb_true_iff. split.
  - intros H. apply Qnot_le_lt. intros Hle.
    apply Qle_bool_iff in Hle. congruence.
  - intros H. destruct (Qle_bool b a) eqn:E; [|reflexivity].
    apply Qle_bool_iff in E. exfalso. apply (Qlt_not_le _ _ H). exact E.
Qed.

Lemma Qltb_ge (a b : Q) : Qltb a b = false <-> b <= a.
Proof.
  unfold Qltb. rewrite negb_false_iff. apply Qle_bool_iff.
Qed.

Lemma Qtrunc_floor (q : Q) : 0 <= q -> Qtrunc q = Qfloor q.
Proof.
  destruct q as [n d]. unfold Qle, Qtrunc, Qfloor. simpl. intros H.
  apply Z.quot_div_nonneg; lia.
Qed.

(** The remainder of a non-negative number lies below the divisor. *)
Lemma Qrem_range (v n : Q) :
  0 <= v -> 0 < n -> 0 <= Qrem v n /\ Qrem v n < n.
Proof.
  intros Hv Hn. unfold Qrem.
  assert (Hq : 0 <= v / n).
  { apply Qle_shift_div_l; [exact Hn|]. lra. }
  rewrite (Qtrunc_floor _ Hq).
  pose proof (Qfloor_le (v / n)) as Hlo.
  pose proof (Qlt_floor (v / n)) as Hhi.
  rewrite inject_Z_plus in Hhi.
  set (f := inject_Z (Qfloor (v / n))) in *.
  change (inject_Z 1) with 1 in Hhi.
  assert (Hv' : v == (v / n) * n) by (field; lra).
  split.
  - assert (f * n <= (v / n) * n) by (apply Qmult_le_compat_r; lra). lra.
  - assert ((v / n) * n < (f + 1) * n) by (apply Qmult_lt_compat_r; lra). lra.
Qed.

Lemma Qfloor_one (q : Q) : 1 <= q -> q < 2 -> Qfloor q = 1%Z.
Proof.
  intros H1 H2.
  pose proof (Qfloor_le q) as Hlo. pose proof (Qlt_floor q) as Hhi.
  assert (Ha : inject_Z (Qfloor q) < inject_Z 2) by (change (inject_Z 2) with 2; lra).
  assert (Hb : inject_Z 1 < inject_Z (Qfloor q + 1)) by (change (inject_Z 1) with 1; lra).
  rewrite <- Zlt_Qlt in Ha, Hb.
  generalize dependent (Qfloor q). intros f _ _ Ha Hb. lia.
Qed.

(** Between one and two divisors the remainder takes one divisor off. *)
Lemma Qrem_one_turn (v n : Q) : n < v -> v < 2 * n -> 0 < n -> Qrem v n == v - n.
Proof.
  intros H1 H2 Hn. unfold Qrem.
  assert (Hq1 : 1 <= v / n) by (apply Qle_shift_div_l; lra).
  assert (Hq2 : v / n < 2) by (apply Qlt_shift_div_r; lra).
  rewrite Qtrunc_floor by lra. rewrite (Qfloor_one _ Hq1 Hq2).
  change (inject_Z 1) with 1. ring.
Qed.

(* ================================================================== *)
(** ** Facts about the ship *)
(* ================================================================== *)

Module ShipFacts.
Import Ship Examples.

Section WithEnvironment.

Variable M : JSMath.
Variable canvas : Canvas.
Variable x0 y0 : Q.

Lemma collide_crosses (s : State) (xDelta yDelta : Q) :
  collide canvas (mkPoint (posX s + xDelta) (posY s + yDelta)) = true <->
  crosses canvas s xDelta yDelta.
Proof.
  unfold collide, crosses. simpl.
  rewrite !orb_true_iff, !Qle_bool_iff. tauto.
Qed.

Lemma clampAngle_range (v : Q) :
  -360 <= v -> 0 <= clampAngle v /\ clampAngle v <= 360.
Proof.
  intros Hv. unfold clampAngle.
  destruct (Qltb 360 v) eqn:E1.
  - apply Qltb_lt in E1.
    destruct (Qrem_range v 360) as [H0 H1]; lra.
  - apply Qltb_ge in E1. destruct (Qltb v 0) eqn:E2.
    + apply Qltb_lt in E2. lra.
    + apply Qltb_ge in E2. lra.
Qed.

Lemma update_angle_range (xDelta yDelta degDelta : Q) (s : State) :
  0 <= angle s /\ angle s <= 360 -> -360 <= degDelta ->
  0 <= angle (update canvas xDelta yDelta degDelta s) /\
  angle (update canvas xDelta yDelta degDelta s) <= 360.
Proof.
  intros Hs Hd. unfold update.
  destruct (collide canvas _); [exact Hs|]. simpl.
  apply clampAngle_range. lra.
Qed.

Lemma apply_angle_range (o : Op) (s : State) :
  0 <= angle s /\ angle s <= 360 ->
  0 <= angle (apply M canvas x0 y0 o s) /\
  angle (apply M canvas x0 y0 o s) <= 360.
Proof.
  intros Hs. destruct o; simpl.
  - unfold reset. apply update_angle_range; simpl; lra.
  - unfold forward, move. apply update_angle_range; [exact Hs|lra].
  - exact Hs.
  - unfold rotateLeft, TURN_ANGLE. apply update_angle_range; [exact Hs|lra].
  - unfold rotateRight, TURN_ANGLE. apply update_angle_range; [exact Hs|lra].
Qed.

Lemma rotateRight_angle (s : State) :
  0 <= angle s /\ angle s <= 360 -> ~ crosses canvas s 0 0 ->
  angle (rotateRight canvas s) ==
    (if Qltb 360 (angle s + 2) then angle s + 2 - 360 else angle s + 2).
Proof.
  intros Hs Hc. unfold rotateRight, update, TURN_ANGLE.
  destruct (collide canvas _) eqn:E; [apply collide_crosses in E; contradiction|].
  cbn [angle]. unfold clampAngle.
  destruct (Qltb 360 (angle s + 2)) eqn:E1.
  - apply Qltb_lt in E1. apply Qrem_one_turn; lra.
  - apply Qltb_ge in E1. destruct (Qltb (angle s + 2) 0) eqn:E2; [|reflexivity].
    apply Qltb_lt in E2. lra.
Qed.

Lemma rotateLeft_angle (s : State) :
  0 <= angle s /\ angle s <= 360 -> ~ crosses canvas s 0 0 ->
  angle (rotateLeft canvas s) ==
    (if Qltb (angle s - 2) 0 then angle s - 2 + 360 else angle s - 2).
Proof.
  intros Hs Hc. unfold rotateLeft, update, TURN_ANGLE.
  destruct (collide canvas _) eqn:E; [apply collide_crosses in E; contradiction|].
  cbn [angle]. unfold clampAngle.
  destruct (Qltb 360 (angle s + - (2))) eqn:E1.
  - apply Qltb_lt in E1. lra.
  - destruct (Qltb (angle s + - (2)) 0) eqn:E2.
    + apply Qltb_lt in E2.
      destruct (Qltb (angle s - 2) 0) eqn:E3; [lra|].
      apply Qltb_ge in E3. lra.
    + apply Qltb_ge in E2.
      destruct (Qltb (angle s - 2) 0) eqn:E3; [|lra].
      apply Qltb_lt in E3. lra.
Qed.

(** C3: along every sequence of ship operations from the initial
    state the heading stays between 0 and 360, both included; an accepted
    turn adds or subtracts the turn angle, takes 360 off a sum above 360 and
    adds 360 to a sum below 0. *)
Theorem heading_within_full_turn (ops : list Op) :
  (0 <= angle (applyAll M canvas x0 y0 ops (init canvas x0 y0)) /\
   angle (applyAll M canvas x0 y0 ops (init canvas x0 y0)) <= 360) /\
  (forall s : State,
     0 <= angle s /\ angle s <= 360 -> ~ crosses canvas s 0 0 ->
     angle (rotateRight canvas s) ==
       (if Qltb 360 (angle s + 2) then angle s + 2 - 360 else angle s + 2) /\
     angle (rotateLeft canvas s) ==
       (if Qltb (angle s - 2) 0 then angle s - 2 + 360 else angle s - 2)).
Proof.
  split.
  - unfold applyAll.
    assert (H0 : 0 <= angle (init canvas x0 y0) /\ angle (init canvas x0 y0) <= 360)
      by (simpl; lra).
    revert H0. generalize (init canvas x0 y0) as s.
    induction ops as [|o ops IH]; intros s Hs; simpl; [exact Hs|].
    apply IH. apply apply_angle_range. exact Hs.
  - intros s Hs Hc. split; [apply rotateRight_angle|apply rotateLeft_angle]; assumption.
Qed.

Lemma update_cases (xDelta yDelta degDelta : Q) (s : State) :
  (crosses canvas s xDelta yDelta ->
   update canvas xDelta yDelta degDelta s = s) /\
  (~ crosses canvas s xDelta yDelta ->
   update canvas xDelta yDelta degDelta s =
   mkState (posX s + xDelta) (posY s + yDelta) (scale s)
     (clampAngle (angle s + degDelta))).
Proof.
  unfold update. split; intros H.
  - apply collide_crosses in H. rewrite H. reflexivity.
  - destruct (collide canvas _) eqn:E; [|reflexivity].
    apply collide_crosses in E. contradiction.
Qed.

(** C4: an update whose tentative position crosses an arena boundary
    leaves position, heading and scale as they were; any other update is
    committed: both deltas are added and the heading is clamped.  [move]
    goes through the same test with the displacement along the heading. *)
Theorem update_atomic (xDelta yDelta degDelta : Q) (s : State) :
  (crosses canvas s xDelta yDelta ->
   update canvas xDelta yDelta degDelta s = s) /\
  (~ crosses canvas s xDelta yDelta ->
   update canvas xDelta yDelta degDelta s =
   mkState (posX s + xDelta) (posY s + yDelta) (scale s)
     (clampAngle (angle s + degDelta))) /\
  (forall distance,
     let rad := angle s * Math_PI M / 180 in
     let dx := Math_cos M rad * distance in
     let dy := Math_sin M rad * distance in
     (crosses canvas s dx dy -> move M canvas distance s = s) /\
     (~ crosses canvas s dx dy ->
      move M canvas distance s =
      mkState (posX s + dx) (posY s + dy) (scale s) (clampAngle (angle s + 0)))).
Proof.
  split; [apply update_cases|]. split; [apply update_cases|].
  intros distance rad dx dy. apply update_cases.
Qed.

(** Where [reset] puts the ship, whatever the state before. *)
Lemma reset_position (s : State) :
  posX (reset canvas x0 y0 s) == x0 - width canvas / 2 /\
  posY (reset canvas x0 y0 s) == y0 - height canvas / 2.
Proof.
  unfold reset, update. destruct (collide canvas _); cbn [posX posY]; split; lra.
Qed.

(** [reset] and the constructor agree on the position only when the ship
    has no extent. *)
Lemma reset_init_position (s : State) :
  0 < Qmin (offsetWidth canvas) (offsetHeight canvas) ->
  ~ posX (reset canvas x0 y0 s) == posX (init canvas x0 y0).
Proof.
  intros Hpos H. destruct (reset_position s) as [Hx _].
  rewrite Hx in H. unfold init, width, height in H. cbn [posX] in H.
  set (m := Qmin (offsetWidth canvas) (offsetHeight canvas)) in *.
  unfold Qdiv in H. change (/ 2) with (1 # 2) in H. lra.
Qed.

End WithEnvironment.

Lemma update_atomic_example :
  update canvas400 (-200) 0 2 start = start /\
  update canvas400 1 1 2 start = mkState (posX start + 1) (posY start + 1) 1 92.
Proof.
  split.
  - apply (proj1 (update_atomic Approx.math canvas400 (-200) 0 2 start)).
    left. vm_compute. discriminate.
  - apply (proj1 (proj2 (update_atomic Approx.math canvas400 1 1 2 start))).
    intros [H|[H|[H|H]]]; vm_compute in H; apply H; reflexivity.
Defined.

(** C3: 135 right turns from the initial heading 90 end at heading 360,
    which is not below 360. *)
Lemma heading_reaches_360 :
  ~ angle (applyAll Approx.math canvas400 200 200
             (List.repeat OpRotateRight 135) start) < 360.
Proof. vm_compute. discriminate. Qed.

(** C8: on a 400 by 400 canvas the constructor puts the ship at (172, 180);
    [reset] puts it at (180, 172). *)
Theorem reset_not_initial_pose :
  start = mkState (34400 # 200) (36000 # 200) 1 90 /\
  reset canvas400 200 200 start = mkState (36000 # 200) (34400 # 200) 1 90 /\
  ~ posX (reset canvas400 200 200 start) == posX start /\
  ~ posY (reset canvas400 200 200 start) == posY start.
Proof.
  split; [reflexivity|]. split; [reflexivity|].
  split; vm_compute; discriminate.
Qed.

(** C7: the ship in its initial state, the pointer half a pixel straight
    ahead of its tip: the heading is close enough, the Euclidean distance is
    below the thrust distance, and [onDrag] calls [forward], which moves the
    ship. *)
Theorem onDrag_thrusts_within_thrust_distance :
  let front := getFront Approx.math 56 40 start in
  x front == 192 /\ y front == 188 /\
  euclid_below aheadOfTip front (getMinThrustDistance) /\
  fst (onDrag Approx.math canvas400 56 40 aheadOfTip start) = CallForward /\
  posY (snd (onDrag Approx.math canvas400 56 40 aheadOfTip start)) == 179.
Proof.
  cbv zeta. repeat split; vm_compute; reflexivity.
Qed.

(** [onDrag] stays idle only when [Math.sqrt(dx + dy)] is a number below the
    thrust distance. *)
Lemma onDrag_idle (M : JSMath) (canvas : Canvas) (elw elh : Q)
    (curPos : Point) (s : State) :
  fst (onDrag M canvas elw elh curPos s) = NoCall ->
  let front := getFront M elw elh s in
  let dx := (x curPos - offsetLeft canvas) - x front in
  let dy := (y curPos - offsetTop canvas) - y front in
  exists d, Math_sqrt M (dx + dy) = Some d /\ d < getMinThrustDistance.
Proof.
  unfold onDrag. cbv zeta. cbn [x y].
  destruct (Qltb (Qabs _) (180 - getMinTurnAngle)).
  - destruct (Qltb _ 0); discriminate.
  - destruct (Math_sqrt M _) as [d|] eqn:E; simpl.
    + destruct (Qltb d getMinThrustDistance) eqn:Ed; [|discriminate].
      intros _. exists d. split; [reflexivity|apply Qltb_lt; exact Ed].
    + discriminate.
Qed.

(** The other direction: the ship heading 136, the pointer five pixels to
    the right of and five above its tip, seven pixels away: the heading is
    close enough, [dx + dy] is zero, and [onDrag] stays idle. *)
Example onDrag_idle_far_from_target :
  ~ euclid_below farAhead (getFront Approx.math 56 40 turned) getMinThrustDistance /\
  onDrag Approx.math canvas400 56 40 farAhead turned = (NoCall, turned).
Proof.
  split.
  - vm_compute. discriminate.
  - vm_compute. reflexivity.
Qed.

End ShipFacts.

(* ================================================================== *)
(** ** Facts about the event loop *)
(* ================================================================== *)

Module EventLoopFacts.
Import EventLoop Examples.

Local Open Scope Z_scope.

Section WithCallbacks.

Variable Fn : Type.
Variable App : Type.
Variable cb : Fn -> Args -> App -> App * list (Cmd Fn).


(** *** What the exposed functions and a callback leave alone *)

Lemma exec_frame (c : Cmd Fn) (s : State Fn App) :
  handlers (exec c s) = handlers s /\ nextId (exec c s) = nextId s /\
  curPos (exec c s) = curPos s /\ log (exec c s) = log s.
Proof. destruct c; simpl; auto. Qed.

Lemma execAll_frame (cs : list (Cmd Fn)) :
  forall s : State Fn App,
    handlers (execAll cs s) = handlers s /\ nextId (execAll cs s) = nextId s /\
    curPos (execAll cs s) = curPos s /\ log (execAll cs s) = log s.
Proof.
  unfold execAll. induction cs as [|c cs IH]; intros s; simpl; auto.
  destruct (IH (exec c s)) as (H1 & H2 & H3 & H4).
  destruct (exec_frame c s) as (E1 & E2 & E3 & E4).
  repeat split; congruence.
Qed.

Lemma call_frame (f : Fn) (args : Args) (s : State Fn App) :
  handlers (call cb f args s) = handlers s /\
  nextId (call cb f args s) = nextId s /\
  curPos (call cb f args s) = curPos s /\
  log (call cb f args s) = log s.
Proof.
  unfold call. destruct (cb f args (app s)) as [a cmds].
  apply (execAll_frame cmds (setApp a s)).
Qed.




(** *** The tick pass *)

Lemma fireTick_frame (s : State Fn App) (f : Fn) :
  handlers (fireTick cb s f) = handlers s /\
  nextId (fireTick cb s f) = nextId s /\
  curPos (fireTick cb s f) = curPos s /\
  log (fireTick cb s f) = log s ++ [FiredTick f].
Proof.
  unfold fireTick.
  destruct (call_frame f None (record (FiredTick f) s)) as (H1 & H2 & H3 & H4).
  repeat split; assumption.
Qed.

Lemma tickPass_frame (fs : list Fn) :
  forall s : State Fn App,
    handlers (fold_left (fireTick cb) fs s) = handlers s /\
    nextId (fold_left (fireTick cb) fs s) = nextId s /\
    curPos (fold_left (fireTick cb) fs s) = curPos s /\
    log (fold_left (fireTick cb) fs s) = log s ++ map FiredTick fs.
Proof.
  induction fs as [|f fs IH]; intros s; simpl.
  - rewrite app_nil_r. auto.
  - destruct (IH (fireTick cb s f)) as (H1 & H2 & H3 & H4).
    destruct (fireTick_frame s f) as (E1 & E2 & E3 & E4).
    rewrite H1, H2, H3, H4, E1, E2, E3, E4, <- app_assoc. auto.
Qed.

(** *** The handler pass *)

Lemma fireHandler_frame (s : State Fn App) (h : EventHandler Fn) :
  handlers (fireHandler cb s h) =
    (if repeat h then handlers s else spliceFirst (id h) (handlers s)) /\
  nextId (fireHandler cb s h) = nextId s /\
  curPos (fireHandler cb s h) = curPos s /\
  log (fireHandler cb s h) = log s ++ [FiredHandler h (curPos s)].
Proof.
  unfold fireHandler.
  destruct (call_frame (fn h) (Some (code h, curPos s))
              (record (FiredHandler h (curPos s)) s)) as (H1 & H2 & H3 & H4).
  destruct (repeat h); simpl; rewrite ?H1, ?H2, ?H3, ?H4; auto.
Qed.

Lemma handlerPass_log (hs : list (EventHandler Fn)) :
  forall s : State Fn App,
    nextId (fold_left (fireHandler cb) hs s) = nextId s /\
    curPos (fold_left (fireHandler cb) hs s) = curPos s /\
    log (fold_left (fireHandler cb) hs s) =
      log s ++ map (fun h => FiredHandler h (curPos s)) hs.
Proof.
  induction hs as [|h hs IH]; intros s; simpl.
  - rewrite app_nil_r. auto.
  - destruct (IH (fireHandler cb s h)) as (H2 & H3 & H4).
    destruct (fireHandler_frame s h) as (E1 & E2 & E3 & E4).
    rewrite H2, H3, H4, E2, E3, E4, <- app_assoc. auto.
Qed.

(** The invocations of one dispatch: every tick listener in registration
    order, then every handler registered at that moment. *)
Lemma dispatch_log (s : State Fn App) :
  log (dispatch cb s) =
    log s ++ map FiredTick (tickListeners s)
          ++ map (fun h => FiredHandler h (curPos s)) (handlers s).
Proof.
  unfold dispatch.
  destruct (tickPass_frame (tickListeners s) s) as (H1 & H2 & H3 & H4).
  destruct (handlerPass_log (handlers (fold_left (fireTick cb) (tickListeners s) s))
              (fold_left (fireTick cb) (tickListeners s) s)) as (_ & _ & E).
  rewrite E, H4, H3, H1, <- app_assoc. reflexivity.
Qed.

Lemma run_running (s : State Fn App) : running s -> run cb s = dispatch cb s.
Proof.
  intros [Hp Hr]. unfold run. rewrite Hp.
  destruct (0 <? resumeTimeRemaining s) eqn:E; [|reflexivity].
  apply Z.ltb_lt in E. lia.
Qed.

Lemma run_resuming (s : State Fn App) :
  0 < resumeTimeRemaining s ->
  run cb s = setPause (paused s) (resumeTimeRemaining s - EVENT_INTERVAL) s.
Proof.
  intros H. unfold run. apply Z.ltb_lt in H. rewrite H, orb_true_r. reflexivity.
Qed.

(** *** Properties kept by the input handlers *)

Section StableFacts.

Variable P : State Fn App -> Prop.
Hypothesis HP : Stable P.

Lemma armKey_snd (key : Z) (l : EventHandler Fn) (ls : list (EventHandler Fn)) (s : State Fn App) :
  snd (armKeyListeners key (l :: ls) s) =
  if isKey (type l) && codeIs (code l) key && unarmed (id l) then
    snd (armKeyListeners key ls (snd (add (type l) (code l) (fn l) (repeat l) s)))
  else snd (armKeyListeners key ls s).
Proof.
  simpl. destruct (isKey (type l) && codeIs (code l) key && unarmed (id l)).
  - destruct (armKeyListeners key ls _) as [rest' s2]. reflexivity.
  - destruct (armKeyListeners key ls s) as [rest' s2]. reflexivity.
Qed.

Lemma armMouse_snd (pos : Point) (l : EventHandler Fn) (ls : list (EventHandler Fn)) (s : State Fn App) :
  snd (armMouseListeners pos (l :: ls) s) =
  if isPointer (type l) && unarmed (id l) then
    snd (armMouseListeners pos ls
           (snd (add (type l) (CodePos pos) (fn l) (repeat l) s)))
  else snd (armMouseListeners pos ls s).
Proof.
  simpl. destruct (isPointer (type l) && unarmed (id l)).
  - destruct (armMouseListeners pos ls _) as [rest' s2]. reflexivity.
  - destruct (armMouseListeners pos ls s) as [rest' s2]. reflexivity.
Qed.

Lemma armKey_stable (key : Z) (ls : list (EventHandler Fn)) :
  forall s, P s -> P (snd (armKeyListeners key ls s)).
Proof.
  induction ls as [|l ls IH]; intros s Hs; [exact Hs|].
  rewrite armKey_snd.
  destruct (isKey (type l) && codeIs (code l) key && unarmed (id l)).
  - apply IH. apply (st_add HP). exact Hs.
  - apply IH. exact Hs.
Qed.

Lemma armMouse_stable (pos : Point) (ls : list (EventHandler Fn)) :
  forall s, P s -> P (snd (armMouseListeners pos ls s)).
Proof.
  induction ls as [|l ls IH]; intros s Hs; [exact Hs|].
  rewrite armMouse_snd.
  destruct (isPointer (type l) && unarmed (id l)).
  - apply IH. apply (st_add HP). exact Hs.
  - apply IH. exact Hs.
Qed.

Lemma releasePass_stable (hs : list (EventHandler Fn)) :
  forall s,
    P s ->
    P (fold_left
         (fun acc h => if isPointer (type h) then remove (id h) acc else acc)
         hs s).
Proof.
  induction hs as [|h hs IH]; intros s Hs; simpl; [exact Hs|].
  apply IH. destruct (isPointer (type h)); [apply (st_remove HP)|]; exact Hs.
Qed.

Lemma deliver_stable (e : HostEvent) (s : State Fn App) : P s -> P (deliver e s).
Proof.
  intros Hs. destruct e as [key|key|ev b|ev b|]; simpl.
  - unfold onKeyDown.
    pose proof (armKey_stable key (keyListeners s) s Hs) as H.
    destruct (armKeyListeners key (keyListeners s) s) as [ls s'].
    apply (st_key HP). exact H.
  - unfold onKeyUp. destruct (findKeyHandler key (handlers s));
      [apply (st_remove HP)|]; exact Hs.
  - unfold onTouchStart. destruct (getCoordinates ev) as [p|]; [|exact Hs].
    destruct (isWithin (Some p) b); [|exact Hs].
    pose proof (armMouse_stable p (mouseListeners (setCurPos (Some p) s))
                  (setCurPos (Some p) s) (st_pos HP _ _ Hs)) as H.
    destruct (armMouseListeners p _ _) as [ls s'].
    apply (st_mouse HP). exact H.
  - unfold onTouchMove. destruct (curPos s); [|exact Hs].
    destruct (isWithin (getCoordinates ev) b); [apply (st_pos HP)|]; exact Hs.
  - unfold onTouchEnd. apply releasePass_stable.
    destruct (curPos s); [apply (st_pos HP)|]; exact Hs.
Qed.

End StableFacts.

(** *** The state of the callbacks *)

Lemma exec_app (c : Cmd Fn) (s : State Fn App) : app (exec c s) = app s.
Proof. destruct c; reflexivity. Qed.

Lemma execAll_app (cs : list (Cmd Fn)) :
  forall s : State Fn App, app (execAll cs s) = app s.
Proof.
  unfold execAll. induction cs as [|c cs IH]; intros s; simpl; [reflexivity|].
  rewrite IH. apply exec_app.
Qed.

(** A call leaves the callbacks' state as the callback returned it. *)
Lemma call_app (f : Fn) (args : Args) (s : State Fn App) :
  app (call cb f args s) = fst (cb f args (app s)).
Proof.
  unfold call. destruct (cb f args (app s)) as [a cmds].
  rewrite execAll_app. reflexivity.
Qed.

Lemma replay_app (l1 l2 : list (Fired Fn)) (a : App) :
  replay cb (l1 ++ l2) a = replay cb l2 (replay cb l1 a).
Proof. unfold replay. apply fold_left_app. Qed.

Lemma fireTick_app (s : State Fn App) (f : Fn) :
  app (fireTick cb s f) = replay cb [FiredTick f] (app s).
Proof. unfold fireTick. rewrite call_app. reflexivity. Qed.

Lemma tickPass_app (fs : list Fn) :
  forall s : State Fn App,
    app (fold_left (fireTick cb) fs s) = replay cb (map FiredTick fs) (app s).
Proof.
  induction fs as [|f fs IH]; intros s; simpl; [reflexivity|].
  rewrite IH, fireTick_app. reflexivity.
Qed.

Lemma fireHandler_app (s : State Fn App) (h : EventHandler Fn) :
  app (fireHandler cb s h) = replay cb [FiredHandler h (curPos s)] (app s).
Proof.
  unfold fireHandler.
  assert (Hr : forall i (t : State Fn App), app (remove i t) = app t) by reflexivity.
  destruct (negb (repeat h)); rewrite ?Hr, call_app; reflexivity.
Qed.

Lemma handlerPass_app (hs : list (EventHandler Fn)) :
  forall s : State Fn App,
    app (fold_left (fireHandler cb) hs s) =
      replay cb (map (fun h => FiredHandler h (curPos s)) hs) (app s).
Proof.
  induction hs as [|h hs IH]; intros s; simpl; [reflexivity|].
  destruct (fireHandler_frame s h) as (_ & _ & E3 & _).
  rewrite IH, fireHandler_app, E3. reflexivity.
Qed.

(** One dispatch applies the callback of every tick listener, then of every
    handler, each to the state the one before it left. *)
Lemma dispatch_app (s : State Fn App) :
  app (dispatch cb s) =
    replay cb (map FiredTick (tickListeners s)
               ++ map (fun h => FiredHandler h (curPos s)) (handlers s)) (app s).
Proof.
  unfold dispatch.
  destruct (tickPass_frame (tickListeners s) s) as (H1 & _ & H3 & _).
  rewrite handlerPass_app, tickPass_app, H1, H3, replay_app. reflexivity.
Qed.

Lemma quiet_stable (L : list (Fired Fn)) (a : App) :
  Stable (fun s : State Fn App => log s = L /\ app s = a).
Proof. split; intros; assumption. Qed.

(** The log and the callbacks' state move together: whatever the steps,
    the state is the one the logged invocations produce, in order. *)
Lemma steps_replay (sts : list (Step Fn)) :
  forall s : State Fn App,
    exists new : list (Fired Fn),
      log (steps cb sts s) = log s ++ new /\
      app (steps cb sts s) = replay cb new (app s).
Proof.
  unfold steps. induction sts as [|st sts IH]; intros s.
  - exists []. simpl. rewrite app_nil_r. auto.
  - assert (H1 : exists new1, log (step cb s st) = log s ++ new1 /\
                   app (step cb s st) = replay cb new1 (app s)).
    { destruct st as [|e|c]; cbn [step].
      - unfold run. destruct (paused s || (0 <? resumeTimeRemaining s)).
        + exists []. rewrite app_nil_r.
          destruct (0 <? resumeTimeRemaining s); auto.
        + eexists. split; [apply dispatch_log|apply dispatch_app].
      - exists []. rewrite app_nil_r.
        apply (deliver_stable _ (quiet_stable (log s) (app s)) e s). auto.
      - exists []. rewrite app_nil_r.
        destruct (exec_frame c s) as (_ & _ & _ & E). split; [exact E|apply exec_app]. }
    destruct H1 as (new1 & L1 & A1).
    destruct (IH (step cb s st)) as (new2 & L2 & A2).
    exists (new1 ++ new2). cbn [fold_left].
    rewrite L2, A2, L1, A1, replay_app, app_assoc. auto.
Qed.

(** *** The resume countdown *)

Lemma waiting_stable (L : list (Fired Fn)) (r : Z) : Stable (@waiting Fn App L r).
Proof. split; intros; assumption. Qed.

Lemma exec_waiting (L : list (Fired Fn)) (r : Z) (c : Cmd Fn) (s : State Fn App) :
  c <> Pause -> c <> Resume -> waiting L r s -> waiting L r (exec c s).
Proof.
  intros Hp Hr Hs. destruct c; simpl; try exact Hs; congruence.
Qed.

Lemma countdown (sts : list (Step Fn)) :
  forall (s : State Fn App) (k : nat),
    waiting (log s) (RESUME_INTERVAL - EVENT_INTERVAL * Z.of_nat k) s ->
    noPauseResume sts ->
    (k + ticksIn sts <= 20)%nat ->
    waiting (log s)
      (RESUME_INTERVAL - EVENT_INTERVAL * Z.of_nat (k + ticksIn sts))
      (steps cb sts s).
Proof.
  unfold steps.
  induction sts as [|st sts IH]; intros s k Hs Hq Hk.
  - cbn [fold_left ticksIn]. rewrite Nat.add_0_r. exact Hs.
  - inversion Hq as [|? ? [Hnp Hnr] Hq']; subst.
    destruct st as [|e|c]; cbn [fold_left step ticksIn] in *.
    + destruct Hs as (HL & Hp & Hr).
      assert (Hpos : 0 < resumeTimeRemaining s).
      { rewrite Hr. unfold RESUME_INTERVAL, EVENT_INTERVAL. lia. }
      rewrite (run_resuming s Hpos).
      replace (k + S (ticksIn sts))%nat with (S k + ticksIn sts)%nat by lia.
      apply (IH (setPause (paused s) (resumeTimeRemaining s - EVENT_INTERVAL) s) (S k));
        [|exact Hq'|lia].
      split; [reflexivity|]. split; [exact Hp|].
      cbn [resumeTimeRemaining setPause]. rewrite Hr.
      unfold RESUME_INTERVAL, EVENT_INTERVAL. lia.
    + pose proof (deliver_stable _ (waiting_stable _ _) e s Hs) as Hd.
      destruct Hd as (HL & Hp & Hr).
      rewrite <- HL. apply IH; [|exact Hq'|exact Hk].
      repeat split; assumption.
    + assert (Hc : waiting (log s)
                (RESUME_INTERVAL - EVENT_INTERVAL * Z.of_nat k) (exec c s)).
      { apply exec_waiting; [intros ->; apply Hnp; reflexivity
                            |intros ->; apply Hnr; reflexivity|exact Hs]. }
      destruct Hc as (HL & Hp & Hr).
      rewrite <- HL. apply IH; [|exact Hq'|exact Hk].
      repeat split; assumption.
Qed.

(** C5: after [pause()] then [resume()], a schedule with at most twenty
    timer ticks (and any input events and registrations in between) calls no
    callback: the log and the state the callbacks close over are as before.
    Once twenty ticks have run, the next tick calls every tick listener and
    every registered handler: the callbacks' state is the result of applying
    them in that order. *)
Theorem resume_debounce (s : State Fn App) (sts : list (Step Fn)) :
  noPauseResume sts ->
  (ticksIn sts <= 20)%nat ->
  log (steps cb sts (resume (pause s))) = log s /\
  app (steps cb sts (resume (pause s))) = app s /\
  (ticksIn sts = 20%nat ->
   log (run cb (steps cb sts (resume (pause s)))) =
     log s
     ++ map FiredTick (tickListeners (steps cb sts (resume (pause s))))
     ++ map (fun h => FiredHandler h (curPos (steps cb sts (resume (pause s)))))
          (handlers (steps cb sts (resume (pause s)))) /\
   app (run cb (steps cb sts (resume (pause s)))) =
     replay cb
       (map FiredTick (tickListeners (steps cb sts (resume (pause s))))
        ++ map (fun h => FiredHandler h (curPos (steps cb sts (resume (pause s)))))
             (handlers (steps cb sts (resume (pause s)))))
       (app s)).
Proof.
  intros Hq Hk.
  assert (H0 : waiting (log (resume (pause s)))
                 (RESUME_INTERVAL - EVENT_INTERVAL * Z.of_nat 0)
                 (resume (pause s))).
  { repeat split. }
  pose proof (countdown sts (resume (pause s)) 0%nat H0 Hq Hk) as (HL & Hp & Hr).
  simpl in HL.
  assert (HA : app (steps cb sts (resume (pause s))) = app s).
  { destruct (steps_replay sts (resume (pause s))) as (new & L & A).
    cbn [log resume pause setPause] in L. rewrite HL in L.
    rewrite <- (app_nil_r (log s)) in L at 1. apply app_inv_head in L.
    subst new. exact A. }
  split; [exact HL|]. split; [exact HA|].
  intros H20.
  assert (Hrun : running (steps cb sts (resume (pause s)))).
  { split; [exact Hp|]. rewrite Hr, H20. unfold RESUME_INTERVAL, EVENT_INTERVAL.
    simpl. lia. }
  rewrite (run_running _ Hrun), dispatch_log, dispatch_app, HL, HA. auto.
Qed.

(** *** Identifiers *)

Lemma idEq_eq (a b : option nat) : idEq a b = true <-> a = b.
Proof.
  destruct a as [n|], b as [m|]; simpl; try (split; congruence).
  rewrite Nat.eqb_eq. split; congruence.
Qed.

Lemma spliceFirst_In (i : option nat) (hs : list (EventHandler Fn)) (h : EventHandler Fn) :
  In h (spliceFirst i hs) -> In h hs.
Proof.
  induction hs as [|h0 hs IH]; simpl; [auto|].
  destruct (idEq (id h0) i); simpl; tauto.
Qed.

Lemma spliceFirst_NoDup (i : option nat) (hs : list (EventHandler Fn)) :
  NoDup (map id hs) -> NoDup (map id (spliceFirst i hs)).
Proof.
  induction hs as [|h0 hs IH]; simpl; intros H; [exact H|].
  inversion H as [|? ? Hnot Hnd]; subst.
  destruct (idEq (id h0) i); [exact Hnd|]. simpl. constructor.
  - intros Hin. apply Hnot. rewrite in_map_iff in *.
    destruct Hin as (h & E & Hh). exists h. split; [exact E|].
    apply (spliceFirst_In i). exact Hh.
  - apply IH. exact Hnd.
Qed.

(** With distinct identifiers, removing the first match removes the only
    one. *)
Lemma spliceFirst_gone (i : option nat) (hs : list (EventHandler Fn)) (h : EventHandler Fn) :
  NoDup (map id hs) -> In h (spliceFirst i hs) -> id h <> i.
Proof.
  induction hs as [|h0 hs IH]; simpl; intros Hnd Hin; [contradiction|].
  inversion Hnd as [|? ? Hnot Hnd']; subst.
  destruct (idEq (id h0) i) eqn:E.
  - apply idEq_eq in E. intros Heq. apply Hnot. rewrite E, <- Heq.
    apply in_map. exact Hin.
  - destruct Hin as [<-|Hin].
    + intros Heq. apply idEq_eq in Heq. congruence.
    + apply IH; assumption.
Qed.

Lemma wf_ext (s s' : State Fn App) :
  handlers s' = handlers s -> nextId s' = nextId s -> wf s -> wf s'.
Proof. unfold wf. intros -> ->. auto. Qed.

Lemma wf_add t c f r (s : State Fn App) : wf s -> wf (snd (add t c f r s)).
Proof.
  unfold wf. simpl. intros [Hnd Hall]. split.
  - rewrite map_app. simpl. apply NoDup_app; [exact Hnd|repeat constructor; auto|].
    intros i Hi [<-|[]]. rewrite in_map_iff in Hi.
    destruct Hi as (h & E & Hh). rewrite Forall_forall in Hall.
    destruct (Hall h Hh) as (n & En & Hn). rewrite En in E.
    inversion E. lia.
  - apply Forall_app. split.
    + eapply Forall_impl; [|exact Hall]. simpl.
      intros h (n & En & Hn). exists n. split; [exact En|lia].
    + constructor; [|constructor]. simpl.
      exists (nextId s + 1)%nat. split; [reflexivity|lia].
Qed.

Lemma wf_remove (i : option nat) (s : State Fn App) : wf s -> wf (remove i s).
Proof.
  unfold wf. simpl. intros [Hnd Hall]. split.
  - apply spliceFirst_NoDup. exact Hnd.
  - rewrite Forall_forall in *. intros h Hh. apply Hall.
    apply (spliceFirst_In i). exact Hh.
Qed.

Lemma wf_stable : Stable (@wf Fn App).
Proof.
  split; intros.
  - apply wf_add. assumption.
  - apply wf_remove. assumption.
  - assumption.
  - assumption.
  - assumption.
Qed.

Lemma wf_fireHandler (s : State Fn App) (h : EventHandler Fn) : wf s -> wf (fireHandler cb s h).
Proof.
  intros Hs. destruct (fireHandler_frame s h) as (H1 & H2 & _ & _).
  destruct (repeat h).
  - apply (wf_ext s); assumption.
  - apply (wf_ext (remove (id h) s)); [exact H1|exact H2|].
    apply wf_remove. exact Hs.
Qed.

Lemma wf_handlerPass (hs : list (EventHandler Fn)) :
  forall s : State Fn App, wf s -> wf (fold_left (fireHandler cb) hs s).
Proof.
  induction hs as [|h hs IH]; intros s Hs; simpl; [exact Hs|].
  apply IH. apply wf_fireHandler. exact Hs.
Qed.

Lemma wf_run (s : State Fn App) : wf s -> wf (run cb s).
Proof.
  intros Hs. unfold run.
  destruct (paused s || (0 <? resumeTimeRemaining s)).
  - destruct (0 <? resumeTimeRemaining s); exact Hs.
  - unfold dispatch. apply wf_handlerPass.
    destruct (tickPass_frame (tickListeners s) s) as (H1 & H2 & _ & _).
    apply (wf_ext s); assumption.
Qed.

Lemma wf_step (s : State Fn App) (st : Step Fn) : wf s -> wf (step cb s st).
Proof.
  intros Hs. destruct st as [|e|c]; simpl.
  - apply wf_run. exact Hs.
  - apply (deliver_stable _ wf_stable). exact Hs.
  - destruct (exec_frame c s) as (H1 & H2 & _ & _).
    apply (wf_ext s); assumption.
Qed.

(** Every state the loop can reach is well formed. *)
Lemma wf_reachable (a : App) (sts : list (Step Fn)) :
  wf (steps cb sts (init a)).
Proof.
  unfold steps.
  assert (H0 : wf (@init Fn App a)) by (split; constructor).
  revert H0. generalize (@init Fn App a) as s.
  induction sts as [|st sts IH]; intros s Hs; simpl; [exact Hs|].
  apply IH. apply wf_step. exact Hs.
Qed.

(** *** A registration that is gone stays gone *)

Lemma retired_ext (n c : nat) (s s' : State Fn App) :
  handlers s' = handlers s -> nextId s' = nextId s -> log s' = log s ->
  retired n c s -> retired n c s'.
Proof. unfold retired, registered. intros -> -> ->. auto. Qed.

Lemma retired_remove (n c : nat) (i : option nat) (s : State Fn App) :
  retired n c s -> retired n c (remove i s).
Proof.
  unfold retired, registered. simpl. intros (Hn & Hr & Hc).
  repeat split; auto. intros (h & Hh & E). apply Hr. exists h.
  split; [apply (spliceFirst_In i); exact Hh|exact E].
Qed.

Lemma retired_stable (n c : nat) : Stable (@retired Fn App n c).
Proof.
  split; intros; try assumption.
  - destruct H as (Hn & Hr & Hc). unfold retired, registered in *. simpl.
    repeat split; [lia| |exact Hc].
    intros (h & Hh & E). apply in_app_or in Hh. destruct Hh as [Hh|[<-|[]]].
    + apply Hr. exists h. auto.
    + simpl in E. inversion E. lia.
  - apply retired_remove. assumption.
Qed.

Lemma firedCount_app (n : nat) (l1 l2 : list (Fired Fn)) :
  firedCount n (l1 ++ l2) = (firedCount n l1 + firedCount n l2)%nat.
Proof.
  induction l1 as [|[f|h p] l1 IH]; simpl; auto.
  destruct (idEq (id h) (Some n)); simpl; lia.
Qed.

Lemma firedCount_ticks (n : nat) (fs : list Fn) :
  firedCount n (map FiredTick fs) = 0%nat.
Proof. induction fs; simpl; auto. Qed.

Lemma retired_fireHandler (n c : nat) (s : State Fn App) (h : EventHandler Fn) :
  id h <> Some n -> retired n c s -> retired n c (fireHandler cb s h).
Proof.
  intros Hid (Hn & Hr & Hc).
  destruct (fireHandler_frame s h) as (H1 & H2 & _ & H4).
  unfold retired, registered. rewrite H1, H2, H4, firedCount_app. simpl.
  destruct (idEq (id h) (Some n)) eqn:E; [apply idEq_eq in E; contradiction|].
  repeat split; [exact Hn| |lia].
  intros (h' & Hh' & E'). apply Hr. exists h'. split; [|exact E'].
  destruct (repeat h); [exact Hh'|apply (spliceFirst_In (id h)); exact Hh'].
Qed.

Lemma retired_handlerPass (n c : nat) (hs : list (EventHandler Fn)) :
  forall s : State Fn App,
    (forall h, In h hs -> id h <> Some n) ->
    retired n c s -> retired n c (fold_left (fireHandler cb) hs s).
Proof.
  induction hs as [|h hs IH]; intros s Hids Hs; simpl; [exact Hs|].
  apply IH; [intros h' Hh'; apply Hids; right; exact Hh'|].
  apply retired_fireHandler; [apply Hids; left; reflexivity|exact Hs].
Qed.

Lemma retired_run (n c : nat) (s : State Fn App) : retired n c s -> retired n c (run cb s).
Proof.
  intros Hs. unfold run.
  destruct (paused s || (0 <? resumeTimeRemaining s)).
  - destruct (0 <? resumeTimeRemaining s); exact Hs.
  - unfold dispatch.
    destruct (tickPass_frame (tickListeners s) s) as (H1 & H2 & _ & H4).
    assert (Hs1 : retired n c (fold_left (fireTick cb) (tickListeners s) s)).
    { destruct Hs as (Hn & Hr & Hc). unfold retired, registered.
      rewrite H1, H2, H4, firedCount_app, firedCount_ticks.
      repeat split; [exact Hn|exact Hr|lia]. }
    apply retired_handlerPass; [|exact Hs1].
    intros h Hh E. destruct Hs1 as (_ & Hr & _). apply Hr. exists h. auto.
Qed.

Lemma retired_steps (n c : nat) (sts : list (Step Fn)) :
  forall s : State Fn App, retired n c s -> retired n c (steps cb sts s).
Proof.
  unfold steps. induction sts as [|st sts IH]; intros s Hs; simpl; [exact Hs|].
  apply IH. destruct st as [|e|c0]; simpl.
  - apply retired_run. exact Hs.
  - apply (deliver_stable _ (retired_stable n c)). exact Hs.
  - destruct (exec_frame c0 s) as (H1 & H2 & _ & H4).
    apply (retired_ext n c s); assumption.
Qed.

(** *** The pass that fires a one-shot handler *)

Lemma fireHandler_retires (n : nat) (s : State Fn App) (h : EventHandler Fn) :
  wf s -> (n <= nextId s)%nat -> id h = Some n -> repeat h = false ->
  retired n (S (firedCount n (log s))) (fireHandler cb s h).
Proof.
  intros [Hnd _] Hn Hid Hrep.
  destruct (fireHandler_frame s h) as (H1 & H2 & _ & H4).
  unfold retired, registered. rewrite H1, H2, H4, firedCount_app, Hrep. simpl.
  rewrite Hid. simpl. rewrite Nat.eqb_refl.
  repeat split; [exact Hn| |lia].
  intros (h' & Hh' & E'). rewrite <- Hid in *.
  apply (spliceFirst_gone (id h) (handlers s) h' Hnd Hh').
  congruence.
Qed.

Lemma handlerPass_retires (n : nat) (h : EventHandler Fn) (hs : list (EventHandler Fn)) :
  forall s : State Fn App,
    NoDup (map id hs) -> In h hs -> wf s -> (n <= nextId s)%nat ->
    id h = Some n -> repeat h = false ->
    retired n (S (firedCount n (log s))) (fold_left (fireHandler cb) hs s).
Proof.
  induction hs as [|h0 hs IH]; intros s Hnd Hin Hs Hn Hid Hrep; [contradiction|].
  simpl. inversion Hnd as [|? ? Hnot Hnd']; subst.
  destruct Hin as [->|Hin].
  - apply retired_handlerPass.
    + intros h' Hh' E. apply Hnot. rewrite Hid, <- E. apply in_map. exact Hh'.
    + apply fireHandler_retires; assumption.
  - assert (Hid0 : id h0 <> Some n).
    { intros E. apply Hnot. rewrite E, <- Hid. apply in_map. exact Hin. }
    destruct (fireHandler_frame s h0) as (_ & H2 & _ & H4).
    assert (Hc : firedCount n (log (fireHandler cb s h0)) = firedCount n (log s)).
    { rewrite H4, firedCount_app. simpl.
      destruct (idEq (id h0) (Some n)) eqn:E; [apply idEq_eq in E; contradiction|].
      simpl. lia. }
    rewrite <- Hc. apply IH; auto.
    + apply wf_fireHandler. exact Hs.
    + rewrite H2. exact Hn.
Qed.

Lemma firedCount_absent (n : nat) (p : option Point) (hs : list (EventHandler Fn)) :
  (forall h, In h hs -> id h <> Some n) ->
  firedCount n (map (fun h => FiredHandler h p) hs) = 0%nat.
Proof.
  induction hs as [|h hs IH]; intros H; simpl; [reflexivity|].
  destruct (idEq (id h) (Some n)) eqn:E.
  - apply idEq_eq in E. exfalso. apply (H h); [left; reflexivity|exact E].
  - apply IH. intros h' Hh'. apply H. right. exact Hh'.
Qed.

(** One run of a running loop calls a registered handler once, with its code
    and the tracked position: the callbacks' state after the run is the one
    obtained by applying the callbacks fired before it, then its own, then
    those fired after it. *)
Lemma run_calls_handler (s : State Fn App) (h : EventHandler Fn) (n : nat) :
  wf s -> running s -> In h (handlers s) -> id h = Some n ->
  exists before after : list (Fired Fn),
    log (run cb s) = log s ++ before ++ FiredHandler h (curPos s) :: after /\
    firedCount n before = 0%nat /\ firedCount n after = 0%nat /\
    app (run cb s) =
      replay cb after
        (fst (cb (fn h) (Some (code h, curPos s)) (replay cb before (app s)))).
Proof.
  intros [Hnd _] Hrun Hin Hid.
  destruct (in_split _ _ Hin) as (l1 & l2 & E).
  rewrite (run_running s Hrun), dispatch_log, dispatch_app, E, map_app.
  rewrite E, map_app in Hnd. cbn [map] in Hnd. apply NoDup_remove_2 in Hnd.
  exists (map FiredTick (tickListeners s)
          ++ map (fun h0 => FiredHandler h0 (curPos s)) l1),
         (map (fun h0 => FiredHandler h0 (curPos s)) l2).
  split; [rewrite <- !app_assoc; reflexivity|]. split; [|split].
  - rewrite firedCount_app, firedCount_ticks. apply firedCount_absent.
    intros h' Hh' E'. apply Hnd. apply in_or_app. left.
    rewrite Hid, <- E'. apply in_map. exact Hh'.
  - apply firedCount_absent.
    intros h' Hh' E'. apply Hnd. apply in_or_app. right.
    rewrite Hid, <- E'. apply in_map. exact Hh'.
  - rewrite app_assoc, replay_app. reflexivity.
Qed.

(** C6: a well-formed loop that is running, a registered handler with
    [repeat = false]: one run calls it exactly once (the callbacks' state is
    the result of applying the callbacks fired before it, its own callback
    once, and those fired after it) and removes it right after the call;
    whatever happens later it is not registered and no call made is a call
    of it. *)
Theorem one_shot_fires_once (s : State Fn App) (h : EventHandler Fn) (n : nat) :
  wf s -> running s -> In h (handlers s) -> id h = Some n -> repeat h = false ->
  (exists before after : list (Fired Fn),
     log (run cb s) = log s ++ before ++ FiredHandler h (curPos s) :: after /\
     firedCount n before = 0%nat /\ firedCount n after = 0%nat /\
     app (run cb s) =
       replay cb after
         (fst (cb (fn h) (Some (code h, curPos s)) (replay cb before (app s))))) /\
  firedCount n (log (run cb s)) = S (firedCount n (log s)) /\
  ~ registered n (run cb s) /\
  (forall s' : State Fn App, wf s' -> ~ registered n (fireHandler cb s' h)) /\
  (forall sts : list (Step Fn),
     ~ registered n (steps cb sts (run cb s)) /\
     firedCount n (log (steps cb sts (run cb s))) = S (firedCount n (log s)) /\
     exists later : list (Fired Fn),
       log (steps cb sts (run cb s)) = log (run cb s) ++ later /\
       firedCount n later = 0%nat /\
       app (steps cb sts (run cb s)) = replay cb later (app (run cb s))).
Proof.
  intros Hwf Hrun Hin Hid Hrep.
  assert (Hn : (n <= nextId s)%nat).
  { destruct Hwf as [_ Hall]. rewrite Forall_forall in Hall.
    destruct (Hall h Hin) as (m & E & Hm). rewrite Hid in E. inversion E. lia. }
  assert (Hret : retired n (S (firedCount n (log s))) (run cb s)).
  { rewrite (run_running s Hrun). unfold dispatch.
    destruct (tickPass_frame (tickListeners s) s) as (H1 & H2 & _ & H4).
    set (s1 := fold_left (fireTick cb) (tickListeners s) s) in *.
    assert (Hc : firedCount n (log s1) = firedCount n (log s)).
    { rewrite H4, firedCount_app, firedCount_ticks. lia. }
    rewrite <- Hc. apply (handlerPass_retires n h).
    - rewrite H1. apply Hwf.
    - rewrite H1. exact Hin.
    - apply (wf_ext s); assumption.
    - rewrite H2. exact Hn.
    - exact Hid.
    - exact Hrep. }
  split; [apply (run_calls_handler s h n); assumption|].
  split; [apply Hret|]. split; [apply Hret|]. split.
  - intros s' Hs' (h' & Hh' & E').
    destruct (fireHandler_frame s' h) as (H1 & _ & _ & _).
    rewrite H1, Hrep in Hh'. destruct Hs' as [Hnd _].
    apply (spliceFirst_gone (id h) (handlers s') h' Hnd Hh'). congruence.
  - intros sts. pose proof (retired_steps _ _ sts _ Hret) as (_ & Hr & Hc).
    split; [exact Hr|]. split; [exact Hc|].
    destruct (steps_replay sts (run cb s)) as (later & L & A).
    exists later. split; [exact L|]. split; [|exact A].
    rewrite L, firedCount_app in Hc. destruct Hret as (_ & _ & Hc0). lia.
Qed.

(** *** Tick listeners *)







End WithCallbacks.

Lemma wf_armed : wf armed.
Proof.
  split.
  - repeat constructor. simpl. tauto.
  - repeat constructor. exists 1%nat. split; [reflexivity|simpl; lia].
Qed.

Lemma noPauseResume_twentyTicks : noPauseResume twentyTicks.
Proof.
  unfold noPauseResume, twentyTicks. simpl.
  repeat (constructor; [split; discriminate|]). constructor.
Qed.

Lemma resume_debounce_example :
  log (steps countingCb twentyTicks (resume (pause armed))) = [] /\
  app (steps countingCb twentyTicks (resume (pause armed))) = 0%nat /\
  log (run countingCb (steps countingCb twentyTicks (resume (pause armed)))) =
    [FiredTick 7%nat; FiredHandler upHandler None] /\
  app (run countingCb (steps countingCb twentyTicks (resume (pause armed)))) = 2%nat.
Proof.
  destruct (resume_debounce nat nat countingCb armed twentyTicks) as (H1 & H2 & H3).
  - exact noPauseResume_twentyTicks.
  - simpl. lia.
  - destruct H3 as [H3 H4]; [reflexivity|].
    split; [exact H1|]. split; [exact H2|].
    split; [rewrite H3; reflexivity|rewrite H4; reflexivity].
Defined.

Lemma one_shot_fires_once_example :
  (exists before after : list (Fired nat),
     log (run countingCb armed) =
       log armed ++ before ++ FiredHandler upHandler (curPos armed) :: after /\
     firedCount 1 before = 0%nat /\ firedCount 1 after = 0%nat /\
     app (run countingCb armed) =
       replay countingCb after
         (fst (countingCb (fn upHandler) (Some (code upHandler, curPos armed))
                 (replay countingCb before (app armed))))) /\
  app (run countingCb armed) = 2%nat /\
  firedCount 1 (log (run countingCb armed)) = 1%nat /\
  ~ registered 1 (run countingCb armed).
Proof.
  destruct (one_shot_fires_once nat nat countingCb armed upHandler 1)
    as (H0 & H1 & H2 & _).
  - exact wf_armed.
  - split; [reflexivity|simpl; lia].
  - left. reflexivity.
  - reflexivity.
  - reflexivity.
  - split; [exact H0|]. split; [reflexivity|]. split; [exact H1|exact H2].
Defined.

(** C6: a tick listener is still registered after the run that called it,
    and the next run calls it again. *)
Lemma tick_listener_survives_run :
  log (run countingCb bound) = [FiredTick 7%nat] /\
  tickListeners (run countingCb bound) = [7%nat] /\
  log (run countingCb (run countingCb bound)) = [FiredTick 7%nat; FiredTick 7%nat].
Proof. repeat split. Qed.



End EventLoopFacts.

(* ================================================================== *)
(** ** More facts about the generator *)
(* ================================================================== *)

Module GeneratorMore.
Import Generator GeneratorNotions GeneratorFacts.

Local Open Scope Z_scope.

Lemma candidate_spec rng pos arrayLength maxSum k :
  candidate rng pos arrayLength maxSum k =
  map (fun i => getRandomInt 1 (maxSum - 1) (rng i))
    (seq (pos + k * arrayLength) arrayLength).
Proof. unfold candidate. rewrite fillArray_spec. reflexivity. Qed.

Lemma generate_step fuel rng pos arrayLength maxSum :
  generateSpecialArray (S fuel) rng pos arrayLength maxSum =
  if accepted (candidate rng pos arrayLength maxSum 0) maxSum
  then Some (candidate rng pos arrayLength maxSum 0)
  else generateSpecialArray fuel rng (pos + arrayLength) arrayLength maxSum.
Proof.
  unfold candidate, accepted. simpl. rewrite Nat.add_0_r.
  rewrite fillArray_spec. simpl.
  destruct (sumCheck _ maxSum); simpl; [|reflexivity].
  destruct (Nat.eqb _ 1); reflexivity.
Qed.

Lemma candidate_shift rng pos arrayLength maxSum k :
  candidate rng (pos + arrayLength) arrayLength maxSum k =
  candidate rng pos arrayLength maxSum (S k).
Proof.
  unfold candidate. f_equal. f_equal. simpl. lia.
Qed.

(** X1: the generator returns an array exactly when some round within the
    fuel draws a candidate that passes both tests, and then it returns the
    candidate of the first such round. *)
Theorem generate_first_accepted (fuel : nat) (rng : Rng) (pos arrayLength : nat)
    (maxSum : Z) (arr : list Z) :
  generateSpecialArray fuel rng pos arrayLength maxSum = Some arr <->
  exists k,
    (k < fuel)%nat /\
    arr = candidate rng pos arrayLength maxSum k /\
    accepted (candidate rng pos arrayLength maxSum k) maxSum = true /\
    forall j, (j < k)%nat ->
      accepted (candidate rng pos arrayLength maxSum j) maxSum = false.
Proof.
  revert pos. induction fuel as [|fuel IH]; intros pos.
  - split; [discriminate|]. intros (k & Hk & _). lia.
  - rewrite generate_step.
    destruct (accepted (candidate rng pos arrayLength maxSum 0) maxSum) eqn:E0.
    + split.
      * intros [= <-]. exists 0%nat. repeat split; auto; [lia|]. intros j Hj. lia.
      * intros (k & Hk & -> & Hacc & Hfirst). destruct k as [|k]; [reflexivity|].
        rewrite (Hfirst 0%nat) in E0 by lia. discriminate.
    + rewrite IH. split.
      * intros (k & Hk & -> & Hacc & Hfirst). exists (S k).
        rewrite <- !candidate_shift. repeat split; auto; [lia|].
        intros [|j] Hj; [exact E0|].
        rewrite <- candidate_shift. apply Hfirst. lia.
      * intros (k & Hk & -> & Hacc & Hfirst). destruct k as [|k]; [congruence|].
        exists k. rewrite !candidate_shift. repeat split; auto; [lia|].
        intros j Hj. rewrite candidate_shift. apply Hfirst. lia.
Qed.

Lemma triples_short (n : nat) : (n < 3)%nat -> triples n = [].
Proof.
  intros Hn. destruct (triples n) as [|[[i j] k] rest] eqn:E; [reflexivity|].
  assert (Hin : In (i, j, k) (triples n)) by (rewrite E; left; reflexivity).
  apply in_triples in Hin. unfold is_triple in Hin. lia.
Qed.

(** A count of one needs a triple, hence three numbers. *)
Lemma count_one_length (arr : list Z) :
  countSolving arr = 1%nat -> (3 <= length arr)%nat.
Proof.
  intros Hc. destruct (Nat.lt_ge_cases (length arr) 3) as [Hn|Hn]; [|exact Hn].
  rewrite countSolving_filter, triples_short in Hc by exact Hn. discriminate.
Qed.

(** X2: with fewer than three numbers to draw no candidate is ever
    accepted: the generator returns nothing, whatever the fuel. *)
Theorem generate_too_short (fuel : nat) (rng : Rng) (pos arrayLength : nat)
    (maxSum : Z) :
  (arrayLength < 3)%nat ->
  generateSpecialArray fuel rng pos arrayLength maxSum = None.
Proof.
  intros Hn.
  destruct (generateSpecialArray fuel rng pos arrayLength maxSum) as [arr|] eqn:E;
    [|reflexivity].
  apply generate_inv in E. destruct E as (p & -> & _ & Hc).
  apply count_one_length in Hc.
  rewrite length_map, length_seq in Hc. lia.
Qed.

Lemma generate_too_short_example :
  generateSpecialArray 50 exampleRng 0 2 100 = None.
Proof. apply (generate_too_short 50 exampleRng 0 2 100). lia. Defined.

Lemma getRandomInt_lower (min max : Z) (r : Q) :
  (0 <= r)%Q -> min - 1 <= max -> min <= getRandomInt min max r.
Proof.
  intros H0 Hmm. unfold getRandomInt.
  assert (Hk : (0 <= inject_Z (max - min + 1))%Q).
  { change 0%Q with (inject_Z 0). rewrite <- Zle_Qle. lia. }
  assert (Hlo : (0 <= r * inject_Z (max - min + 1))%Q) by nra.
  pose proof (Qfloor_resp_le _ _ Hlo) as Hf0.
  change (Qfloor 0) with 0 in Hf0. lia.
Qed.

Lemma sumCheck_triple (arr : list Z) (maxSum : Z) (i j k : nat) :
  sumCheck arr maxSum = true -> is_triple (length arr) i j k ->
  at_ arr i + at_ arr j + at_ arr k < maxSum.
Proof.
  intros Hs Ht. rewrite sumCheck_forallb, forallb_forall in Hs.
  apply in_triples in Ht. specialize (Hs _ Ht).
  unfold belowAt in Hs. apply negb_true_iff in Hs.
  rewrite Z.geb_leb in Hs. apply Z.leb_gt in Hs. exact Hs.
Qed.

Lemma at_candidate rng pos n maxSum i :
  (i < n)%nat ->
  at_ (map (fun i => getRandomInt 1 (maxSum - 1) (rng i)) (seq pos n)) i =
  getRandomInt 1 (maxSum - 1) (rng (pos + i)%nat).
Proof.
  intros Hi. unfold at_.
  rewrite (nth_indep _ 0 (getRandomInt 1 (maxSum - 1) (rng 0%nat)))
    by (rewrite length_map, length_seq; exact Hi).
  rewrite (map_nth (fun i => getRandomInt 1 (maxSum - 1) (rng i))).
  rewrite seq_nth by exact Hi. reflexivity.
Qed.

(** Every number of a returned array is at least 1. *)
Lemma generate_positive fuel rng pos arrayLength maxSum arr :
  unit_interval rng -> 1 <= maxSum ->
  generateSpecialArray fuel rng pos arrayLength maxSum = Some arr ->
  forall i, (i < length arr)%nat -> 1 <= at_ arr i.
Proof.
  intros Hrng HM H i Hi. apply generate_inv in H. destruct H as (p & -> & _ & _).
  rewrite length_map, length_seq in Hi. rewrite at_candidate by exact Hi.
  apply getRandomInt_lower; [apply Hrng|lia].
Qed.

(** X3: with a bound between 1 and 3 every three numbers already sum to
    the bound or more: the generator returns nothing, whatever the fuel. *)
Theorem generate_bound_too_small (fuel : nat) (rng : Rng) (pos arrayLength : nat)
    (maxSum : Z) :
  unit_interval rng -> 1 <= maxSum <= 3 ->
  generateSpecialArray fuel rng pos arrayLength maxSum = None.
Proof.
  intros Hrng HM.
  destruct (generateSpecialArray fuel rng pos arrayLength maxSum) as [arr|] eqn:E;
    [|reflexivity].
  pose proof (generate_positive _ _ _ _ _ _ Hrng (proj1 HM) E) as Hpos.
  apply generate_inv in E. destruct E as (p & -> & Hs & Hc).
  apply count_one_length in Hc.
  pose proof (sumCheck_triple _ _ 0 1 2 Hs ltac:(unfold is_triple; lia)) as Hsum.
  pose proof (Hpos 0%nat ltac:(lia)). pose proof (Hpos 1%nat ltac:(lia)).
  pose proof (Hpos 2%nat ltac:(lia)). lia.
Qed.

Lemma generate_bound_too_small_example :
  generateSpecialArray 50 exampleRng 0 6 3 = None.
Proof.
  apply (generate_bound_too_small 50 exampleRng 0 6 3).
  - exact exampleRng_unit.
  - lia.
Defined.

End GeneratorMore.

(* ================================================================== *)
(** ** Facts about rectangles *)
(* ================================================================== *)

Module GeometryFacts.
Import EventLoop Geometry.

Lemma isWithin_iff (p : Point) (r : Rect) :
  isWithin (Some p) r = true <->
  rect_left r <= x p /\ x p <= rect_right r /\
  rect_top r <= y p /\ y p <= rect_bottom r.
Proof.
  unfold isWithin. rewrite !andb_true_iff, !Qle_bool_iff. tauto.
Qed.

Lemma rectIntersects_iff (a b : Rect) :
  rectIntersects a b = true <->
  rect_left b <= rect_right a /\ rect_left a <= rect_right b /\
  rect_top b <= rect_bottom a /\ rect_top a <= rect_bottom b.
Proof.
  unfold rectIntersects. rewrite negb_true_iff, !orb_false_iff, !Qltb_ge. tauto.
Qed.

(** X4: for rectangles with left <= right and top <= bottom,
    [rectIntersects] does not depend on the order of its arguments and is
    true exactly when some point is within both rectangles, edges
    included. *)
Theorem rectIntersects_common_point (a b : Rect) :
  proper a -> proper b ->
  rectIntersects a b = rectIntersects b a /\
  (rectIntersects a b = true <->
   exists p, isWithin (Some p) a = true /\ isWithin (Some p) b = true).
Proof.
  intros [Ha1 Ha2] [Hb1 Hb2]. split.
  - unfold rectIntersects.
    destruct (Qltb (rect_right a) (rect_left b)),
             (Qltb (rect_right b) (rect_left a)),
             (Qltb (rect_bottom a) (rect_top b)),
             (Qltb (rect_bottom b) (rect_top a)); reflexivity.
  - rewrite rectIntersects_iff. split.
    + intros (H1 & H2 & H3 & H4).
      exists (mkPoint (Qmax (rect_left a) (rect_left b))
                      (Qmax (rect_top a) (rect_top b))).
      rewrite !isWithin_iff. simpl.
      pose proof (Q.le_max_l (rect_left a) (rect_left b)).
      pose proof (Q.le_max_r (rect_left a) (rect_left b)).
      pose proof (Q.le_max_l (rect_top a) (rect_top b)).
      pose proof (Q.le_max_r (rect_top a) (rect_top b)).
      repeat split; auto; apply Q.max_lub; assumption.
    + intros (p & Hpa & Hpb). rewrite isWithin_iff in Hpa, Hpb.
      destruct Hpa as (A1 & A2 & A3 & A4), Hpb as (B1 & B2 & B3 & B4).
      repeat split; lra.
Qed.

Lemma rectIntersects_common_point_example :
  rectIntersects MoreExamples.rectA MoreExamples.rectB
    = rectIntersects MoreExamples.rectB MoreExamples.rectA /\
  (rectIntersects MoreExamples.rectA MoreExamples.rectB = true <->
   exists p, isWithin (Some p) MoreExamples.rectA = true /\
             isWithin (Some p) MoreExamples.rectB = true).
Proof.
  apply (rectIntersects_common_point MoreExamples.rectA MoreExamples.rectB).
  - split; vm_compute; discriminate.
  - split; vm_compute; discriminate.
Defined.

End GeometryFacts.

(* ================================================================== *)
(** ** Facts about the numbers *)
(* ================================================================== *)

Module NumberFacts.
Import Number.

Section WithEnvironment.

Variable M : JSMath.
Variable canvas : Canvas.
Variable el_offsetWidth el_offsetHeight : Q.

(** One coordinate of [render]: a coordinate that is not negative ends
    strictly inside, with room for [size]. *)
Lemma adjust_inside (o dim sz : Q) :
  0 <= o -> sz + 10 < dim ->
  let o1 := if Qeq_bool o 0 then o + 10 else o in
  let o2 := if Qle_bool dim (o1 + sz) then dim - sz - 10 else o1 in
  0 < o2 /\ o2 + sz < dim.
Proof.
  intros Ho Hdim. cbv zeta.
  assert (H1 : 0 < (if Qeq_bool o 0 then o + 10 else o)).
  { destruct (Qeq_bool o 0) eqn:E.
    - apply Qeq_bool_iff in E. lra.
    - apply Qeq_bool_neq in E. destruct (Qlt_le_dec 0 o) as [Hlt|Hle]; [exact Hlt|].
      exfalso. apply E. lra. }
  destruct (Qle_bool dim _) eqn:E2.
  - lra.
  - split; [exact H1|]. apply Qnot_le_lt. intros Hle.
    apply Qle_bool_iff in Hle. congruence.
Qed.

Lemma render_inside (x0 y0 : Q) :
  0 <= x0 -> 0 <= y0 ->
  size canvas + 10 < offsetWidth canvas ->
  size canvas + 10 < offsetHeight canvas ->
  0 < fst (render canvas x0 y0) /\
  fst (render canvas x0 y0) + size canvas < offsetWidth canvas /\
  0 < snd (render canvas x0 y0) /\
  snd (render canvas x0 y0) + size canvas < offsetHeight canvas.
Proof.
  intros Hx Hy HW HH. unfold render, BOUND_OFFSET. cbn [fst snd].
  destruct (adjust_inside x0 (offsetWidth canvas) (size canvas) Hx HW) as [A1 A2].
  destruct (adjust_inside y0 (offsetHeight canvas) (size canvas) Hy HH) as [B1 B2].
  repeat split; assumption.
Qed.

Lemma create_fields (x0 y0 : Q) (v : Z) (r : Q) :
  create canvas x0 y0 v r =
  mkState v (fst (render canvas x0 y0)) (snd (render canvas x0 y0))
    (fst (render canvas x0 y0)) (snd (render canvas x0 y0)) (r * 360) true.
Proof.
  unfold create. destruct (render canvas x0 y0) as [oX oY]. reflexivity.
Qed.

(** X5: a number constructed at coordinates that are not negative, on a
    canvas wider and higher than [size + 10], starts hidden, at its origin,
    and strictly inside the canvas with room for [size]. *)
Theorem create_inside (x0 y0 : Q) (v : Z) (r : Q) :
  0 <= x0 -> 0 <= y0 ->
  size canvas + 10 < offsetWidth canvas ->
  size canvas + 10 < offsetHeight canvas ->
  let n := create canvas x0 y0 v r in
  hidden n = true /\ value n = v /\
  xPos n = originX n /\ yPos n = originY n /\
  0 < xPos n /\ xPos n + size canvas < offsetWidth canvas /\
  0 < yPos n /\ yPos n + size canvas < offsetHeight canvas.
Proof.
  intros Hx Hy HW HH. cbv zeta. rewrite create_fields.
  cbn [hidden value xPos yPos originX originY].
  destruct (render_inside x0 y0 Hx Hy HW HH) as (A & B & C & D).
  repeat split; assumption.
Qed.

Lemma move_angle (r : Q) (s : State) :
  0 <= r -> 0 <= angle s /\ angle s < 360 ->
  0 <= angle (move M canvas el_offsetWidth el_offsetHeight r s) /\
  angle (move M canvas el_offsetWidth el_offsetHeight r s) < 360.
Proof.
  intros Hr Hs. unfold move. destruct (hidden s); [exact Hs|].
  cbv zeta. destruct (fold_left _ _ false); cbn [angle]; [|exact Hs].
  apply Qrem_range; nra.
Qed.

(** X6: the heading of a number is at least 0 and below 360 from its
    construction on, whatever is done to it, as long as the draws lie in
    the unit interval. *)
Theorem number_heading_normalized (x0 y0 : Q) (v : Z) (r : Q) (ops : list Op) :
  0 <= r /\ r < 1 -> unitDraws ops ->
  let n := applyAll M canvas el_offsetWidth el_offsetHeight ops
             (create canvas x0 y0 v r) in
  0 <= angle n /\ angle n < 360.
Proof.
  intros Hr Hops. cbv zeta. unfold applyAll.
  assert (H0 : 0 <= angle (create canvas x0 y0 v r) /\
               angle (create canvas x0 y0 v r) < 360).
  { unfold create. destruct (render canvas x0 y0) as [oX oY]. simpl. lra. }
  revert H0. generalize (create canvas x0 y0 v r) as s.
  induction Hops as [|o ops Ho Hops IH]; intros s Hs; simpl; [exact Hs|].
  apply IH. destruct o as [nv|r'| | |r']; simpl; try exact Hs.
  - apply move_angle; [apply Ho|exact Hs].
  - lra.
Qed.

Lemma collideAt_false (c : bool) (p : Point) :
  collideAt canvas c p = false <->
  c = false /\ 0 < x p /\ x p < offsetWidth canvas /\
  0 < y p /\ y p < offsetHeight canvas.
Proof.
  unfold collideAt. cbv zeta. rewrite !orb_false_iff.
  split.
  - intros [[[[Hc H1] H2] H3] H4]. split; [exact Hc|].
    repeat split; apply Qnot_le_lt; intros Hle; apply Qle_bool_iff in Hle; congruence.
  - intros (Hc & H1 & H2 & H3 & H4).
    repeat split; try exact Hc;
      (destruct (Qle_bool _ _) eqn:E; [apply Qle_bool_iff in E; exfalso; lra|reflexivity]).
Qed.

(** A move that changes the position ends with the box inside the canvas. *)
Lemma move_cases (r : Q) (s : State) :
  (xPos (move M canvas el_offsetWidth el_offsetHeight r s) = xPos s /\
   yPos (move M canvas el_offsetWidth el_offsetHeight r s) = yPos s) \/
  boxInside canvas el_offsetWidth el_offsetHeight
    (move M canvas el_offsetWidth el_offsetHeight r s).
Proof.
  unfold move. destruct (hidden s); [left; auto|]. cbv zeta.
  destruct (fold_left _ _ false) eqn:E; [left; auto|right].
  simpl in E.
  apply collideAt_false in E. destruct E as (E & A1 & A2 & A3 & A4).
  apply collideAt_false in E. destruct E as (E & B1 & B2 & B3 & B4).
  apply collideAt_false in E. destruct E as (E & C1 & C2 & C3 & C4).
  apply collideAt_false in E. destruct E as (_ & D1 & D2 & D3 & D4).
  cbn [x y] in *. unfold boxInside. cbn [xPos yPos]. repeat split; lra.
Qed.

(** What one [move] of a visible number does: when the four corners of the
    box moved by [(cos, sin)] of the heading are strictly inside the canvas
    the number takes that position and keeps its heading; otherwise it keeps
    its position and its heading becomes [(angle + r * 90) % 360]. *)
Lemma move_visible (r : Q) (s : State) :
  0 <= el_offsetWidth -> 0 <= el_offsetHeight ->
  hidden s = false ->
  let rad := angle s * Math_PI M / 180 in
  let nx := xPos s + Math_cos M rad in
  let ny := yPos s + Math_sin M rad in
  let n' := move M canvas el_offsetWidth el_offsetHeight r s in
  (0 < nx /\ nx + el_offsetWidth < offsetWidth canvas /\
   0 < ny /\ ny + el_offsetHeight < offsetHeight canvas ->
   xPos n' = nx /\ yPos n' = ny /\ angle n' = angle s) /\
  (~ (0 < nx /\ nx + el_offsetWidth < offsetWidth canvas /\
      0 < ny /\ ny + el_offsetHeight < offsetHeight canvas) ->
   xPos n' = xPos s /\ yPos n' = yPos s /\
   angle n' = Qrem (angle s + r * 90) 360).
Proof.
  intros Hw Hh Hv. cbv zeta. unfold move. rewrite Hv. cbv zeta.
  destruct (fold_left _ _ false) eqn:E; cbn [xPos yPos angle].
  - split; [|auto]. intros (A1 & A2 & A3 & A4). exfalso.
    assert (F : fold_left (collideAt canvas)
                  [ mkPoint (xPos s + Math_cos M (angle s * Math_PI M / 180))
                      (yPos s + Math_sin M (angle s * Math_PI M / 180));
                    mkPoint (xPos s + Math_cos M (angle s * Math_PI M / 180)
                             + el_offsetWidth)
                      (yPos s + Math_sin M (angle s * Math_PI M / 180));
                    mkPoint (xPos s + Math_cos M (angle s * Math_PI M / 180)
                             + el_offsetWidth)
                      (yPos s + Math_sin M (angle s * Math_PI M / 180)
                       + el_offsetHeight);
                    mkPoint (xPos s + Math_cos M (angle s * Math_PI M / 180))
                      (yPos s + Math_sin M (angle s * Math_PI M / 180)
                       + el_offsetHeight) ] false = false).
    { cbn [fold_left]. repeat (apply collideAt_false; split);
        try reflexivity; cbn [x y]; lra. }
    congruence.
  - split; [auto|]. intros Hn. exfalso. apply Hn.
    cbn [fold_left] in E.
    apply collideAt_false in E. destruct E as (E & A1 & A2 & A3 & A4).
    apply collideAt_false in E. destruct E as (E & B1 & B2 & B3 & B4).
    apply collideAt_false in E. destruct E as (E & C1 & C2 & C3 & C4).
    apply collideAt_false in E. destruct E as (_ & D1 & D2 & D3 & D4).
    cbn [x y] in *. repeat split; lra.
Qed.

(** X7: a number whose element is no larger than [size], constructed at
    coordinates that are not negative on a canvas wider and higher than
    [size + 10], keeps its box strictly inside the canvas whatever is done
    to it.  A [move] of the number, once hidden, changes nothing; once
    shown, it either takes the position advanced by [(cos, sin)] of the
    heading, keeping the heading, when the advanced box is strictly inside
    the canvas, or keeps the position and sets the heading to
    [(angle + r * 90) % 360] for the draw [r]. *)
Theorem number_stays_inside (x0 y0 : Q) (v : Z) (r : Q) (ops : list Op) :
  0 <= x0 -> 0 <= y0 ->
  size canvas + 10 < offsetWidth canvas ->
  size canvas + 10 < offsetHeight canvas ->
  0 <= el_offsetWidth <= size canvas -> 0 <= el_offsetHeight <= size canvas ->
  let n := applyAll M canvas el_offsetWidth el_offsetHeight ops
             (create canvas x0 y0 v r) in
  boxInside canvas el_offsetWidth el_offsetHeight n /\
  forall r' : Q,
    let rad := angle n * Math_PI M / 180 in
    let nx := xPos n + Math_cos M rad in
    let ny := yPos n + Math_sin M rad in
    let n' := move M canvas el_offsetWidth el_offsetHeight r' n in
    (hidden n = true -> n' = n) /\
    (hidden n = false ->
     0 < nx /\ nx + el_offsetWidth < offsetWidth canvas /\
     0 < ny /\ ny + el_offsetHeight < offsetHeight canvas ->
     xPos n' = nx /\ yPos n' = ny /\ angle n' = angle n) /\
    (hidden n = false ->
     ~ (0 < nx /\ nx + el_offsetWidth < offsetWidth canvas /\
        0 < ny /\ ny + el_offsetHeight < offsetHeight canvas) ->
     xPos n' = xPos n /\ yPos n' = yPos n /\
     angle n' = Qrem (angle n + r' * 90) 360).
Proof.
  intros Hx Hy HW HH [Hw0 Hw] [Hh0 Hh]. cbv zeta. split.
  - destruct (render_inside x0 y0 Hx Hy HW HH) as (A1 & A2 & B1 & B2).
    set (P := fun s : State =>
      boxInside canvas el_offsetWidth el_offsetHeight s /\
      0 < originX s /\ originX s + el_offsetWidth < offsetWidth canvas /\
      0 < originY s /\ originY s + el_offsetHeight < offsetHeight canvas).
    assert (H0 : P (create canvas x0 y0 v r)).
    { unfold P, boxInside. rewrite create_fields.
      cbn [xPos yPos originX originY]. repeat split; lra. }
    assert (HP : forall ops s, P s ->
              P (applyAll M canvas el_offsetWidth el_offsetHeight ops s)).
    { clear. unfold applyAll, P.
      induction ops as [|o ops IH]; intros s Hs; simpl; [exact Hs|].
      apply IH. destruct Hs as (Hb & Ho).
      destruct o as [nv|r'| | |r']; simpl.
      - split; assumption.
      - split.
        + destruct (move_cases r' s) as [[E1 E2]|Hin]; [|exact Hin].
          unfold boxInside in *. rewrite E1, E2. exact Hb.
        + unfold move. destruct (hidden s); [exact Ho|]. cbv zeta.
          destruct (fold_left _ _ false); exact Ho.
      - split; assumption.
      - split; assumption.
      - split; [|exact Ho]. unfold boxInside. simpl. exact Ho. }
    apply (HP ops _ H0).
  - intros r'.
    set (n := applyAll M canvas el_offsetWidth el_offsetHeight ops
                (create canvas x0 y0 v r)).
    split; [|split].
    + intros Hhid. unfold move. rewrite Hhid. reflexivity.
    + intros Hvis. apply (move_visible r' n Hw0 Hh0 Hvis).
    + intros Hvis. apply (move_visible r' n Hw0 Hh0 Hvis).
Qed.

End WithEnvironment.

Lemma create_inside_example :
  let n := create Examples.canvas400 0 100 5 (1 # 4) in
  hidden n = true /\ value n = 5%Z /\
  xPos n = originX n /\ yPos n = originY n /\
  0 < xPos n /\ xPos n + size Examples.canvas400 < offsetWidth Examples.canvas400 /\
  0 < yPos n /\ yPos n + size Examples.canvas400 < offsetHeight Examples.canvas400.
Proof.
  apply (create_inside Examples.canvas400 0 100 5 (1 # 4)).
  - vm_compute. discriminate.
  - vm_compute. discriminate.
  - vm_compute. reflexivity.
  - vm_compute. reflexivity.
Defined.

Lemma unitDraws_numberOps : unitDraws MoreExamples.numberOps.
Proof.
  unfold unitDraws, MoreExamples.numberOps.
  repeat constructor; vm_compute; discriminate.
Qed.

Lemma number_heading_normalized_example :
  let n := applyAll Approx.math Examples.canvas400 40 40 MoreExamples.numberOps
             (create Examples.canvas400 0 100 5 (1 # 4)) in
  0 <= angle n /\ angle n < 360.
Proof.
  apply (number_heading_normalized Approx.math Examples.canvas400 40 40
           0 100 5 (1 # 4) MoreExamples.numberOps).
  - split; [vm_compute; discriminate|vm_compute; reflexivity].
  - exact unitDraws_numberOps.
Defined.

Lemma number_stays_inside_example :
  let n := applyAll Approx.math Examples.canvas400 40 40 MoreExamples.shownOps
             (create Examples.canvas400 0 100 5 (1 # 4)) in
  let n' := move Approx.math Examples.canvas400 40 40 (1 # 2) n in
  boxInside Examples.canvas400 40 40 n /\
  xPos n' = xPos n + Math_cos Approx.math (angle n * Math_PI Approx.math / 180) /\
  yPos n' = yPos n + Math_sin Approx.math (angle n * Math_PI Approx.math / 180) /\
  angle n' = angle n.
Proof.
  cbv zeta.
  destruct (number_stays_inside Approx.math Examples.canvas400 40 40
              0 100 5 (1 # 4) MoreExamples.shownOps) as [H1 H2].
  - vm_compute. discriminate.
  - vm_compute. discriminate.
  - vm_compute. reflexivity.
  - vm_compute. reflexivity.
  - split; vm_compute; discriminate.
  - split; vm_compute; discriminate.
  - split; [exact H1|].
    pose proof (H2 (1 # 2)) as H. cbv zeta in H. destruct H as (_ & Hadv & _).
    apply Hadv; [reflexivity|]. repeat split; vm_compute; reflexivity.
Defined.

End NumberFacts.

(* ================================================================== *)
(** ** Facts about refreshNumbers *)
(* ================================================================== *)

Lemma Qfloor_unique (q : Q) (z : Z) :
  inject_Z z <= q -> q < inject_Z z + 1 -> Qfloor q = z.
Proof.
  intros H1 H2.
  pose proof (Qfloor_le q) as Hlo. pose proof (Qlt_floor q) as Hhi.
  rewrite inject_Z_plus in Hhi. change (inject_Z 1) with 1 in Hhi.
  assert (Ha : inject_Z (Qfloor q) < inject_Z (z + 1)).
  { rewrite inject_Z_plus. change (inject_Z 1) with 1. lra. }
  assert (Hb : inject_Z z < inject_Z (Qfloor q + 1)).
  { rewrite inject_Z_plus. change (inject_Z 1) with 1. lra. }
  rewrite <- Zlt_Qlt in Ha, Hb.
  generalize dependent (Qfloor q). intros f _ _ Ha Hb. lia.
Qed.

(** Below the divisor the remainder is the number itself. *)
Lemma Qrem_small (v n : Q) : 0 <= v -> v < n -> Qrem v n == v.
Proof.
  intros H1 H2. unfold Qrem.
  assert (Hn : 0 < n) by lra.
  assert (Hq1 : 0 <= v / n) by (apply Qle_shift_div_l; lra).
  assert (Hq2 : v / n < 1) by (apply Qlt_shift_div_r; lra).
  rewrite Qtrunc_floor by lra.
  rewrite (Qfloor_unique (v / n) 0) by (change (inject_Z 0) with 0; lra).
  change (inject_Z 0) with 0. ring.
Qed.

(** From the divisor up to twice the divisor the remainder takes one
    divisor off. *)
Lemma Qrem_second (v n : Q) : n <= v -> v < 2 * n -> 0 < n -> Qrem v n == v - n.
Proof.
  intros H1 H2 Hn. unfold Qrem.
  assert (Hq1 : 1 <= v / n) by (apply Qle_shift_div_l; lra).
  assert (Hq2 : v / n < 2) by (apply Qlt_shift_div_r; lra).
  rewrite Qtrunc_floor by lra. rewrite (Qfloor_one _ Hq1 Hq2).
  change (inject_Z 1) with 1. ring.
Qed.

Module CaptchaFacts.
Import Captcha.

Section WithCanvas.

Variable canvas : Canvas.

(** X8: on a canvas of positive width and height, a step that is not
    negative and stays below the perimeter plus the width gives a point on
    the border of the canvas. *)
Theorem spawnPoint_onBorder (step : Q) :
  0 < offsetWidth canvas -> 0 < offsetHeight canvas ->
  0 <= step ->
  step < (offsetWidth canvas * 2) + (offsetHeight canvas * 2) + offsetWidth canvas ->
  onBorder canvas
    (spawnPoint canvas ((offsetWidth canvas * 2) + (offsetHeight canvas * 2)) step).
Proof.
  intros HW HH H0 H1. unfold spawnPoint, onBorder. cbv zeta.
  set (W := offsetWidth canvas) in *. set (H := offsetHeight canvas) in *.
  set (per := W * 2 + H * 2) in *.
  assert (Hrem : (step < per /\ Qrem step per == step) \/
                 (per <= step /\ Qrem step per == step - per)).
  { destruct (Qlt_le_dec step per) as [Hlt|Hge].
    - left. split; [exact Hlt|]. apply Qrem_small; assumption.
    - right. split; [exact Hge|]. apply Qrem_second; unfold per in *; lra. }
  destruct (Qltb (Qrem step per) W) eqn:E1.
  - apply Qltb_lt in E1. left. cbn [x y].
    assert (0 <= Qrem step per) by (destruct Hrem as [[? Hr]|[? Hr]]; lra).
    repeat split; lra.
  - apply Qltb_ge in E1.
    assert (Hlt : step < per /\ W <= step).
    { destruct Hrem as [[? Hr]|[? Hr]]; [lra|]. unfold per in *. lra. }
    destruct Hlt as [Hlt HWs].
    destruct (Qltb step (W + H)) eqn:E2.
    + apply Qltb_lt in E2. right. left. cbn [x y].
      repeat split; lra.
    + apply Qltb_ge in E2. destruct (Qltb step (W * 2 + H)) eqn:E3.
      * apply Qltb_lt in E3. right. right. left. cbn [x y].
        repeat split; lra.
      * apply Qltb_ge in E3. right. right. right. cbn [x y].
        unfold per in *. repeat split; lra.
Qed.

Lemma canvas_positive :
  Number.size canvas + 10 < offsetWidth canvas ->
  Number.size canvas + 10 < offsetHeight canvas ->
  0 < offsetWidth canvas /\ 0 < offsetHeight canvas.
Proof.
  unfold Number.size.
  destruct (Q.min_spec (offsetWidth canvas) (offsetHeight canvas)) as [[Hlt E]|[Hle E]];
    rewrite E; intros H1 H2; lra.
Qed.

(** The coordinates of a spawn point are never negative. *)
Lemma spawnPoint_nonneg (step : Q) :
  0 < offsetWidth canvas -> 0 < offsetHeight canvas ->
  0 <= step ->
  step < (offsetWidth canvas * 2) + (offsetHeight canvas * 2) + offsetWidth canvas ->
  0 <= x (spawnPoint canvas ((offsetWidth canvas * 2) + (offsetHeight canvas * 2)) step) /\
  0 <= y (spawnPoint canvas ((offsetWidth canvas * 2) + (offsetHeight canvas * 2)) step).
Proof.
  intros HW HH H0 H1. unfold spawnPoint. cbv zeta.
  set (W := offsetWidth canvas) in *. set (H := offsetHeight canvas) in *.
  set (per := W * 2 + H * 2) in *.
  destruct (Qltb (Qrem step per) W) eqn:E1.
  - cbn [x y]. split; [|lra].
    destruct (Qrem_range step per H0) as [Hr _]; [unfold per; lra|exact Hr].
  - apply Qltb_ge in E1.
    assert (Hlt : step < per).
    { destruct (Qlt_le_dec step per) as [Hlt|Hge]; [exact Hlt|].
      pose proof (Qrem_second step per Hge) as Hr. unfold per in *. lra. }
    assert (HWs : W <= step) by (rewrite (Qrem_small step per H0 Hlt) in E1; exact E1).
    destruct (Qltb step (W + H)) eqn:E2; [cbn [x y]; lra|].
    apply Qltb_ge in E2. destruct (Qltb step (W * 2 + H)) eqn:E3.
    + apply Qltb_lt in E3. cbn [x y]. lra.
    + cbn [x y]. unfold per in *. lra.
Qed.

Lemma placeNumbers_placed (stepSize : Q) (draws : nat -> Q) :
  Number.size canvas + 10 < offsetWidth canvas ->
  Number.size canvas + 10 < offsetHeight canvas ->
  0 < stepSize ->
  forall (values : list Z) (step : Q) (i : nat),
    0 <= step ->
    step + inject_Z (Z.of_nat (length values)) * stepSize
      <= offsetWidth canvas + ((offsetWidth canvas * 2) + (offsetHeight canvas * 2)) ->
    let nums :=
      placeNumbers canvas values
        ((offsetWidth canvas * 2) + (offsetHeight canvas * 2)) stepSize step draws i in
    map Number.value nums = values /\ Forall (placed canvas) nums.
Proof.
  intros HW HH Hs. destruct (canvas_positive HW HH) as [HW0 HH0].
  induction values as [|v rest IH]; intros step i H0 Hle; cbv zeta.
  - simpl. split; [reflexivity|constructor].
  - cbn [placeNumbers]. cbn [length] in Hle.
    rewrite Nat2Z.inj_succ, <- Z.add_1_r, inject_Z_plus in Hle.
    change (inject_Z 1) with 1 in Hle.
    assert (Hn : 0 <= inject_Z (Z.of_nat (length rest))).
    { change 0 with (inject_Z 0). rewrite <- Zle_Qle. lia. }
    assert (Hstep : step <
              offsetWidth canvas * 2 + offsetHeight canvas * 2 + offsetWidth canvas)
      by nra.
    destruct (spawnPoint_nonneg step HW0 HH0 H0 Hstep) as [Hx Hy].
    destruct (NumberFacts.render_inside canvas _ _ Hx Hy HW HH) as (A5 & A6 & A7 & A8).
    destruct (IH (step + stepSize) (S i)) as [IH1 IH2]; [lra|nra|].
    rewrite NumberFacts.create_fields. split.
    + cbn [map Number.value]. rewrite IH1. reflexivity.
    + constructor; [|exact IH2]. unfold placed.
      cbn [Number.hidden Number.xPos Number.yPos Number.originX Number.originY].
      repeat split; assumption.
Qed.

(** X9: on a canvas wider and higher than [size + 10], [refreshNumbers]
    returns one number for each value the generator returned, in the same
    order, each hidden, at its origin and strictly inside the canvas. *)
Theorem refreshNumbers_places (fuel : nat) (rng : Generator.Rng) (pos : nat)
    (numNumbers : nat) (MAX_SUM : Z) (r0 : Q) (draws : nat -> Q)
    (nums : list Number.State) :
  Number.size canvas + 10 < offsetWidth canvas ->
  Number.size canvas + 10 < offsetHeight canvas ->
  0 <= r0 /\ r0 < 1 ->
  refreshNumbers canvas fuel rng pos numNumbers MAX_SUM r0 draws = Some nums ->
  Generator.generateSpecialArray fuel rng pos numNumbers MAX_SUM
    = Some (map Number.value nums) /\
  length nums = numNumbers /\
  Forall (placed canvas) nums.
Proof.
  intros HW HH Hr H. destruct (canvas_positive HW HH) as [HW0 HH0].
  unfold refreshNumbers in H.
  destruct (Generator.generateSpecialArray fuel rng pos numNumbers MAX_SUM)
    as [values|] eqn:E; [|discriminate].
  injection H as <-.
  assert (Hlen : length values = numNumbers).
  { apply GeneratorFacts.generate_inv in E. destruct E as (p & -> & _).
    rewrite length_map, length_seq. reflexivity. }
  destruct values as [|v0 rest].
  - simpl. rewrite <- Hlen. repeat split; constructor.
  - set (values := v0 :: rest) in *.
    assert (Hn : 0 < inject_Z (Z.of_nat (length values))).
    { change 0 with (inject_Z 0). rewrite <- Zlt_Qlt. simpl. lia. }
    set (per := offsetWidth canvas * 2 + offsetHeight canvas * 2) in *.
    assert (Hss : 0 < per / inject_Z (Z.of_nat (length values))).
    { apply Qlt_shift_div_l; [exact Hn|]. unfold per. lra. }
    assert (Hsum : inject_Z (Z.of_nat (length values))
                   * (per / inject_Z (Z.of_nat (length values))) == per)
      by (field; lra).
    destruct (placeNumbers_placed (per / inject_Z (Z.of_nat (length values))) draws
                HW HH Hss values (r0 * offsetWidth canvas) 0%nat) as [P1 P2].
    + nra.
    + fold per. rewrite Hsum. nra.
    + fold per in P1, P2.
      pose proof (f_equal (@length Z) P1) as Hl. rewrite length_map in Hl.
      rewrite P1. split; [reflexivity|]. split; [|exact P2].
      rewrite Hl. exact Hlen.
Qed.

End WithCanvas.

Lemma spawnPoint_onBorder_example :
  onBorder Examples.canvas400 (spawnPoint Examples.canvas400 (400 * 2 + 400 * 2) 1700).
Proof.
  apply (spawnPoint_onBorder Examples.canvas400 1700).
  - vm_compute. reflexivity.
  - vm_compute. reflexivity.
  - vm_compute. discriminate.
  - vm_compute. reflexivity.
Defined.

Lemma refreshNumbers_places_example :
  Generator.generateSpecialArray 1 Generator.exampleRng 0 6 100
    = Some (map Number.value MoreExamples.exampleNumbers) /\
  length MoreExamples.exampleNumbers = 6%nat /\
  Forall (placed Examples.canvas400) MoreExamples.exampleNumbers.
Proof.
  apply (refreshNumbers_places Examples.canvas400 1 Generator.exampleRng 0 6 100
           (1 # 2) (fun _ => 1 # 4) MoreExamples.exampleNumbers).
  - vm_compute. reflexivity.
  - vm_compute. reflexivity.
  - split; [vm_compute; discriminate|vm_compute; reflexivity].
  - vm_compute. reflexivity.
Defined.

End CaptchaFacts.

(* ================================================================== *)
(** ** Facts about the equation *)
(* ================================================================== *)

Module EquationFacts.
Import CaptchaEquation Generator GeneratorNotions GeneratorFacts GeneratorMore.

Local Open Scope Z_scope.

Lemma empty_iff (v : String.string) : empty v = true <-> v = String.EmptyString.
Proof. unfold empty. apply String.eqb_eq. Qed.

Lemma decimal_printsAndParses : printsAndParses decimalToString decimalParseInt.
Proof.
  intros v.
  assert (Hp : decimalParseInt (decimalToString v) = Some v).
  { unfold decimalParseInt, decimalToString.
    rewrite DecimalString.NilZero.isi.
    - simpl. rewrite DecimalZ.of_to. reflexivity.
    - destruct v; simpl; try discriminate.
      intros [= E]. apply (DecimalPos.Unsigned.to_uint_nonnil _ E).
    - destruct v; simpl; try discriminate.
      intros [= E]. apply (DecimalPos.Unsigned.to_uint_nonnil _ E). }
  split; [|exact Hp].
  intros E. rewrite E in Hp. discriminate.
Qed.

Section WithStrings.

Variable toString : Z -> String.string.
Variable parseInt : String.string -> option Z.

Lemma empty_toString (v : Z) :
  printsAndParses toString parseInt -> empty (toString v) = false.
Proof.
  intros H. destruct (empty (toString v)) eqn:E; [|reflexivity].
  apply empty_iff in E. destruct (H v) as [Hne _]. contradiction.
Qed.

(** X10: while the third input is empty both [solved] and [failed] are
    false; once it is not empty exactly one of them is true, whatever the
    inputs hold. *)
Theorem solved_or_failed (inputs : State) (sum : String.string) :
  nth_error inputs 2 = Some sum ->
  (empty sum = true ->
   solved parseInt inputs = Some false /\ failed parseInt inputs = Some false) /\
  (empty sum = false ->
   exists b, solved parseInt inputs = Some b /\
             failed parseInt inputs = Some (negb b)).
Proof.
  intros H. unfold solved, failed.
  destruct inputs as [|l [|r [|s rest]]]; try discriminate.
  simpl in H. injection H as ->. simpl.
  split; intros E; rewrite E.
  - split; reflexivity.
  - eexists. split; reflexivity.
Qed.

(** X11: [addInput] writes the value into the first empty input and leaves
    every other input as it was; when no input is empty it changes
    nothing. *)
Theorem addInput_first_empty (v : Z) (inputs : State) :
  (Forall (fun s => s <> String.EmptyString) inputs /\
   addInput toString v inputs = inputs) \/
  (exists before after,
     inputs = before ++ String.EmptyString :: after /\
     Forall (fun s => s <> String.EmptyString) before /\
     addInput toString v inputs = before ++ toString v :: after).
Proof.
  induction inputs as [|s rest IH]; simpl.
  - left. split; [constructor|reflexivity].
  - destruct (empty s) eqn:E.
    + apply empty_iff in E. subst s. right. exists [], rest.
      repeat split. constructor.
    + assert (Hs : s <> String.EmptyString).
      { intros ->. discriminate. }
      destruct IH as [[Hall Heq]|(before & after & -> & Hall & Heq)].
      * left. split; [constructor; assumption|]. rewrite Heq. reflexivity.
      * right. exists (s :: before), after. repeat split.
        -- constructor; assumption.
        -- rewrite Heq. reflexivity.
Qed.

(** Three values added to a reset equation: what [solved] answers. *)
Lemma enter_three_solved (inputs : State) (a b c : Z) :
  printsAndParses toString parseInt ->
  (3 <= length inputs)%nat ->
  solved parseInt (enter toString [a; b; c] inputs) = Some (a + b =? c).
Proof.
  intros Hpp Hlen.
  destruct inputs as [|i0 [|i1 [|i2 rest]]]; simpl in Hlen; try lia.
  unfold enter, reset, solved. simpl.
  rewrite !(empty_toString _ Hpp). simpl.
  rewrite !(empty_toString _ Hpp). simpl.
  destruct (Hpp a) as [_ Ha]. destruct (Hpp b) as [_ Hb]. destruct (Hpp c) as [_ Hc].
  rewrite Ha, Hb, Hc. reflexivity.
Qed.

(** X12: on a reset equation with at least three inputs, neither [solved]
    nor [failed] is true after one or two values; after three values
    [solved] is true exactly when the first two sum to the third, and
    [failed] exactly when they do not. *)
Theorem equation_three_values (inputs : State) (a b c : Z) :
  printsAndParses toString parseInt ->
  (3 <= length inputs)%nat ->
  solved parseInt (enter toString [a] inputs) = Some false /\
  failed parseInt (enter toString [a] inputs) = Some false /\
  solved parseInt (enter toString [a; b] inputs) = Some false /\
  failed parseInt (enter toString [a; b] inputs) = Some false /\
  solved parseInt (enter toString [a; b; c] inputs) = Some (a + b =? c) /\
  failed parseInt (enter toString [a; b; c] inputs) = Some (negb (a + b =? c)).
Proof.
  intros Hpp Hlen.
  destruct inputs as [|i0 [|i1 [|i2 rest]]]; simpl in Hlen; try lia.
  unfold enter, reset, solved, failed. simpl.
  rewrite !(empty_toString _ Hpp). simpl.
  rewrite !(empty_toString _ Hpp). simpl.
  destruct (Hpp a) as [_ Ha]. destruct (Hpp b) as [_ Hb]. destruct (Hpp c) as [_ Hc].
  rewrite Ha, Hb, Hc. simpl. repeat split.
Qed.


(** With a count of one, two solving position triples are the same. *)
Lemma solving_triple_unique (arr : list Z) (i j k i' j' k' : nat) :
  countSolving arr = 1%nat ->
  is_triple (length arr) i j k -> sum_relation arr i j k ->
  is_triple (length arr) i' j' k' -> sum_relation arr i' j' k' ->
  i' = i /\ j' = j /\ k' = k.
Proof.
  intros Hc Ht Hr Ht' Hr'. rewrite countSolving_filter in Hc.
  destruct (filter_length_one _ _ (NoDup_triples (length arr)) Hc)
    as (t & _ & _ & Huniq).
  assert (E1 : (i, j, k) = t).
  { apply Huniq; [apply in_triples; exact Ht|apply solves_iff; exact Hr]. }
  assert (E2 : (i', j', k') = t).
  { apply Huniq; [apply in_triples; exact Ht'|apply solves_iff; exact Hr']. }
  rewrite <- E1 in E2. inversion E2. auto.
Qed.

(** Two ways of picking operands and sum from a returned array use the same
    sum and the same operands. *)
Lemma solving_choice_unique (arr : list Z) (p q r p' q' r' : nat) :
  countSolving arr = 1%nat ->
  (forall i, (i < length arr)%nat -> 1 <= at_ arr i) ->
  distinct3 (length arr) p q r -> distinct3 (length arr) p' q' r' ->
  at_ arr p + at_ arr q = at_ arr r ->
  at_ arr p' + at_ arr q' = at_ arr r' ->
  r' = r /\ ((p' = p /\ q' = q) \/ (p' = q /\ q' = p)).
Proof.
  intros Hc Hpos (Hp & Hq & Hr & Hpq & Hpr & Hqr)
         (Hp' & Hq' & Hr' & Hpq' & Hpr' & Hqr') Hsum Hsum'.
  pose proof (Hpos p Hp). pose proof (Hpos q Hq). pose proof (Hpos r Hr).
  pose proof (Hpos p' Hp'). pose proof (Hpos q' Hq'). pose proof (Hpos r' Hr').
  assert (Ho : (p < q < r \/ p < r < q \/ q < p < r \/
                q < r < p \/ r < p < q \/ r < q < p)%nat) by lia.
  assert (Ho' : (p' < q' < r' \/ p' < r' < q' \/ q' < p' < r' \/
                 q' < r' < p' \/ r' < p' < q' \/ r' < q' < p')%nat) by lia.
  destruct Ho as [Ho|[Ho|[Ho|[Ho|[Ho|Ho]]]]];
  destruct Ho' as [Ho'|[Ho'|[Ho'|[Ho'|[Ho'|Ho']]]]];
  match goal with
  | Ho : (?i < ?j < ?k)%nat, Ho' : (?i' < ?j' < ?k')%nat |- _ =>
      destruct (solving_triple_unique arr i j k i' j' k' Hc) as (E1 & E2 & E3);
        [ unfold is_triple; lia | unfold sum_relation; lia
        | unfold is_triple; lia | unfold sum_relation; lia | ]
  end;
  subst; lia.
Qed.

(** X13: the numbers of a returned array, a reset equation with at least
    three inputs: if entering the numbers at three different positions
    solves the equation, any other choice of three different positions that
    solves it enters the same number last and the same two numbers before
    it, in either order. *)
Theorem solution_unique_up_to_operands (fuel : nat) (rng : Rng)
    (pos arrayLength : nat) (maxSum : Z) (arr : list Z) (inputs : State)
    (p q r p' q' r' : nat) :
  unit_interval rng -> 1 <= maxSum ->
  generateSpecialArray fuel rng pos arrayLength maxSum = Some arr ->
  printsAndParses toString parseInt ->
  (3 <= length inputs)%nat ->
  distinct3 (length arr) p q r -> distinct3 (length arr) p' q' r' ->
  solved parseInt (enter toString [at_ arr p; at_ arr q; at_ arr r] inputs)
    = Some true ->
  solved parseInt (enter toString [at_ arr p'; at_ arr q'; at_ arr r'] inputs)
    = Some true ->
  r' = r /\ ((p' = p /\ q' = q) \/ (p' = q /\ q' = p)).
Proof.
  intros Hrng HM Hgen Hpp Hlen Hd Hd' Hs Hs'.
  pose proof (enter_three_solved inputs (at_ arr p) (at_ arr q) (at_ arr r) Hpp Hlen)
    as E.
  pose proof (enter_three_solved inputs (at_ arr p') (at_ arr q') (at_ arr r') Hpp Hlen)
    as E'.
  rewrite E in Hs. rewrite E' in Hs'.
  injection Hs as Hs. injection Hs' as Hs'.
  apply Z.eqb_eq in Hs, Hs'.
  pose proof (generate_positive _ _ _ _ _ _ Hrng HM Hgen) as Hpos.
  apply generate_inv in Hgen. destruct Hgen as (_ & _ & _ & Hc).
  apply (solving_choice_unique arr p q r p' q' r'); assumption.
Qed.

End WithStrings.

Lemma solved_or_failed_example :
  (empty (decimalToString 16) = true ->
   solved decimalParseInt MoreExamples.solvedInputs = Some false /\
   failed decimalParseInt MoreExamples.solvedInputs = Some false) /\
  (empty (decimalToString 16) = false ->
   exists b, solved decimalParseInt MoreExamples.solvedInputs = Some b /\
             failed decimalParseInt MoreExamples.solvedInputs = Some (negb b)).
Proof.
  apply (solved_or_failed decimalParseInt MoreExamples.solvedInputs
           (decimalToString 16)).
  reflexivity.
Defined.

Lemma equation_three_values_example :
  solved decimalParseInt (enter decimalToString [1] MoreExamples.threeInputs)
    = Some false /\
  failed decimalParseInt (enter decimalToString [1] MoreExamples.threeInputs)
    = Some false /\
  solved decimalParseInt (enter decimalToString [1; 15] MoreExamples.threeInputs)
    = Some false /\
  failed decimalParseInt (enter decimalToString [1; 15] MoreExamples.threeInputs)
    = Some false /\
  solved decimalParseInt (enter decimalToString [1; 15; 16] MoreExamples.threeInputs)
    = Some (1 + 15 =? 16) /\
  failed decimalParseInt (enter decimalToString [1; 15; 16] MoreExamples.threeInputs)
    = Some (negb (1 + 15 =? 16)).
Proof.
  apply (equation_three_values decimalToString decimalParseInt
           MoreExamples.threeInputs 1 15 16).
  - exact decimal_printsAndParses.
  - simpl. lia.
Defined.

Lemma solution_unique_up_to_operands_example :
  5%nat = 5%nat /\ ((3%nat = 2%nat /\ 2%nat = 3%nat) \/ (3%nat = 3%nat /\ 2%nat = 2%nat)).
Proof.
  apply (solution_unique_up_to_operands decimalToString decimalParseInt
           1 exampleRng 0 6 100 [52; 27; 1; 15; 18; 16] MoreExamples.threeInputs
           2 3 5 3 2 5).
  - exact exampleRng_unit.
  - lia.
  - reflexivity.
  - exact decimal_printsAndParses.
  - simpl. lia.
  - unfold distinct3. simpl. lia.
  - unfold distinct3. simpl. lia.
  - reflexivity.
  - reflexivity.
Defined.

End EquationFacts.

(* ================================================================== *)
(** ** More facts about the event loop *)
(* ================================================================== *)

Module EventLoopMore.
Import EventLoop EventLoopNotions EventLoopFacts.

Local Open Scope Z_scope.

Section WithCallbacks.

Variable Fn : Type.
Variable App : Type.
Variable cb : Fn -> Args -> App -> App * list (Cmd Fn).

(** *** A paused loop *)

Lemma halted_stable (L : list (Fired Fn)) : Stable (@halted Fn App L).
Proof. split; intros; assumption. Qed.

Lemma run_halted (L : list (Fired Fn)) (s : State Fn App) :
  halted L s -> run cb s = s.
Proof.
  intros (_ & Hp & Hr). unfold run. rewrite Hp, Hr. reflexivity.
Qed.

(** X14: after [pause()], as long as nobody calls [resume()], no callback
    is invoked, however many ticks, input events and registrations follow,
    and a tick leaves the whole state as it is. *)
Theorem paused_silent (s : State Fn App) (sts : list (Step Fn)) :
  noResume sts ->
  log (steps cb sts (pause s)) = log s /\
  paused (steps cb sts (pause s)) = true /\
  run cb (steps cb sts (pause s)) = steps cb sts (pause s).
Proof.
  intros Hq.
  assert (H0 : halted (log s) (pause s)) by (repeat split).
  assert (H : halted (log s) (steps cb sts (pause s))).
  { revert H0. generalize (pause s) as t. unfold steps.
    induction Hq as [|st sts Hst Hq IH]; intros t Ht; simpl; [exact Ht|].
    apply IH. destruct st as [|e|c]; simpl.
    - rewrite (run_halted _ _ Ht). exact Ht.
    - apply (deliver_stable _ _ _ (halted_stable _)). exact Ht.
    - destruct c; simpl; try exact Ht.
      + destruct Ht as (HL & _ & _). repeat split. exact HL.
      + exfalso. apply Hst. reflexivity. }
  destruct H as (HL & Hp & Hr). split; [exact HL|]. split; [exact Hp|].
  apply (run_halted (log s)). repeat split; assumption.
Qed.

(** *** Key repeat *)

Lemma armKey_fst (key : Z) (l : EventHandler Fn) (ls : list (EventHandler Fn))
    (s : State Fn App) :
  fst (armKeyListeners key (l :: ls) s) =
  if isKey (type l) && codeIs (code l) key && unarmed (id l) then
    setId (Some (nextId s + 1)%nat) l
      :: fst (armKeyListeners key ls (snd (add (type l) (code l) (fn l) (repeat l) s)))
  else l :: fst (armKeyListeners key ls s).
Proof.
  simpl. destruct (isKey (type l) && codeIs (code l) key && unarmed (id l)).
  - destruct (armKeyListeners key ls _) as [rest' s2]. reflexivity.
  - destruct (armKeyListeners key ls s) as [rest' s2]. reflexivity.
Qed.

Lemma armKey_armed (key : Z) (ls : list (EventHandler Fn)) :
  forall (s : State Fn App) (l : EventHandler Fn),
    In l (fst (armKeyListeners key ls s)) ->
    isKey (type l) && codeIs (code l) key && unarmed (id l) = false.
Proof.
  induction ls as [|l0 ls IH]; intros s l Hin; [contradiction|].
  rewrite armKey_fst in Hin.
  destruct (isKey (type l0) && codeIs (code l0) key && unarmed (id l0)) eqn:E.
  - destruct Hin as [<-|Hin]; [|eapply IH; exact Hin].
    simpl. rewrite Nat.add_1_r. simpl. apply andb_false_r.
  - destruct Hin as [<-|Hin]; [exact E|eapply IH; exact Hin].
Qed.

Lemma armKey_noop (key : Z) (ls : list (EventHandler Fn)) (s : State Fn App) :
  (forall l, In l ls ->
     isKey (type l) && codeIs (code l) key && unarmed (id l) = false) ->
  armKeyListeners key ls s = (ls, s).
Proof.
  induction ls as [|l ls IH]; intros H; simpl; [reflexivity|].
  rewrite (H l) by (left; reflexivity).
  rewrite IH by (intros l' Hl'; apply H; right; exact Hl'). reflexivity.
Qed.

(** X15: a second keydown for a key that is already down changes nothing:
    no handler is added for a listener that is armed. *)
Theorem onKeyDown_idempotent (key : Z) (s : State Fn App) :
  onKeyDown key (onKeyDown key s) = onKeyDown key s.
Proof.
  unfold onKeyDown at 2 3.
  pose proof (armKey_armed key (keyListeners s) s) as Harmed.
  destruct (armKeyListeners key (keyListeners s) s) as [ls s'].
  simpl in Harmed. unfold onKeyDown. cbn [keyListeners setKeyListeners].
  rewrite armKey_noop by exact Harmed. reflexivity.
Qed.

(** *** Releasing the pointer *)

Lemma nodup_map_inj {A B} (f : A -> B) (l : list A) (a b : A) :
  NoDup (map f l) -> In a l -> In b l -> f a = f b -> a = b.
Proof.
  induction l as [|c l IH]; simpl; intros Hnd Ha Hb E; [contradiction|].
  inversion Hnd as [|? ? Hnot Hnd']; subst.
  destruct Ha as [->|Ha], Hb as [->|Hb]; auto.
  - exfalso. apply Hnot. rewrite E. apply in_map. exact Hb.
  - exfalso. apply Hnot. rewrite <- E. apply in_map. exact Ha.
Qed.

Lemma spliceFirst_filter (i : option nat) (hs : list (EventHandler Fn)) :
  NoDup (map id hs) ->
  spliceFirst i hs = filter (fun h => negb (idEq (id h) i)) hs.
Proof.
  induction hs as [|h hs IH]; simpl; intros Hnd; [reflexivity|].
  inversion Hnd as [|? ? Hnot Hnd']; subst.
  destruct (idEq (id h) i) eqn:E; simpl.
  - apply idEq_eq in E. symmetry. apply forallb_filter_id.
    apply forallb_forall. intros h' Hh'. apply negb_true_iff.
    destruct (idEq (id h') i) eqn:E'; [|reflexivity].
    apply idEq_eq in E'. exfalso. apply Hnot. rewrite E, <- E'.
    apply in_map. exact Hh'.
  - rewrite IH by exact Hnd'. reflexivity.
Qed.

Lemma filter_filter {A} (f g : A -> bool) (l : list A) :
  filter f (filter g l) = filter (fun a => g a && f a) l.
Proof.
  induction l as [|a l IH]; simpl; [reflexivity|].
  destruct (g a); simpl; [destruct (f a)|]; rewrite IH; reflexivity.
Qed.

Lemma NoDup_filter_map {A B} (f : A -> B) (g : A -> bool) (l : list A) :
  NoDup (map f l) -> NoDup (map f (filter g l)).
Proof.
  induction l as [|a l IH]; simpl; intros H; [exact H|].
  inversion H as [|? ? Hnot Hnd]; subst.
  destruct (g a); simpl; [constructor|]; auto.
  intros Hin. apply Hnot. rewrite in_map_iff in *.
  destruct Hin as (b & E & Hb). exists b. split; [exact E|].
  apply filter_In in Hb. apply Hb.
Qed.

Lemma releasePass_handlers (snap : list (EventHandler Fn)) :
  forall s : State Fn App,
    NoDup (map id (handlers s)) ->
    handlers (fold_left
                (fun acc h => if isPointer (type h) then remove (id h) acc else acc)
                snap s) =
      filter (fun h =>
                negb (existsb (fun h0 => isPointer (type h0) && idEq (id h) (id h0)) snap))
        (handlers s) /\
    curPos (fold_left
              (fun acc h => if isPointer (type h) then remove (id h) acc else acc)
              snap s) = curPos s.
Proof.
  induction snap as [|h0 snap IH]; intros s Hnd; simpl.
  - split; [|reflexivity]. symmetry. apply forallb_filter_id.
    apply forallb_forall. reflexivity.
  - destruct (isPointer (type h0)) eqn:E; simpl.
    + destruct (IH (remove (id h0) s)) as [H1 H2].
      { simpl. apply spliceFirst_NoDup. exact Hnd. }
      rewrite H1, H2. split; [|reflexivity]. simpl.
      rewrite spliceFirst_filter by exact Hnd. rewrite filter_filter.
      apply filter_ext. intros h. rewrite negb_orb. reflexivity.
    + destruct (IH s Hnd) as [H1 H2]. rewrite H1, H2. split; reflexivity.
Qed.

(** X16: in a well-formed loop, releasing the pointer forgets the tracked
    position and removes exactly the mouse and touch handlers; the key
    handlers stay, in their order. *)
Theorem onTouchEnd_clears (s : State Fn App) :
  wf s ->
  curPos (onTouchEnd s) = None /\
  handlers (onTouchEnd s) =
    filter (fun h => negb (isPointer (type h))) (handlers s).
Proof.
  intros [Hnd _]. unfold onTouchEnd.
  set (s0 := match curPos s with Some _ => setCurPos None s | None => s end).
  assert (E0 : handlers s0 = handlers s /\ curPos s0 = None).
  { unfold s0. destruct (curPos s) eqn:E; simpl; auto. }
  destruct E0 as [Eh Ec].
  destruct (releasePass_handlers (handlers s0) s0) as [H1 H2].
  { rewrite Eh. exact Hnd. }
  rewrite H1, H2, Ec, Eh. split; [reflexivity|].
  apply filter_ext_in. intros h Hh. f_equal.
  destruct (isPointer (type h)) eqn:E.
  - apply existsb_exists. exists h. split; [exact Hh|].
    rewrite E. simpl. apply idEq_eq. reflexivity.
  - destruct (existsb _ (handlers s)) eqn:Ex; [|reflexivity].
    apply existsb_exists in Ex. destruct Ex as (h0 & Hh0 & Hc).
    apply andb_true_iff in Hc. destruct Hc as [Hp Hi]. apply idEq_eq in Hi.
    assert (h = h0) by (apply (nodup_map_inj id (handlers s)); assumption).
    subst h0. congruence.
Qed.

(** *** A repeating handler *)

Lemma spliceFirst_keeps (i : option nat) (hs : list (EventHandler Fn))
    (h : EventHandler Fn) :
  In h hs -> id h <> i -> In h (spliceFirst i hs).
Proof.
  induction hs as [|h0 hs IH]; simpl; intros Hin Hne; [contradiction|].
  destruct (idEq (id h0) i) eqn:E.
  - destruct Hin as [->|Hin]; [|exact Hin].
    apply idEq_eq in E. contradiction.
  - destruct Hin as [->|Hin]; [left; reflexivity|right; apply IH; assumption].
Qed.

Lemma handlerPass_keeps (h : EventHandler Fn) (hs : list (EventHandler Fn)) :
  forall s : State Fn App,
    (forall h0, In h0 hs -> repeat h0 = false -> id h0 <> id h) ->
    In h (handlers s) ->
    In h (handlers (fold_left (fireHandler cb) hs s)).
Proof.
  induction hs as [|h0 hs IH]; intros s Hne Hin; simpl; [exact Hin|].
  apply IH; [intros h1 H1; apply Hne; right; exact H1|].
  destruct (fireHandler_frame _ _ cb s h0) as (H1 & _).
  rewrite H1. destruct (repeat h0) eqn:E; [exact Hin|].
  apply spliceFirst_keeps; [exact Hin|].
  intros E'. apply (Hne h0); [left; reflexivity|exact E|congruence].
Qed.

Lemma firedCount_once (n : nat) (p : option Point) (h : EventHandler Fn)
    (hs : list (EventHandler Fn)) :
  NoDup (map id hs) -> In h hs -> id h = Some n ->
  firedCount n (map (fun h => FiredHandler h p) hs) = 1%nat.
Proof.
  induction hs as [|h0 hs IH]; intros Hnd Hin Hid; [contradiction|].
  inversion Hnd as [|? ? Hnot Hnd']; subst. simpl.
  destruct Hin as [->|Hin].
  - rewrite Hid. simpl. rewrite Nat.eqb_refl. f_equal.
    apply firedCount_absent. intros h' Hh' E. apply Hnot.
    rewrite Hid, <- E. apply in_map. exact Hh'.
  - destruct (idEq (id h0) (Some n)) eqn:E.
    + apply idEq_eq in E. exfalso. apply Hnot. rewrite E, <- Hid.
      apply in_map. exact Hin.
    + apply IH; assumption.
Qed.

(** X17: a well-formed loop that is running, a registered handler with
    [repeat = true]: one run calls it exactly once (the callbacks' state is
    the result of applying the callbacks fired before it, its own callback
    once, and those fired after it) and it is still registered afterwards. *)
Theorem repeating_handler_stays (s : State Fn App) (h : EventHandler Fn) (n : nat) :
  wf s -> running s -> In h (handlers s) -> id h = Some n -> repeat h = true ->
  (exists before after : list (Fired Fn),
     log (run cb s) = log s ++ before ++ FiredHandler h (curPos s) :: after /\
     firedCount n before = 0%nat /\ firedCount n after = 0%nat /\
     app (run cb s) =
       replay cb after
         (fst (cb (fn h) (Some (code h, curPos s)) (replay cb before (app s))))) /\
  firedCount n (log (run cb s)) = S (firedCount n (log s)) /\
  In h (handlers (run cb s)).
Proof.
  intros Hwf Hrun Hin Hid Hrep.
  split; [apply (run_calls_handler _ _ cb s h n); assumption|].
  destruct Hwf as [Hnd Hall]. rewrite (run_running _ _ cb s Hrun). split.
  - rewrite dispatch_log, !firedCount_app, firedCount_ticks.
    rewrite (firedCount_once n _ h) by assumption. lia.
  - unfold dispatch.
    destruct (tickPass_frame _ _ cb (tickListeners s) s) as (H1 & _).
    rewrite H1. apply handlerPass_keeps; [|rewrite H1; exact Hin].
    intros h0 Hh0 Hr0 E.
    assert (h0 = h) by (apply (nodup_map_inj id (handlers s)); assumption).
    subst h0. congruence.
Qed.

(** *** Identifiers *)

Lemma nextId_stable (n : nat) : Stable (fun s : State Fn App => (n <= nextId s)%nat).
Proof. split; intros; simpl; try assumption. lia. Qed.

Lemma nextId_run (s : State Fn App) : nextId (run cb s) = nextId s.
Proof.
  unfold run. destruct (paused s || (0 <? resumeTimeRemaining s)).
  - destruct (0 <? resumeTimeRemaining s); reflexivity.
  - unfold dispatch.
    destruct (tickPass_frame _ _ cb (tickListeners s) s) as (_ & H2 & _).
    destruct (handlerPass_log _ _ cb
                (handlers (fold_left (fireTick cb) (tickListeners s) s))
                (fold_left (fireTick cb) (tickListeners s) s)) as (H & _).
    rewrite H, H2. reflexivity.
Qed.

(** X18: in every state the loop can reach, the registered handlers carry
    different identifiers, each between 1 and [nextId]; [nextId] never
    decreases, so the identifier [add] gives out next is not in use. *)
Theorem identifiers_unique (a : App) (sts : list (Step Fn)) :
  NoDup (map id (handlers (steps cb sts (init a)))) /\
  (forall h, In h (handlers (steps cb sts (init a))) ->
     exists n, id h = Some n /\ (1 <= n <= nextId (steps cb sts (init a)))%nat) /\
  (forall st, (nextId (steps cb sts (init a))
               <= nextId (step cb (steps cb sts (init a)) st))%nat) /\
  (forall t c f r,
     ~ registered (fst (add t c f r (steps cb sts (init a))))
         (steps cb sts (init a))).
Proof.
  destruct (wf_reachable _ _ cb a sts) as [Hnd Hall].
  rewrite Forall_forall in Hall.
  split; [exact Hnd|]. split; [exact Hall|]. split.
  - intros st. set (s := steps cb sts (init a)). destruct st as [|e|c]; simpl.
    + rewrite nextId_run. lia.
    + apply (deliver_stable _ _ _ (nextId_stable (nextId s))). lia.
    + destruct (exec_frame _ _ c s) as (_ & H2 & _). rewrite H2. lia.
  - intros t c f r (h & Hh & E). simpl in E.
    destruct (Hall h Hh) as (n & En & Hn). rewrite En in E. inversion E. lia.
Qed.

(** *** The tracked position *)

Lemma armMouse_curPos (pos : Point) (ls : list (EventHandler Fn)) :
  forall s : State Fn App,
    curPos (snd (armMouseListeners pos ls s)) = curPos s.
Proof.
  induction ls as [|l ls IH]; intros s; [reflexivity|].
  rewrite armMouse_snd. destruct (isPointer (type l) && unarmed (id l)).
  - rewrite IH. reflexivity.
  - apply IH.
Qed.

(** X19: the tracked position changes only to the point of a
    single-contact event that lies within the canvas rectangle, and a move
    changes it only while a press is in progress; an event with no single
    contact changes nothing at all. *)
Theorem tracked_position_within (ev : PointerEvent) (b : Rect) (s : State Fn App) :
  (curPos (onTouchStart ev b s) = curPos s \/
   (curPos (onTouchStart ev b s) = getCoordinates ev /\
    isWithin (getCoordinates ev) b = true)) /\
  (curPos (onTouchMove ev b s) = curPos s \/
   (curPos s <> None /\
    curPos (onTouchMove ev b s) = getCoordinates ev /\
    isWithin (getCoordinates ev) b = true)) /\
  (getCoordinates ev = None ->
   onTouchStart ev b s = s /\ onTouchMove ev b s = s).
Proof.
  split; [|split].
  - unfold onTouchStart. destruct (getCoordinates ev) as [p|]; [|left; reflexivity].
    destruct (isWithin (Some p) b) eqn:E; [|left; reflexivity].
    right. split; [|reflexivity].
    pose proof (armMouse_curPos p (mouseListeners (setCurPos (Some p) s))
                  (setCurPos (Some p) s)) as H.
    destruct (armMouseListeners p _ _) as [ls s']. simpl in *. exact H.
  - unfold onTouchMove. destruct (curPos s) as [c|] eqn:Ec; [|left; exact Ec].
    destruct (isWithin (getCoordinates ev) b) eqn:E; [|left; exact Ec].
    right. split; [discriminate|]. split; reflexivity.
  - intros E. unfold onTouchStart, onTouchMove. rewrite E. simpl.
    destruct (curPos s); split; reflexivity.
Qed.

End WithCallbacks.

Lemma noResume_quietSteps : noResume MoreExamples.quietSteps.
Proof.
  unfold noResume, MoreExamples.quietSteps. repeat constructor; discriminate.
Qed.

Lemma paused_silent_example :
  log (steps Examples.countingCb MoreExamples.quietSteps (pause MoreExamples.pressed))
    = [] /\
  paused (steps Examples.countingCb MoreExamples.quietSteps (pause MoreExamples.pressed))
    = true /\
  run Examples.countingCb
      (steps Examples.countingCb MoreExamples.quietSteps (pause MoreExamples.pressed))
    = steps Examples.countingCb MoreExamples.quietSteps (pause MoreExamples.pressed).
Proof.
  apply (paused_silent nat nat Examples.countingCb MoreExamples.pressed
           MoreExamples.quietSteps).
  exact noResume_quietSteps.
Defined.

Lemma wf_pressed : wf MoreExamples.pressed.
Proof. apply (wf_reachable nat nat Examples.countingCb 0%nat MoreExamples.pressAll). Qed.

Lemma onTouchEnd_clears_example :
  curPos (onTouchEnd MoreExamples.pressed) = None /\
  handlers (onTouchEnd MoreExamples.pressed) =
    filter (fun h => negb (isPointer (type h))) (handlers MoreExamples.pressed).
Proof.
  apply (onTouchEnd_clears nat nat MoreExamples.pressed). exact wf_pressed.
Defined.

Lemma repeating_handler_stays_example :
  (exists before after : list (Fired nat),
     log (run Examples.countingCb MoreExamples.pressed) =
       log MoreExamples.pressed
       ++ before
       ++ FiredHandler MoreExamples.leftHandler (curPos MoreExamples.pressed) :: after /\
     firedCount 2 before = 0%nat /\ firedCount 2 after = 0%nat /\
     app (run Examples.countingCb MoreExamples.pressed) =
       replay Examples.countingCb after
         (fst (Examples.countingCb (fn MoreExamples.leftHandler)
                 (Some (code MoreExamples.leftHandler, curPos MoreExamples.pressed))
                 (replay Examples.countingCb before (app MoreExamples.pressed))))) /\
  app (run Examples.countingCb MoreExamples.pressed) = 4%nat /\
  firedCount 2 (log (run Examples.countingCb MoreExamples.pressed))
    = S (firedCount 2 (log MoreExamples.pressed)) /\
  In MoreExamples.leftHandler (handlers (run Examples.countingCb MoreExamples.pressed)).
Proof.
  destruct (repeating_handler_stays nat nat Examples.countingCb MoreExamples.pressed
              MoreExamples.leftHandler 2) as (H0 & H1 & H2).
  - exact wf_pressed.
  - split; [reflexivity|vm_compute; discriminate].
  - vm_compute. auto.
  - reflexivity.
  - reflexivity.
  - split; [exact H0|]. split; [vm_compute; reflexivity|]. split; [exact H1|exact H2].
Defined.

End EventLoopMore.

(* ================================================================== *)
(** ** Listeners and their handlers *)
(* ================================================================== *)

Module EventLoopLinks.
Import EventLoop EventLoopNotions EventLoopFacts EventLoopMore.

Local Open Scope Z_scope.

Section WithCallbacks.

Variable Fn : Type.
Variable App : Type.
Variable cb : Fn -> Args -> App -> App * list (Cmd Fn).

Lemma NoDup_insert {A} (a : A) (l1 l2 : list A) :
  NoDup (l1 ++ l2) -> ~ In a (l1 ++ l2) -> NoDup (l1 ++ a :: l2).
Proof.
  induction l1 as [|b l1 IH]; simpl; intros Hnd Hnot.
  - constructor; assumption.
  - inversion Hnd as [|? ? Hb Hnd']; subst. constructor.
    + intros Hin. apply in_app_or in Hin. destruct Hin as [Hin|[->|Hin]].
      * apply Hb. apply in_or_app. left. exact Hin.
      * apply Hnot. left. reflexivity.
      * apply Hb. apply in_or_app. right. exact Hin.
    + apply IH; [exact Hnd'|]. intros Hin. apply Hnot. right. exact Hin.
Qed.

Lemma armedIds_app (l1 l2 : list (EventHandler Fn)) :
  armedIds (l1 ++ l2) = armedIds l1 ++ armedIds l2.
Proof. unfold armedIds. apply flat_map_app. Qed.

Lemma armedIds_clear_none (ls : list (EventHandler Fn)) :
  armedIds (clearFirst None ls) = armedIds ls.
Proof.
  induction ls as [|l ls IH]; simpl; [reflexivity|].
  destruct (id l) as [n|] eqn:E; simpl.
  - rewrite E. rewrite IH. reflexivity.
  - reflexivity.
Qed.

Lemma armedIds_clear_some (n : nat) (ls : list (EventHandler Fn)) :
  NoDup (armedIds ls) ->
  armedIds (clearFirst (Some n) ls) =
  filter (fun m => negb (Nat.eqb m n)) (armedIds ls).
Proof.
  induction ls as [|l ls IH]; simpl; intros Hnd; [reflexivity|].
  destruct (id l) as [m|] eqn:E; simpl.
  - inversion Hnd as [|? ? Hnot Hnd']; subst.
    destruct (Nat.eqb m n) eqn:Em; simpl.
    + apply Nat.eqb_eq in Em. subst m. symmetry. apply forallb_filter_id.
      apply forallb_forall. intros k Hk. apply negb_true_iff, Nat.eqb_neq.
      intros ->. contradiction.
    + rewrite E. simpl. rewrite IH by exact Hnd'. reflexivity.
  - rewrite E. apply IH. exact Hnd.
Qed.

Lemma spliceFirst_none (hs : list (EventHandler Fn)) :
  (forall h, In h hs -> id h <> None) -> spliceFirst None hs = hs.
Proof.
  induction hs as [|h hs IH]; simpl; intros H; [reflexivity|].
  destruct (id h) eqn:E; simpl.
  - rewrite IH; [reflexivity|]. intros h' Hh'. apply H. right. exact Hh'.
  - exfalso. apply (H h); [left; reflexivity|exact E].
Qed.

(** [remove] keeps the bookkeeping. *)
Lemma linked_remove (i : option nat) (ks ms hs : list (EventHandler Fn)) (nx : nat) :
  linkedLists (ks ++ ms) hs nx ->
  linkedLists (clearFirst i ks ++ clearFirst i ms) (spliceFirst i hs) nx.
Proof.
  intros (H1 & H2 & H3 & H4). destruct i as [n|].
  - assert (Hk : NoDup (armedIds ks)).
    { rewrite armedIds_app in H3. apply NoDup_app_remove_r in H3. exact H3. }
    assert (Hm : NoDup (armedIds ms)).
    { rewrite armedIds_app in H3. apply NoDup_app_remove_l in H3. exact H3. }
    assert (E : armedIds (clearFirst (Some n) ks ++ clearFirst (Some n) ms) =
                filter (fun m => negb (Nat.eqb m n)) (armedIds (ks ++ ms))).
    { rewrite !armedIds_app, filter_app, !armedIds_clear_some by assumption.
      reflexivity. }
    rewrite (spliceFirst_filter _ _ hs H1).
    repeat split.
    + apply NoDup_filter_map. exact H1.
    + intros h Hh. apply filter_In in Hh. apply H2. apply Hh.
    + rewrite E. apply NoDup_filter. exact H3.
    + rewrite E. intros Hin. apply filter_In in Hin. destruct Hin as [Hin Hne].
      apply H4 in Hin. rewrite in_map_iff in *.
      destruct Hin as (h & Eh & Hh). exists h. split; [exact Eh|].
      apply filter_In. split; [exact Hh|]. rewrite Eh. simpl.
      apply negb_true_iff, Nat.eqb_neq in Hne. apply negb_true_iff, Nat.eqb_neq.
      exact Hne.
    + rewrite E. intros Hin. rewrite in_map_iff in Hin.
      destruct Hin as (h & Eh & Hh). apply filter_In in Hh. destruct Hh as [Hh Hne].
      apply filter_In. split.
      * apply H4. rewrite in_map_iff. exists h. auto.
      * rewrite Eh in Hne. simpl in Hne. exact Hne.
  - rewrite spliceFirst_none.
    + unfold linkedLists.
      rewrite armedIds_app, !armedIds_clear_none, <- armedIds_app.
      repeat split; try assumption; apply H4.
    + intros h Hh E. destruct (H2 h Hh) as (n & En & _). congruence.
Qed.

(** Arming one listener that is not armed keeps the bookkeeping. *)
Lemma linked_arm (pre post hs : list (EventHandler Fn)) (l : EventHandler Fn)
    (nx : nat) (t : EventTypes) (c : Code) (f : Fn) (r : bool) :
  unarmed (id l) = true ->
  linkedLists (pre ++ l :: post) hs nx ->
  linkedLists (pre ++ setId (Some (nx + 1)%nat) l :: post)
    (hs ++ [mkHandler (Some (nx + 1)%nat) t c f r]) (nx + 1).
Proof.
  intros Hun (H1 & H2 & H3 & H4).
  assert (Hbound : forall n, In (Some n) (map id hs) -> (1 <= n <= nx)%nat).
  { intros n Hin. rewrite in_map_iff in Hin. destruct Hin as (h & E & Hh).
    destruct (H2 h Hh) as (m & Em & Hm). congruence. }
  assert (Hid : id l = None).
  { destruct (id l) as [[|n]|] eqn:E; [|discriminate|reflexivity].
    exfalso. assert (Hin : In 0%nat (armedIds (pre ++ l :: post))).
    { rewrite armedIds_app. apply in_or_app. right. simpl. rewrite E. left. reflexivity. }
    apply H4, Hbound in Hin. lia. }
  assert (E0 : armedIds (pre ++ l :: post) = armedIds pre ++ armedIds post).
  { rewrite armedIds_app. simpl. rewrite Hid. reflexivity. }
  assert (E1 : armedIds (pre ++ setId (Some (nx + 1)%nat) l :: post) =
               armedIds pre ++ (nx + 1)%nat :: armedIds post).
  { rewrite armedIds_app. reflexivity. }
  rewrite E0 in H3, H4. unfold linkedLists. rewrite E1.
  assert (Hfresh : ~ In (nx + 1)%nat (armedIds pre ++ armedIds post)).
  { intros Hin. apply H4, Hbound in Hin. lia. }
  repeat split.
  - rewrite map_app. simpl. apply NoDup_app; [exact H1|repeat constructor; auto|].
    intros i Hi [<-|[]]. apply Hbound in Hi. lia.
  - intros h Hh. apply in_app_or in Hh. destruct Hh as [Hh|[<-|[]]].
    + destruct (H2 h Hh) as (n & En & Hn). exists n. split; [exact En|lia].
    + exists (nx + 1)%nat. split; [reflexivity|lia].
  - apply NoDup_insert; assumption.
  - intros Hin. rewrite map_app. apply in_or_app.
    apply in_app_or in Hin. destruct Hin as [Hin|[<-|Hin]].
    + left. apply H4. apply in_or_app. left. exact Hin.
    + right. left. reflexivity.
    + left. apply H4. apply in_or_app. right. exact Hin.
  - intros Hin. rewrite map_app in Hin. apply in_app_or in Hin.
    destruct Hin as [Hin|[E|[]]].
    + apply H4 in Hin. apply in_app_or in Hin. apply in_or_app.
      destruct Hin; [left|right; right]; assumption.
    + inversion E. apply in_or_app. right. left. reflexivity.
Qed.

(** *** The arming loops *)

Lemma armMouse_fst (pos : Point) (l : EventHandler Fn) (ls : list (EventHandler Fn))
    (s : State Fn App) :
  fst (armMouseListeners pos (l :: ls) s) =
  if isPointer (type l) && unarmed (id l) then
    setId (Some (nextId s + 1)%nat) l
      :: fst (armMouseListeners pos ls
                (snd (add (type l) (CodePos pos) (fn l) (repeat l) s)))
  else l :: fst (armMouseListeners pos ls s).
Proof.
  simpl. destruct (isPointer (type l) && unarmed (id l)).
  - destruct (armMouseListeners pos ls _) as [rest' s2]. reflexivity.
  - destruct (armMouseListeners pos ls s) as [rest' s2]. reflexivity.
Qed.

Lemma armKey_fields (key : Z) (ls : list (EventHandler Fn)) :
  forall s : State Fn App,
    keyListeners (snd (armKeyListeners key ls s)) = keyListeners s /\
    mouseListeners (snd (armKeyListeners key ls s)) = mouseListeners s.
Proof.
  induction ls as [|l ls IH]; intros s; [split; reflexivity|].
  rewrite armKey_snd.
  destruct (isKey (type l) && codeIs (code l) key && unarmed (id l)); [|apply IH].
  destruct (IH (snd (add (type l) (code l) (fn l) (repeat l) s))) as [-> ->].
  split; reflexivity.
Qed.

Lemma armMouse_fields (pos : Point) (ls : list (EventHandler Fn)) :
  forall s : State Fn App,
    keyListeners (snd (armMouseListeners pos ls s)) = keyListeners s /\
    mouseListeners (snd (armMouseListeners pos ls s)) = mouseListeners s.
Proof.
  induction ls as [|l ls IH]; intros s; [split; reflexivity|].
  rewrite armMouse_snd.
  destruct (isPointer (type l) && unarmed (id l)); [|apply IH].
  destruct (IH (snd (add (type l) (CodePos pos) (fn l) (repeat l) s))) as [-> ->].
  split; reflexivity.
Qed.

Lemma linked_armKey (key : Z) (ls : list (EventHandler Fn)) :
  forall (pre post : list (EventHandler Fn)) (s : State Fn App),
    linkedLists (pre ++ ls ++ post) (handlers s) (nextId s) ->
    linkedLists (pre ++ fst (armKeyListeners key ls s) ++ post)
      (handlers (snd (armKeyListeners key ls s)))
      (nextId (snd (armKeyListeners key ls s))).
Proof.
  induction ls as [|l ls IH]; intros pre post s H; [exact H|].
  rewrite armKey_fst, armKey_snd.
  destruct (isKey (type l) && codeIs (code l) key && unarmed (id l)) eqn:E.
  - apply andb_true_iff in E. destruct E as [_ Hun].
    pose proof (linked_arm pre (ls ++ post) (handlers s) l (nextId s)
                  (type l) (code l) (fn l) (repeat l) Hun H) as Harm.
    specialize (IH (pre ++ [setId (Some (nextId s + 1)%nat) l]) post
                  (snd (add (type l) (code l) (fn l) (repeat l) s))).
    rewrite <- !app_assoc in IH. apply IH. exact Harm.
  - specialize (IH (pre ++ [l]) post s).
    rewrite <- !app_assoc in IH. apply IH. exact H.
Qed.

Lemma linked_armMouse (pos : Point) (ls : list (EventHandler Fn)) :
  forall (pre post : list (EventHandler Fn)) (s : State Fn App),
    linkedLists (pre ++ ls ++ post) (handlers s) (nextId s) ->
    linkedLists (pre ++ fst (armMouseListeners pos ls s) ++ post)
      (handlers (snd (armMouseListeners pos ls s)))
      (nextId (snd (armMouseListeners pos ls s))).
Proof.
  induction ls as [|l ls IH]; intros pre post s H; [exact H|].
  rewrite armMouse_fst, armMouse_snd.
  destruct (isPointer (type l) && unarmed (id l)) eqn:E.
  - apply andb_true_iff in E. destruct E as [_ Hun].
    pose proof (linked_arm pre (ls ++ post) (handlers s) l (nextId s)
                  (type l) (CodePos pos) (fn l) (repeat l) Hun H) as Harm.
    specialize (IH (pre ++ [setId (Some (nextId s + 1)%nat) l]) post
                  (snd (add (type l) (CodePos pos) (fn l) (repeat l) s))).
    rewrite <- !app_assoc in IH. apply IH. exact Harm.
  - specialize (IH (pre ++ [l]) post s).
    rewrite <- !app_assoc in IH. apply IH. exact H.
Qed.

(** *** Every step keeps the bookkeeping *)

Lemma linked_ext (s s' : State Fn App) :
  keyListeners s' = keyListeners s -> mouseListeners s' = mouseListeners s ->
  handlers s' = handlers s -> nextId s' = nextId s ->
  linked s -> linked s'.
Proof. unfold linked. intros -> -> -> ->. auto. Qed.

Lemma armedIds_unarmed (ls : list (EventHandler Fn)) (t : EventTypes) (c : Code)
    (f : Fn) (r : bool) :
  armedIds (ls ++ [mkHandler None t c f r]) = armedIds ls.
Proof. rewrite armedIds_app. simpl. apply app_nil_r. Qed.

Lemma linked_exec (c : Cmd Fn) (s : State Fn App) : linked s -> linked (exec c s).
Proof.
  unfold linked, linkedLists. intros H. destruct c; simpl; try exact H.
  - rewrite armedIds_app, armedIds_unarmed, <- armedIds_app. exact H.
  - rewrite app_assoc, armedIds_unarmed. exact H.
  - rewrite app_assoc, armedIds_unarmed. exact H.
Qed.

Lemma linked_call (f : Fn) (args : Args) (s : State Fn App) :
  linked s -> linked (call cb f args s).
Proof.
  intros H. unfold call. destruct (cb f args (app s)) as [a cmds].
  assert (H0 : linked (setApp a s)) by exact H.
  revert H0. generalize (setApp a s) as t. unfold execAll.
  induction cmds as [|c cmds IH]; intros t Ht; simpl; [exact Ht|].
  apply IH. apply linked_exec. exact Ht.
Qed.

Lemma linked_removeS (i : option nat) (s : State Fn App) :
  linked s -> linked (remove i s).
Proof. unfold linked. simpl. apply linked_remove. Qed.

Lemma linked_run (s : State Fn App) : linked s -> linked (run cb s).
Proof.
  intros H. unfold run.
  destruct (paused s || (0 <? resumeTimeRemaining s)).
  - destruct (0 <? resumeTimeRemaining s); exact H.
  - unfold dispatch.
    assert (Ht : forall fs (t : State Fn App), linked t ->
                   linked (fold_left (fireTick cb) fs t)).
    { induction fs as [|g fs IH]; intros t Hl; simpl; [exact Hl|].
      apply IH. unfold fireTick. apply linked_call. exact Hl. }
    assert (Hh : forall hs (t : State Fn App), linked t ->
                   linked (fold_left (fireHandler cb) hs t)).
    { induction hs as [|g hs IH]; intros t Hl; simpl; [exact Hl|].
      apply IH. unfold fireHandler.
      assert (Hc : linked (call cb (fn g) (Some (code g, curPos t))
                             (record (FiredHandler g (curPos t)) t)))
        by (apply linked_call; exact Hl).
      destruct (negb (repeat g)); [apply linked_removeS|]; exact Hc. }
    apply Hh. apply Ht. exact H.
Qed.

Lemma linked_deliver (e : HostEvent) (s : State Fn App) :
  linked s -> linked (deliver e s).
Proof.
  intros H. destruct e as [key|key|ev b|ev b|]; simpl.
  - unfold onKeyDown.
    pose proof (linked_armKey key (keyListeners s) [] (mouseListeners s) s H) as Ha.
    destruct (armKey_fields key (keyListeners s) s) as [_ Em].
    destruct (armKeyListeners key (keyListeners s) s) as [ls s'].
    simpl in *. unfold linked. simpl. rewrite Em. exact Ha.
  - unfold onKeyUp. destruct (findKeyHandler key (handlers s));
      [apply linked_removeS|]; exact H.
  - unfold onTouchStart. destruct (getCoordinates ev) as [p|]; [|exact H].
    destruct (isWithin (Some p) b); [|exact H].
    set (s0 := setCurPos (Some p) s).
    assert (H0 : linkedLists (keyListeners s0 ++ mouseListeners s0 ++ [])
                   (handlers s0) (nextId s0)).
    { rewrite app_nil_r. exact H. }
    pose proof (linked_armMouse p (mouseListeners s0) (keyListeners s0) [] s0 H0) as Ha.
    destruct (armMouse_fields p (mouseListeners s0) s0) as [Ek _].
    destruct (armMouseListeners p (mouseListeners s0) s0) as [ls s'].
    simpl in *. unfold linked. simpl. rewrite Ek.
    rewrite app_nil_r in Ha. exact Ha.
  - unfold onTouchMove. destruct (curPos s); [|exact H].
    destruct (isWithin (getCoordinates ev) b); exact H.
  - unfold onTouchEnd.
    assert (H0 : linked (match curPos s with
                         | Some _ => setCurPos None s
                         | None => s
                         end)) by (destruct (curPos s); exact H).
    revert H0. generalize (match curPos s with
                           | Some _ => setCurPos None s
                           | None => s
                           end) as t.
    intros t. generalize (handlers t) as snap. intros snap. revert t.
    induction snap as [|h snap IH]; intros t Ht; simpl; [exact Ht|].
    apply IH. destruct (isPointer (type h)); [apply linked_removeS|]; exact Ht.
Qed.

(** X25: in every state the loop can reach, no two listeners are armed
    with the same identifier, every armed listener has its handler
    registered, and every registered handler belongs to an armed
    listener. *)
Theorem listeners_linked (a : App) (sts : list (Step Fn)) :
  let s := steps cb sts (init a) in
  NoDup (armedIds (keyListeners s ++ mouseListeners s)) /\
  (forall l n, In l (keyListeners s ++ mouseListeners s) -> id l = Some n ->
     registered n s) /\
  (forall h, In h (handlers s) ->
     exists l, In l (keyListeners s ++ mouseListeners s) /\ id l = id h).
Proof.
  cbv zeta.
  assert (H : linked (steps cb sts (init a))).
  { unfold steps.
    assert (H0 : linked (@init Fn App a)).
    { unfold linked, linkedLists. simpl. repeat split; try constructor; contradiction. }
    revert H0. generalize (@init Fn App a) as s.
    induction sts as [|st sts IH]; intros s Hs; simpl; [exact Hs|].
    apply IH. destruct st as [|e|c]; simpl.
    - apply linked_run. exact Hs.
    - apply linked_deliver. exact Hs.
    - apply linked_exec. exact Hs. }
  destruct H as (H1 & H2 & H3 & H4). split; [exact H3|]. split.
  - intros l n Hl E.
    assert (Hin : In n (armedIds (keyListeners (steps cb sts (init a))
                                  ++ mouseListeners (steps cb sts (init a))))).
    { unfold armedIds. apply in_flat_map. exists l. split; [exact Hl|].
      rewrite E. left. reflexivity. }
    apply H4 in Hin. rewrite in_map_iff in Hin.
    destruct Hin as (h & Eh & Hh). exists h. split; assumption.
  - intros h Hh. destruct (H2 h Hh) as (n & En & _).
    assert (Hin : In (Some n) (map id (handlers (steps cb sts (init a))))).
    { rewrite <- En. apply in_map. exact Hh. }
    apply H4 in Hin. unfold armedIds in Hin. apply in_flat_map in Hin.
    destruct Hin as (l & Hl & Hn). exists l. split; [exact Hl|].
    destruct (id l) as [m|]; [|contradiction].
    destruct Hn as [->|[]]. symmetry. exact En.
Qed.

End WithCallbacks.

End EventLoopLinks.

(* ================================================================== *)
(** ** More facts about the ship *)
(* ================================================================== *)

Ltac reflect_tests :=
  repeat match goal with
  | H : Qltb _ _ = true |- _ => apply Qltb_lt in H
  | H : Qltb _ _ = false |- _ => apply Qltb_ge in H
  | H : Qeq_bool _ _ = true |- _ => apply Qeq_bool_iff in H
  | H : Qeq_bool _ _ = false |- _ => apply Qeq_bool_neq in H
  end.

Module ShipMore.
Import Ship ShipNotions ShipFacts.

Section WithEnvironment.

Variable M : JSMath.
Variable canvas : Canvas.
Variable el_offsetWidth el_offsetHeight : Q.
Variable x0 y0 : Q.

Lemma collide_false (p : Point) :
  collide canvas p = false <->
  0 < x p /\ x p + height canvas < offsetWidth canvas /\
  0 < y p /\ y p + height canvas < offsetHeight canvas.
Proof.
  unfold collide. rewrite !orb_false_iff. split.
  - intros [[[H1 H2] H3] H4].
    repeat split; apply Qnot_le_lt; intros Hle; apply Qle_bool_iff in Hle; congruence.
  - intros (H1 & H2 & H3 & H4).
    repeat split;
      (destruct (Qle_bool _ _) eqn:E; [apply Qle_bool_iff in E; exfalso; lra|reflexivity]).
Qed.

Lemma update_inside (xDelta yDelta degDelta : Q) (s : State) :
  inside canvas s -> inside canvas (update canvas xDelta yDelta degDelta s).
Proof.
  intros Hs. unfold update. destruct (collide canvas _) eqn:E; [exact Hs|].
  apply collide_false in E. exact E.
Qed.

Lemma min_positive :
  0 < offsetWidth canvas -> 0 < offsetHeight canvas ->
  0 < Qmin (offsetWidth canvas) (offsetHeight canvas) /\
  Qmin (offsetWidth canvas) (offsetHeight canvas) <= offsetWidth canvas /\
  Qmin (offsetWidth canvas) (offsetHeight canvas) <= offsetHeight canvas.
Proof.
  intros HW HH.
  destruct (Q.min_spec (offsetWidth canvas) (offsetHeight canvas)) as [[Hlt E]|[Hle E]];
    rewrite E; repeat split; lra.
Qed.

(** X20: a ship constructed at the centre of a canvas of positive width and
    height stays strictly inside the canvas, with room for its height on
    both axes, whatever sequence of operations is applied to it. *)
Theorem ship_stays_inside (ops : list Op) :
  0 < offsetWidth canvas -> 0 < offsetHeight canvas ->
  x0 == offsetWidth canvas / 2 -> y0 == offsetHeight canvas / 2 ->
  inside canvas (applyAll M canvas x0 y0 ops (init canvas x0 y0)).
Proof.
  intros HW HH Hx Hy. destruct (min_positive HW HH) as (Hm & HmW & HmH).
  unfold Qdiv in Hx, Hy. change (/ 2) with (1 # 2) in Hx, Hy.
  assert (Hinit : inside canvas (init canvas x0 y0)).
  { unfold inside, init, width, height. cbn [posX posY].
    unfold Qdiv. change (/ 2) with (1 # 2).
    set (m := Qmin (offsetWidth canvas) (offsetHeight canvas)) in *.
    repeat split; lra. }
  assert (Hreset : forall s, inside canvas (reset canvas x0 y0 s)).
  { intros s. unfold reset. apply update_inside.
    unfold inside, width, height. cbn [posX posY].
    unfold Qdiv. change (/ 2) with (1 # 2).
    set (m := Qmin (offsetWidth canvas) (offsetHeight canvas)) in *.
    repeat split; lra. }
  unfold applyAll. revert Hinit. generalize (init canvas x0 y0) as s.
  induction ops as [|o ops IH]; intros s Hs; simpl; [exact Hs|].
  apply IH. destruct o; simpl.
  - apply Hreset.
  - unfold forward, move. apply update_inside. exact Hs.
  - exact Hs.
  - unfold rotateLeft. apply update_inside. exact Hs.
  - unfold rotateRight. apply update_inside. exact Hs.
Qed.

Lemma Qplus_0_r_eq (a : Q) : a + 0 = a.
Proof.
  destruct a as [n d]. unfold Qplus. simpl. f_equal; lia.
Qed.

Lemma clampAngle_fixed (a : Q) : 0 <= a /\ a <= 360 -> clampAngle a = a.
Proof.
  intros [H0 H1]. unfold clampAngle.
  destruct (Qltb 360 a) eqn:E1; [apply Qltb_lt in E1; lra|].
  destruct (Qltb a 0) eqn:E2; [apply Qltb_lt in E2; lra|reflexivity].
Qed.

Lemma reachable_angle (ops : list Op) :
  0 <= angle (applyAll M canvas x0 y0 ops (init canvas x0 y0)) /\
  angle (applyAll M canvas x0 y0 ops (init canvas x0 y0)) <= 360.
Proof.
  unfold applyAll.
  assert (H0 : 0 <= angle (init canvas x0 y0) /\ angle (init canvas x0 y0) <= 360)
    by (simpl; lra).
  revert H0. generalize (init canvas x0 y0) as s.
  induction ops as [|o ops IH]; intros s Hs; simpl; [exact Hs|].
  apply IH. apply apply_angle_range. exact Hs.
Qed.

(** X21: in every state the ship can reach, a turn leaves the position as
    it is, a thrust leaves the heading as it is, and the scale is 1. *)
Theorem turn_keeps_position_thrust_keeps_heading (ops : list Op) :
  let s := applyAll M canvas x0 y0 ops (init canvas x0 y0) in
  posX (rotateLeft canvas s) = posX s /\ posY (rotateLeft canvas s) = posY s /\
  posX (rotateRight canvas s) = posX s /\ posY (rotateRight canvas s) = posY s /\
  angle (forward M canvas s) = angle s /\
  scale s = 1.
Proof.
  cbv zeta. pose proof (reachable_angle ops) as Ha.
  set (s := applyAll M canvas x0 y0 ops (init canvas x0 y0)) in *.
  assert (Hturn : forall d, posX (update canvas 0 0 d s) = posX s /\
                            posY (update canvas 0 0 d s) = posY s).
  { intros d. unfold update. destruct (collide canvas _); [split; reflexivity|].
    cbn [posX posY]. rewrite !Qplus_0_r_eq. split; reflexivity. }
  split; [apply Hturn|]. split; [apply Hturn|].
  split; [apply Hturn|]. split; [apply Hturn|]. split.
  - unfold forward, move, update. destruct (collide canvas _); [reflexivity|].
    cbn [angle]. rewrite Qplus_0_r_eq. apply clampAngle_fixed. exact Ha.
  - unfold s, applyAll. clear.
    assert (H0 : scale (init canvas x0 y0) = 1) by reflexivity.
    revert H0. generalize (init canvas x0 y0) as s.
    induction ops as [|o ops IH]; intros s Hs; simpl; [exact Hs|].
    apply IH. destruct o; simpl; try exact Hs.
    + unfold reset, update. destruct (collide canvas _); reflexivity.
    + unfold forward, move, update. destruct (collide canvas _); exact Hs.
    + unfold rotateLeft, update. destruct (collide canvas _); exact Hs.
    + unfold rotateRight, update. destruct (collide canvas _); exact Hs.
Qed.

Lemma turn_position (d : Q) (s : State) :
  posX (update canvas 0 0 d s) = posX s /\ posY (update canvas 0 0 d s) = posY s.
Proof.
  unfold update. destruct (collide canvas _); [split; reflexivity|].
  cbn [posX posY]. rewrite !Qplus_0_r_eq. split; reflexivity.
Qed.

Lemma turn_not_crosses (d : Q) (s : State) :
  ~ crosses canvas s 0 0 -> ~ crosses canvas (update canvas 0 0 d s) 0 0.
Proof.
  unfold crosses. destruct (turn_position d s) as [-> ->]. auto.
Qed.

(** X22: for a ship strictly inside the canvas with a heading between 0
    and 360, a left turn followed by a right turn restores the heading,
    except that 0 comes back as 360; a right turn followed by a left turn
    restores it, except that 360 comes back as 0. *)
Theorem turn_round_trip (s : State) :
  0 <= angle s /\ angle s <= 360 -> inside canvas s ->
  angle (rotateRight canvas (rotateLeft canvas s)) ==
    (if Qeq_bool (angle s) 0 then 360 else angle s) /\
  angle (rotateLeft canvas (rotateRight canvas s)) ==
    (if Qeq_bool (angle s) 360 then 0 else angle s).
Proof.
  intros Ha Hin.
  assert (Hc : ~ crosses canvas s 0 0).
  { unfold inside, crosses in *. intros [H|[H|[H|H]]]; lra. }
  pose proof (rotateLeft_angle canvas s Ha Hc) as HL.
  pose proof (rotateRight_angle canvas s Ha Hc) as HR.
  assert (HaL : 0 <= angle (rotateLeft canvas s) /\ angle (rotateLeft canvas s) <= 360).
  { unfold rotateLeft, TURN_ANGLE. apply update_angle_range; [exact Ha|lra]. }
  assert (HaR : 0 <= angle (rotateRight canvas s) /\ angle (rotateRight canvas s) <= 360).
  { unfold rotateRight, TURN_ANGLE. apply update_angle_range; [exact Ha|lra]. }
  pose proof (rotateRight_angle canvas (rotateLeft canvas s) HaL
                (turn_not_crosses _ s Hc)) as HLR.
  pose proof (rotateLeft_angle canvas (rotateRight canvas s) HaR
                (turn_not_crosses _ s Hc)) as HRL.
  split.
  - rewrite HLR. clear HLR HRL HR HaR.
    destruct (Qltb (angle s - 2) 0) eqn:E1;
    destruct (Qltb 360 (angle (rotateLeft canvas s) + 2)) eqn:E2;
    destruct (Qeq_bool (angle s) 0) eqn:E3;
    reflect_tests; try lra; exfalso; apply E3; lra.
  - rewrite HRL. clear HLR HRL HL HaL.
    destruct (Qltb 360 (angle s + 2)) eqn:E1;
    destruct (Qltb (angle (rotateRight canvas s) - 2) 0) eqn:E2;
    destruct (Qeq_bool (angle s) 360) eqn:E3;
    reflect_tests; try lra; exfalso; apply E3; lra.
Qed.

(** X24: with the pointer exactly on the tip of the ship, [onDrag] never
    thrusts (for a [Math.sqrt] that returns a number below 1 at zero). *)
Theorem onDrag_at_tip (curPos : Point) (s : State) :
  (forall q, q == 0 -> exists d, Math_sqrt M q = Some d /\ d < 1) ->
  x curPos - offsetLeft canvas == x (getFront M el_offsetWidth el_offsetHeight s) ->
  y curPos - offsetTop canvas == y (getFront M el_offsetWidth el_offsetHeight s) ->
  fst (onDrag M canvas el_offsetWidth el_offsetHeight curPos s) <> CallForward.
Proof.
  intros Hsqrt Hx Hy. unfold onDrag. cbv zeta. cbn [x y].
  destruct (Qltb (Qabs _) (180 - getMinTurnAngle)).
  - destruct (Qltb _ 0); discriminate.
  - destruct (Hsqrt (x curPos - offsetLeft canvas
                     - x (getFront M el_offsetWidth el_offsetHeight s)
                     + (y curPos - offsetTop canvas
                        - y (getFront M el_offsetWidth el_offsetHeight s))))
      as (d & Hd & Hlt); [lra|].
    rewrite Hd. simpl. apply Qltb_lt in Hlt.
    unfold getMinThrustDistance, THRUST_DISTANCE. rewrite Hlt. discriminate.
Qed.

End WithEnvironment.

Lemma ship_stays_inside_example :
  inside Examples.canvas400
    (applyAll Approx.math Examples.canvas400 200 200
       (List.repeat OpForward 300) (init Examples.canvas400 200 200)).
Proof.
  apply (ship_stays_inside Approx.math Examples.canvas400 200 200
           (List.repeat OpForward 300)).
  - vm_compute. reflexivity.
  - vm_compute. reflexivity.
  - vm_compute. reflexivity.
  - vm_compute. reflexivity.
Defined.

Lemma inside_start : inside Examples.canvas400 Examples.start.
Proof. unfold inside. repeat split; vm_compute; reflexivity. Qed.

Lemma turn_round_trip_example :
  angle (rotateRight Examples.canvas400 (rotateLeft Examples.canvas400 Examples.start))
    == (if Qeq_bool (angle Examples.start) 0 then 360 else angle Examples.start) /\
  angle (rotateLeft Examples.canvas400 (rotateRight Examples.canvas400 Examples.start))
    == (if Qeq_bool (angle Examples.start) 360 then 0 else angle Examples.start).
Proof.
  apply (turn_round_trip Examples.canvas400 Examples.start).
  - split; vm_compute; discriminate.
  - exact inside_start.
Defined.

Lemma approx_sqrt_zero (q : Q) :
  q == 0 -> exists d, Math_sqrt Approx.math q = Some d /\ d < 1.
Proof.
  intros Hq. exists 0. simpl. unfold Approx.sqrt.
  assert (E1 : Qltb q 0 = false) by (apply Qltb_ge; lra).
  assert (E2 : Qeq_bool q 0 = true) by (apply Qeq_bool_iff; exact Hq).
  rewrite E1, E2. split; reflexivity.
Qed.

Lemma onDrag_at_tip_example :
  fst (onDrag Approx.math Examples.canvas400 56 40 MoreExamples.onTip Examples.start)
    <> CallForward.
Proof.
  apply (onDrag_at_tip Approx.math Examples.canvas400 56 40 MoreExamples.onTip
           Examples.start).
  - exact approx_sqrt_zero.
  - vm_compute. reflexivity.
  - vm_compute. reflexivity.
Defined.

End ShipMore.
